(** * videojs-contrib-hls: the buffering and selection engine of [HlsHandler]

    A shallow embedding of [src/videojs-contrib-hls.js].

    - Media times (seconds: [buffered] ranges, [currentTime], segment [end]
      and [duration]) are JavaScript numbers and are modelled as IEEE 754
      binary64 values, Rocq's primitive [float], with the comparisons and
      the arithmetic of the language.
    - Wall-clock stamps ([Date.now()], [excludeUntil]) and bit rates
      ([BANDWIDTH], [this.bandwidth]) are integral numbers and are modelled
      as [Z]; [excludeUntil] also takes the value [Infinity].
    - Objects that are shared and mutated (the playlists of the master
      playlist, the key objects of the segments) live in stores and are
      referred to by their index.
    - A method is a function from the handler's state to an [Outcome]: it
      completes normally or with a [TypeError] (a property read on
      [undefined]), and in both cases leaves a state behind. Calls to the
      collaborators (XHR, media source, source buffer, logger) are recorded
      in the [trace] of the state. *)

From Stdlib Require Import ZArith Bool List String Lia PrimFloat Sorted.
From Stdlib Require Import Ascii.
From Stdlib Require FloatAxioms FloatOps SpecFloat.
From stdpp Require Import base option list.
Import ListNotations.

Local Open Scope Z_scope.

(* Decimal literals such as 0.05 denote the nearest binary64 value, as in
   the source. *)
Set Warnings "-inexact-float".

(** ** JavaScript numbers *)

Module JS.

(** [x >= y] on numbers; false when either side is NaN. *)
Definition geb (x y : float) : bool := PrimFloat.leb y x.
Definition gtb (x y : float) : bool := PrimFloat.ltb y x.

Definition is_nan (x : float) : bool := negb (PrimFloat.eqb x x).

(** ToBoolean on a number: [+0], [-0] and [NaN] are falsy. *)
Definition truthy (x : float) : bool :=
  negb (PrimFloat.eqb x 0%float || is_nan x).

(** ToBoolean on a value that is [undefined] or a number. *)
Definition truthy_opt (x : option float) : bool :=
  match x with
  | Some v => truthy v
  | None => false
  end.

(** [Math.max(a, b)]. *)
Definition Math_max (a b : float) : float :=
  if is_nan a || is_nan b then PrimFloat.nan
  else if PrimFloat.ltb a b then b else a.

(** ToBoolean on an integral number. *)
Definition truthyZ (x : Z) : bool := negb (x =? 0).

(** ToBoolean on a value that is [undefined]/[null] or an object. *)
Definition defined {A : Type} (x : option A) : bool :=
  match x with
  | Some _ => true
  | None => false
  end.

(** [a[i]] on an array: [undefined] outside of [0 .. length-1]. *)
Definition index {A : Type} (a : list A) (i : Z) : option A :=
  if i <? 0 then None else a !! Z.to_nat i.

End JS.

(** ** Completions *)

(** The outcome of running a method on a state [S]: a normal completion with
    a value, or a [TypeError]; the state reached is kept in both cases. *)
Inductive Outcome (S A : Type) : Type :=
| Normal (a : A) (s : S)
| TypeError (s : S).
Arguments Normal {S A} a s.
Arguments TypeError {S A} s.

Definition M (S A : Type) : Type := S -> Outcome S A.

Definition ret {S A : Type} (a : A) : M S A := fun s => Normal a s.

Definition bind {S A B : Type} (m : M S A) (k : A -> M S B) : M S B :=
  fun s =>
    match m s with
    | Normal a s' => k a s'
    | TypeError s' => TypeError s'
    end.

Definition modify {S : Type} (f : S -> S) : M S unit := fun s => Normal tt (f s).

Definition state_of {S A : Type} (o : Outcome S A) : S :=
  match o with
  | Normal _ s => s
  | TypeError s => s
  end.

Declare Scope js_scope.
Delimit Scope js_scope with js.
Notation "'do' x <- m ; k" := (bind m (fun x => k))
  (at level 10, x name, m at level 100, k at level 200) : js_scope.
Notation "'run' m ; k" := (bind m (fun _ => k))
  (at level 10, m at level 100, k at level 200) : js_scope.

(** ** Data model *)

(** A [TimeRanges] object: the list of its [start(i), end(i)] pairs. *)
Definition TimeRanges : Type := list (float * float).

Definition createTimeRanges (ranges : list (float * float)) : TimeRanges := ranges.

(** A wall-clock stamp stored in [excludeUntil]. *)
Inductive Stamp : Type :=
| Finite (t : Z)
| Infinity.

Record Resolution : Type := {
  res_width : Z;
  res_height : Z
}.

Record Attributes : Type := {
  BANDWIDTH : option Z;
  RESOLUTION : option Resolution;
  CODECS : option string
}.

(** A byte range of a segment; [br_ref] is the identity of the object
    ([===] on byte ranges compares identities). *)
Record Byterange : Type := {
  br_ref : nat;
  br_length : Z;
  br_offset : Z
}.

(** A key object: [key_bytes] holds the four 32-bit words of the key once
    it has been downloaded, [retries] is [undefined] or a count. *)
Record Key : Type := {
  key_uri : string;
  key_iv : option (list Z);
  key_bytes : option (list Z);
  retries : option Z
}.

(** A reference to a key object of the key store. *)
Abbreviation KeyRef := nat.

Record Segment : Type := {
  seg_uri : string;
  seg_duration : float;
  seg_end : option float;
  seg_byterange : option Byterange;
  seg_key : option KeyRef;
  seg_discontinuity : bool
}.

Record Playlist : Type := {
  pl_uri : option string;
  attributes : option Attributes;
  excludeUntil : option Stamp;
  segments : option (list Segment);
  mediaSequence : Z;
  endList : bool;
  discontinuityStarts : list Z
}.

(** ** [Hls.findSoleUncommonTimeRangesEnd_] *)

Module Hls.

Definition GOAL_BUFFER_LENGTH : float := 30%float.

(** The closure [overlapsCurrentEnd], with the variable [end] it reads. *)
Definition overlapsCurrentEnd (end_ : float) (span : float * float) : bool :=
  PrimFloat.leb (fst span) end_ && JS.geb (snd span) end_.

Definition findSoleUncommonTimeRangesEnd_
    (original update : option TimeRanges) : option float :=
  let edges :=
    match original with
    | Some o => map (fun r => (fst r, snd r)) o
    | None => []
    end in
  let result :=
    match update with
    | Some u =>
        map snd (List.filter
                   (fun r => negb (existsb (overlapsCurrentEnd (snd r)) edges)) u)
    | None => []
    end in
  match result with
  | [e] => Some e
  | _ => None
  end.

End Hls.

(** The specification's reading: a span covers a time when the time lies
    between its two edges, edges included. *)
Definition covers (span : float * float) (t : float) : Prop :=
  PrimFloat.leb (fst span) t = true /\ PrimFloat.leb t (snd span) = true.

Definition uncovered (before : TimeRanges) (t : float) : Prop :=
  forall span, In span before -> ~ covers span t.

(** [e] is the end of exactly one interval of [after] whose end no interval
    of [before] covers. *)
Definition soleUncommonEnd (before after : TimeRanges) (e : float) : Prop :=
  exists i s,
    after !! i = Some (s, e) /\ uncovered before e /\
    forall j s' e',
      after !! j = Some (s', e') -> uncovered before e' -> j = i.

Definition ranges_of (r : option TimeRanges) : TimeRanges :=
  match r with
  | Some l => l
  | None => []
  end.

(** ** [updateSegmentMetadata] *)

Definition set_seg_end (e : option float) (s : Segment) : Segment :=
  {| seg_uri := seg_uri s; seg_duration := seg_duration s; seg_end := e;
     seg_byterange := seg_byterange s; seg_key := seg_key s;
     seg_discontinuity := seg_discontinuity s |}.

Definition set_seg_duration (d : float) (s : Segment) : Segment :=
  {| seg_uri := seg_uri s; seg_duration := d; seg_end := seg_end s;
     seg_byterange := seg_byterange s; seg_key := seg_key s;
     seg_discontinuity := seg_discontinuity s |}.

Definition set_segments (l : option (list Segment)) (p : Playlist) : Playlist :=
  {| pl_uri := pl_uri p; attributes := attributes p;
     excludeUntil := excludeUntil p; segments := l;
     mediaSequence := mediaSequence p; endList := endList p;
     discontinuityStarts := discontinuityStarts p |}.

(** The playlist argument may be [null]; the state of the computation is the
    playlist object itself, mutated in place. *)
Definition updateSegmentMetadata
    (segmentIndex : Z) (segmentEnd : option float) : M (option Playlist) unit :=
  fun playlist =>
    match playlist with
    | None => Normal tt playlist
    | Some pl =>
        match segments pl with
        | None => TypeError playlist
        | Some segs =>
            let segment := JS.index segs segmentIndex in
            let previousSegment := JS.index segs (segmentIndex - 1) in
            match segment with
            | Some seg =>
                if JS.truthy_opt segmentEnd then
                  let seg1 := set_seg_end segmentEnd seg in
                  let seg2 :=
                    match previousSegment with
                    | None =>
                        match seg_end seg1 with
                        | Some e => set_seg_duration e seg1
                        | None => seg1
                        end
                    | Some prev =>
                        if JS.truthy_opt (seg_end prev) then
                          match seg_end seg1, seg_end prev with
                          | Some e, Some pe =>
                              set_seg_duration (PrimFloat.sub e pe) seg1
                          | _, _ => seg1
                          end
                        else seg1
                    end in
                  Normal tt
                    (Some (set_segments
                             (Some (<[Z.to_nat segmentIndex := seg2]> segs)) pl))
                else Normal tt playlist
            | None => Normal tt playlist
            end
        end
    end.

(** ** Constants *)

(** The fudge factor applied to advertised bit rates: the number the
    literal [1.2] denotes, the binary64 value nearest to it. *)
Definition bandwidthVariance : float := 0x1.3333333333333p+0%float.

(** 5 minute blacklist, in milliseconds. *)
Definition blacklistDuration : Z := 5 * 60 * 1000.

Definition TIME_FUDGE_FACTOR : float := (1 / 30)%float.

Definition bufferCheckInterval : Z := 500.

(** [Number.MAX_VALUE], an integer. *)
Definition MAX_VALUE : Z := (2 ^ 53 - 1) * 2 ^ 971.

(** [key.retries && key.retries >= 2] in a boolean context. *)
Definition keyFailed (key : Key) : bool :=
  match retries key with
  | Some r => JS.truthyZ r && (r >=? 2)
  | None => false
  end.

(** ** Comparators and [Array.prototype.sort] *)

(** [p.attributes && p.attributes.BANDWIDTH], when truthy. *)
Definition declaredBandwidth (p : Playlist) : option Z :=
  match attributes p with
  | Some a =>
      match BANDWIDTH a with
      | Some b => if JS.truthyZ b then Some b else None
      | None => None
      end
  | None => None
  end.

(** [p.attributes && p.attributes.RESOLUTION && p.attributes.RESOLUTION.width],
    when truthy. *)
Definition declaredWidth (p : Playlist) : option Z :=
  match attributes p with
  | Some a =>
      match RESOLUTION a with
      | Some r => if JS.truthyZ (res_width r) then Some (res_width r) else None
      | None => None
      end
  | None => None
  end.

Definition orMaxValue (x : option Z) : Z :=
  match x with
  | Some v => v
  | None => MAX_VALUE
  end.

Definition comparePlaylistBandwidth (left right : Playlist) : Z :=
  let leftBandwidth := orMaxValue (declaredBandwidth left) in
  let rightBandwidth := orMaxValue (declaredBandwidth right) in
  leftBandwidth - rightBandwidth.

(** The comparator reads [left.attributes.BANDWIDTH] without a guard when the
    widths are equal; it is only ever applied to playlists that have
    attributes, and a missing [attributes] counts as a missing bit rate here. *)
Definition comparePlaylistResolution (left right : Playlist) : Z :=
  let leftWidth := orMaxValue (declaredWidth left) in
  let rightWidth := orMaxValue (declaredWidth right) in
  match declaredBandwidth left, declaredBandwidth right with
  | Some lb, Some rb =>
      if leftWidth =? rightWidth then lb - rb else leftWidth - rightWidth
  | _, _ => leftWidth - rightWidth
  end.

(** [Array.prototype.sort] with a comparator, as a stable insertion sort. *)
Fixpoint Array_insert {A : Type} (cmp : A -> A -> Z) (x : A) (l : list A) : list A :=
  match l with
  | [] => [x]
  | y :: t => if cmp x y <=? 0 then x :: y :: t else y :: Array_insert cmp x t
  end.

Fixpoint Array_sort {A : Type} (cmp : A -> A -> Z) (l : list A) : list A :=
  match l with
  | [] => []
  | x :: t => Array_insert cmp x (Array_sort cmp t)
  end.

(** ** The steps of [selectPlaylist] *)

(** A reference to a playlist object: its index in [master.playlists]. *)
Abbreviation PlaylistRef := nat.

(** A variant in hand: the reference and the object it refers to. *)
Definition Variant : Type := PlaylistRef * Playlist.

Definition onVariants (cmp : Playlist -> Playlist -> Z) (l r : Variant) : Z :=
  cmp (snd l) (snd r).

(** The filter on [excludeUntil]. *)
Definition notExcluded (now : Z) (localVariant : Playlist) : bool :=
  match excludeUntil localVariant with
  | Some (Finite t) => now >=? t
  | Some Infinity => false
  | None => true
  end.

(** The number an integer stands for: the binary64 value nearest to it,
    ties to even, an infinity beyond the range of the format. Up to
    [2 ^ 53] it is the integer itself. *)
Definition toNumber (z : Z) : float :=
  FloatOps.SF2Prim
    (SpecFloat.binary_normalize FloatOps.prec FloatOps.emax z 0 false).

(** [variant.attributes.BANDWIDTH * bandwidthVariance], a product of
    numbers. *)
Definition effectiveBitrate (b : Z) : float := toNumber b * bandwidthVariance.

(** The body of the first [while] loop: [true] when the variant is pushed on
    [bandwidthPlaylists]. Bit rates and the bandwidth estimate are integers
    here; the product and the comparison are those of the numbers. *)
Definition bandwidthEligible (bandwidth : Z) (variant : Playlist) : bool :=
  match declaredBandwidth variant with
  | None => false
  | Some b => PrimFloat.ltb (effectiveBitrate b) (toNumber bandwidth)
  end.

Definition sortedPlaylists (now : Z) (playlists : list Playlist) : list Variant :=
  List.filter (fun v => notExcluded now (snd v))
    (Array_sort (onVariants comparePlaylistBandwidth) (imap pair playlists)).

(** [bandwidthPlaylists] before it is sorted by resolution: the loop walks
    [sortedPlaylists] from its last element down and pushes. *)
Definition bandwidthPlaylists (now bandwidth : Z) (playlists : list Playlist)
  : list Variant :=
  List.filter (fun v => bandwidthEligible bandwidth (snd v))
    (rev (sortedPlaylists now playlists)).

Definition bandwidthBestVariant (now bandwidth : Z) (playlists : list Playlist)
  : option Variant :=
  head (bandwidthPlaylists now bandwidth playlists).

(** [attributes.RESOLUTION] when the guard of the second loop lets the
    variant through. *)
Definition declaredResolution (p : Playlist) : option Resolution :=
  match attributes p with
  | Some a =>
      match RESOLUTION a with
      | Some r =>
          if JS.truthyZ (res_width r) && JS.truthyZ (res_height r)
          then Some r else None
      | None => None
      end
  | None => None
  end.

(** Comparisons with the player size, which is [NaN] ([None]) when the
    computed style cannot be parsed. *)
Definition eqNum (x : Z) (y : option Z) : bool :=
  match y with Some v => x =? v | None => false end.
Definition ltNum (x : Z) (y : option Z) : bool :=
  match y with Some v => x <? v | None => false end.

(** The second [while] loop, over the variants in the order it visits them;
    the result is [(resolutionPlusOne, resolutionBestVariant)]. *)
Fixpoint resolutionLoop (width height : option Z) (visit : list Variant)
    (resolutionPlusOne : option Variant) (resolutionBestVariant : option Variant)
  : option Variant * option Variant :=
  match visit with
  | [] => (resolutionPlusOne, resolutionBestVariant)
  | variant :: rest =>
      match declaredResolution (snd variant) with
      | None => resolutionLoop width height rest resolutionPlusOne resolutionBestVariant
      | Some variantResolution =>
          if eqNum (res_width variantResolution) width &&
             eqNum (res_height variantResolution) height
          then (None, Some variant)
          else if ltNum (res_width variantResolution) width &&
                  ltNum (res_height variantResolution) height
          then (resolutionPlusOne, resolutionBestVariant)
          else
            let smaller :=
              match resolutionPlusOne with
              | None => true
              | Some plusOne =>
                  match attributes (snd plusOne) with
                  | Some a =>
                      match RESOLUTION a with
                      | Some resolutionPlusOneAttribute =>
                          (res_width variantResolution <?
                             res_width resolutionPlusOneAttribute) &&
                          (res_height variantResolution <?
                             res_height resolutionPlusOneAttribute)
                      | None => false
                      end
                  | None => false
                  end
              end in
            if smaller
            then resolutionLoop width height rest (Some variant) resolutionBestVariant
            else resolutionLoop width height rest resolutionPlusOne resolutionBestVariant
      end
  end.

Definition orElse {A : Type} (x y : option A) : option A :=
  match x with
  | Some _ => x
  | None => y
  end.

(** [selectPlaylist] on the values it reads: the playlists of the master, the
    bandwidth estimate, the size of the player and the clock. *)
Definition selectVariant (playlists : list Playlist) (bandwidth : Z)
    (width height : option Z) (now : Z) : option Variant :=
  let sorted := sortedPlaylists now playlists in
  let byBandwidth := bandwidthPlaylists now bandwidth playlists in
  let byResolution := Array_sort (onVariants comparePlaylistResolution) byBandwidth in
  let '(resolutionPlusOne, resolutionBestVariant) :=
    resolutionLoop width height (rev byResolution) None None in
  orElse resolutionPlusOne
    (orElse resolutionBestVariant
       (orElse (bandwidthBestVariant now bandwidth playlists) (head sorted))).

(** ** The handler and its collaborators *)

Definition Bytes : Type := list Z.

(** The identity of a request object returned by [xhr]. *)
Abbreviation XhrRef := nat.

(** [loadingState_]: ['none'], ['meta'], ['segments']. *)
Inductive LoadingState : Type := LoadNone | LoadMeta | LoadSegments.

(** The [state] of the playlist loader. *)
Inductive LoaderState : Type :=
| HAVE_NOTHING | HAVE_MASTER | SWITCHING_MEDIA | HAVE_METADATA | HAVE_CURRENT_METADATA.

(** The playlist loader, as far as the handler reads it: [master] holds
    [master.playlists], the store of the playlist objects, and [media_] refers
    to the active one. *)
Record PlaylistLoader : Type := {
  master : option (list Playlist);
  media_ : option PlaylistRef;
  state : LoaderState;
  expired_ : float
}.

(** The tech (the video element). [computedWidth] and [computedHeight] are
    the integers [parseInt] reads off the computed style, [None] for [NaN]. *)
Record Tech : Type := {
  currentTime : float;
  buffered : TimeRanges;
  seeking : bool;
  currentSrc : string;
  computedWidth : option Z;
  computedHeight : option Z
}.

(** [nativeSourceBuffers] is [mediaSource_.sourceBuffers.length] when the
    wrapped native media source exists. *)
Record MediaSource : Type := {
  readyState : string;
  nativeSourceBuffers : option nat
}.

Record SourceBuffer : Type := {
  updating : bool
}.

(** A value that is [null], [undefined] or a number. *)
Inductive Nullable : Type :=
| Null
| Undefined
| Num (x : float).

(** The segment info object built by [fillBuffer]. *)
Record SegmentInfo : Type := {
  si_uri : string;
  si_mediaIndex : Z;
  si_mediaSequence : Z;
  si_playlist : PlaylistRef;
  si_currentBufferedEnd : float;
  si_bytes : option Bytes;
  si_encryptedBytes : option Bytes;
  si_decrypter : bool;
  si_buffered : option TimeRanges;
  si_timestampOffset : Nullable
}.

(** The error objects handed to [blacklistCurrentPlaylist_]. *)
Record HlsError : Type := {
  err_playlist : option PlaylistRef;
  err_status : option Z;
  err_message : string;
  err_code : Z
}.

(** The request object a callback receives, with the [error] argument. *)
Record XhrResponse : Type := {
  rq_ref : XhrRef;
  rq_error : bool;
  timedout : bool;
  aborted : bool;
  status : Z;
  response : option Bytes;
  rq_bandwidth : Z;
  roundTripTime : Z;
  rq_bytesReceived : option Z
}.

(** Calls to the collaborators, in the order they are made. *)
Inductive Effect : Type :=
| XhrSegment (request : XhrRef) (uri : string) (timeout : float)
    (range : option (Z * Z)) (withCredentials : bool)
| XhrKey (request : XhrRef) (uri : string) (key : KeyRef) (withCredentials : bool)
| XhrAbort (request : XhrRef)
| XhrSetAborted (request : XhrRef)
| EndOfStream (reason : option string)
| LogWarn (message : string)
| Trigger (event : string)
| MediaSwitch (playlist : PlaylistRef)
| SourceBufferRemove (from to : float)
| SourceBufferTimestampOffset (offset : Nullable)
| SourceBufferAppend (bytes : option Bytes)
| NewDecrypter (encrypted : option Bytes) (key : list Z) (iv : list Z)
| ClearTimeout (timer : nat)
| SetTimeout (timer : nat) (delay : Z).

(** The handler. [keys] is the store of the key objects, [clock] the value
    the clock shows during the step, [fresh] the next unused identity, and
    [trace] the calls made so far, the latest first. *)
Record HlsHandler : Type := {
  tech_ : Tech;
  source_src : string;
  source_withCredentials : bool;
  options_withCredentials : bool;
  mediaSource : option MediaSource;
  sourceBuffer : option SourceBuffer;
  playlists : option PlaylistLoader;
  loadingState_ : LoadingState;
  bandwidth : Z;
  bytesReceived : Z;
  segmentXhrTime : option Z;
  pendingSegment_ : option SegmentInfo;
  segmentXhr_ : option XhrRef;
  keyXhr_ : option XhrRef;
  lastSegmentLoaded_ : option Segment;
  error : option HlsError;
  checkBufferTimeout_ : option nat;
  keys : list Key;
  clock : Z;
  fresh : nat;
  trace : list Effect
}.

Definition set_playlists (v : option PlaylistLoader) (st : HlsHandler) : HlsHandler :=
  {| tech_ := tech_ st; source_src := source_src st;
     source_withCredentials := source_withCredentials st;
     options_withCredentials := options_withCredentials st;
     mediaSource := mediaSource st; sourceBuffer := sourceBuffer st;
     playlists := v; loadingState_ := loadingState_ st;
     bandwidth := bandwidth st; bytesReceived := bytesReceived st;
     segmentXhrTime := segmentXhrTime st;
     pendingSegment_ := pendingSegment_ st; segmentXhr_ := segmentXhr_ st;
     keyXhr_ := keyXhr_ st; lastSegmentLoaded_ := lastSegmentLoaded_ st;
     error := error st; checkBufferTimeout_ := checkBufferTimeout_ st;
     keys := keys st; clock := clock st; fresh := fresh st;
     trace := trace st |}.

Definition set_bandwidth (v : Z) (st : HlsHandler) : HlsHandler :=
  {| tech_ := tech_ st; source_src := source_src st;
     source_withCredentials := source_withCredentials st;
     options_withCredentials := options_withCredentials st;
     mediaSource := mediaSource st; sourceBuffer := sourceBuffer st;
     playlists := playlists st; loadingState_ := loadingState_ st;
     bandwidth := v; bytesReceived := bytesReceived st;
     segmentXhrTime := segmentXhrTime st;
     pendingSegment_ := pendingSegment_ st; segmentXhr_ := segmentXhr_ st;
     keyXhr_ := keyXhr_ st; lastSegmentLoaded_ := lastSegmentLoaded_ st;
     error := error st; checkBufferTimeout_ := checkBufferTimeout_ st;
     keys := keys st; clock := clock st; fresh := fresh st;
     trace := trace st |}.

Definition set_bytesReceived (v : Z) (st : HlsHandler) : HlsHandler :=
  {| tech_ := tech_ st; source_src := source_src st;
     source_withCredentials := source_withCredentials st;
     options_withCredentials := options_withCredentials st;
     mediaSource := mediaSource st; sourceBuffer := sourceBuffer st;
     playlists := playlists st; loadingState_ := loadingState_ st;
     bandwidth := bandwidth st; bytesReceived := v;
     segmentXhrTime := segmentXhrTime st;
     pendingSegment_ := pendingSegment_ st; segmentXhr_ := segmentXhr_ st;
     keyXhr_ := keyXhr_ st; lastSegmentLoaded_ := lastSegmentLoaded_ st;
     error := error st; checkBufferTimeout_ := checkBufferTimeout_ st;
     keys := keys st; clock := clock st; fresh := fresh st;
     trace := trace st |}.

Definition set_segmentXhrTime (v : option Z) (st : HlsHandler) : HlsHandler :=
  {| tech_ := tech_ st; source_src := source_src st;
     source_withCredentials := source_withCredentials st;
     options_withCredentials := options_withCredentials st;
     mediaSource := mediaSource st; sourceBuffer := sourceBuffer st;
     playlists := playlists st; loadingState_ := loadingState_ st;
     bandwidth := bandwidth st; bytesReceived := bytesReceived st;
     segmentXhrTime := v; pendingSegment_ := pendingSegment_ st;
     segmentXhr_ := segmentXhr_ st; keyXhr_ := keyXhr_ st;
     lastSegmentLoaded_ := lastSegmentLoaded_ st; error := error st;
     checkBufferTimeout_ := checkBufferTimeout_ st; keys := keys st;
     clock := clock st; fresh := fresh st; trace := trace st |}.

Definition set_pendingSegment_ (v : option SegmentInfo) (st : HlsHandler) : HlsHandler :=
  {| tech_ := tech_ st; source_src := source_src st;
     source_withCredentials := source_withCredentials st;
     options_withCredentials := options_withCredentials st;
     mediaSource := mediaSource st; sourceBuffer := sourceBuffer st;
     playlists := playlists st; loadingState_ := loadingState_ st;
     bandwidth := bandwidth st; bytesReceived := bytesReceived st;
     segmentXhrTime := segmentXhrTime st; pendingSegment_ := v;
     segmentXhr_ := segmentXhr_ st; keyXhr_ := keyXhr_ st;
     lastSegmentLoaded_ := lastSegmentLoaded_ st; error := error st;
     checkBufferTimeout_ := checkBufferTimeout_ st; keys := keys st;
     clock := clock st; fresh := fresh st; trace := trace st |}.

Definition set_segmentXhr_ (v : option XhrRef) (st : HlsHandler) : HlsHandler :=
  {| tech_ := tech_ st; source_src := source_src st;
     source_withCredentials := source_withCredentials st;
     options_withCredentials := options_withCredentials st;
     mediaSource := mediaSource st; sourceBuffer := sourceBuffer st;
     playlists := playlists st; loadingState_ := loadingState_ st;
     bandwidth := bandwidth st; bytesReceived := bytesReceived st;
     segmentXhrTime := segmentXhrTime st;
     pendingSegment_ := pendingSegment_ st; segmentXhr_ := v;
     keyXhr_ := keyXhr_ st; lastSegmentLoaded_ := lastSegmentLoaded_ st;
     error := error st; checkBufferTimeout_ := checkBufferTimeout_ st;
     keys := keys st; clock := clock st; fresh := fresh st;
     trace := trace st |}.

Definition set_keyXhr_ (v : option XhrRef) (st : HlsHandler) : HlsHandler :=
  {| tech_ := tech_ st; source_src := source_src st;
     source_withCredentials := source_withCredentials st;
     options_withCredentials := options_withCredentials st;
     mediaSource := mediaSource st; sourceBuffer := sourceBuffer st;
     playlists := playlists st; loadingState_ := loadingState_ st;
     bandwidth := bandwidth st; bytesReceived := bytesReceived st;
     segmentXhrTime := segmentXhrTime st;
     pendingSegment_ := pendingSegment_ st; segmentXhr_ := segmentXhr_ st;
     keyXhr_ := v; lastSegmentLoaded_ := lastSegmentLoaded_ st;
     error := error st; checkBufferTimeout_ := checkBufferTimeout_ st;
     keys := keys st; clock := clock st; fresh := fresh st;
     trace := trace st |}.

Definition set_lastSegmentLoaded_ (v : option Segment) (st : HlsHandler) : HlsHandler :=
  {| tech_ := tech_ st; source_src := source_src st;
     source_withCredentials := source_withCredentials st;
     options_withCredentials := options_withCredentials st;
     mediaSource := mediaSource st; sourceBuffer := sourceBuffer st;
     playlists := playlists st; loadingState_ := loadingState_ st;
     bandwidth := bandwidth st; bytesReceived := bytesReceived st;
     segmentXhrTime := segmentXhrTime st;
     pendingSegment_ := pendingSegment_ st; segmentXhr_ := segmentXhr_ st;
     keyXhr_ := keyXhr_ st; lastSegmentLoaded_ := v; error := error st;
     checkBufferTimeout_ := checkBufferTimeout_ st; keys := keys st;
     clock := clock st; fresh := fresh st; trace := trace st |}.

Definition set_error (v : option HlsError) (st : HlsHandler) : HlsHandler :=
  {| tech_ := tech_ st; source_src := source_src st;
     source_withCredentials := source_withCredentials st;
     options_withCredentials := options_withCredentials st;
     mediaSource := mediaSource st; sourceBuffer := sourceBuffer st;
     playlists := playlists st; loadingState_ := loadingState_ st;
     bandwidth := bandwidth st; bytesReceived := bytesReceived st;
     segmentXhrTime := segmentXhrTime st;
     pendingSegment_ := pendingSegment_ st; segmentXhr_ := segmentXhr_ st;
     keyXhr_ := keyXhr_ st; lastSegmentLoaded_ := lastSegmentLoaded_ st;
     error := v; checkBufferTimeout_ := checkBufferTimeout_ st;
     keys := keys st; clock := clock st; fresh := fresh st;
     trace := trace st |}.

Definition set_checkBufferTimeout_ (v : option nat) (st : HlsHandler) : HlsHandler :=
  {| tech_ := tech_ st; source_src := source_src st;
     source_withCredentials := source_withCredentials st;
     options_withCredentials := options_withCredentials st;
     mediaSource := mediaSource st; sourceBuffer := sourceBuffer st;
     playlists := playlists st; loadingState_ := loadingState_ st;
     bandwidth := bandwidth st; bytesReceived := bytesReceived st;
     segmentXhrTime := segmentXhrTime st;
     pendingSegment_ := pendingSegment_ st; segmentXhr_ := segmentXhr_ st;
     keyXhr_ := keyXhr_ st; lastSegmentLoaded_ := lastSegmentLoaded_ st;
     error := error st; checkBufferTimeout_ := v; keys := keys st;
     clock := clock st; fresh := fresh st; trace := trace st |}.

Definition set_keys (v : list Key) (st : HlsHandler) : HlsHandler :=
  {| tech_ := tech_ st; source_src := source_src st;
     source_withCredentials := source_withCredentials st;
     options_withCredentials := options_withCredentials st;
     mediaSource := mediaSource st; sourceBuffer := sourceBuffer st;
     playlists := playlists st; loadingState_ := loadingState_ st;
     bandwidth := bandwidth st; bytesReceived := bytesReceived st;
     segmentXhrTime := segmentXhrTime st;
     pendingSegment_ := pendingSegment_ st; segmentXhr_ := segmentXhr_ st;
     keyXhr_ := keyXhr_ st; lastSegmentLoaded_ := lastSegmentLoaded_ st;
     error := error st; checkBufferTimeout_ := checkBufferTimeout_ st;
     keys := v; clock := clock st; fresh := fresh st; trace := trace st |}.

Definition set_fresh (v : nat) (st : HlsHandler) : HlsHandler :=
  {| tech_ := tech_ st; source_src := source_src st;
     source_withCredentials := source_withCredentials st;
     options_withCredentials := options_withCredentials st;
     mediaSource := mediaSource st; sourceBuffer := sourceBuffer st;
     playlists := playlists st; loadingState_ := loadingState_ st;
     bandwidth := bandwidth st; bytesReceived := bytesReceived st;
     segmentXhrTime := segmentXhrTime st;
     pendingSegment_ := pendingSegment_ st; segmentXhr_ := segmentXhr_ st;
     keyXhr_ := keyXhr_ st; lastSegmentLoaded_ := lastSegmentLoaded_ st;
     error := error st; checkBufferTimeout_ := checkBufferTimeout_ st;
     keys := keys st; clock := clock st; fresh := v; trace := trace st |}.

Definition set_trace (v : list Effect) (st : HlsHandler) : HlsHandler :=
  {| tech_ := tech_ st; source_src := source_src st;
     source_withCredentials := source_withCredentials st;
     options_withCredentials := options_withCredentials st;
     mediaSource := mediaSource st; sourceBuffer := sourceBuffer st;
     playlists := playlists st; loadingState_ := loadingState_ st;
     bandwidth := bandwidth st; bytesReceived := bytesReceived st;
     segmentXhrTime := segmentXhrTime st;
     pendingSegment_ := pendingSegment_ st; segmentXhr_ := segmentXhr_ st;
     keyXhr_ := keyXhr_ st; lastSegmentLoaded_ := lastSegmentLoaded_ st;
     error := error st; checkBufferTimeout_ := checkBufferTimeout_ st;
     keys := keys st; clock := clock st; fresh := fresh st; trace := v |}.

Definition emit (e : Effect) (st : HlsHandler) : HlsHandler :=
  set_trace (e :: trace st) st.

(** The code of the repository that is not part of this file. *)
Class External : Type := {
  (** [resolveUrl(base, relative)] *)
  resolveUrl : string -> string -> string;
  (** [PlaylistLoader.prototype.getMediaIndexForTime_] *)
  getMediaIndexForTime_ : PlaylistLoader -> float -> Z;
  (** [Hls.Playlist.duration(playlist, endSequence)] *)
  Playlist_duration : Playlist -> option Z -> float;
  (** [Hls.Playlist.seekable(playlist)] *)
  Playlist_seekable : Playlist -> TimeRanges;
  (** the setter [PlaylistLoader.prototype.media(playlist)] *)
  media_setter : PlaylistLoader -> PlaylistRef -> PlaylistLoader
}.

Definition set_si_bytes (v : option Bytes) (info : SegmentInfo) : SegmentInfo :=
  {| si_uri := si_uri info; si_mediaIndex := si_mediaIndex info;
     si_mediaSequence := si_mediaSequence info;
     si_playlist := si_playlist info;
     si_currentBufferedEnd := si_currentBufferedEnd info; si_bytes := v;
     si_encryptedBytes := si_encryptedBytes info;
     si_decrypter := si_decrypter info; si_buffered := si_buffered info;
     si_timestampOffset := si_timestampOffset info |}.

Definition set_si_encryptedBytes (v : option Bytes) (info : SegmentInfo) : SegmentInfo :=
  {| si_uri := si_uri info; si_mediaIndex := si_mediaIndex info;
     si_mediaSequence := si_mediaSequence info;
     si_playlist := si_playlist info;
     si_currentBufferedEnd := si_currentBufferedEnd info;
     si_bytes := si_bytes info; si_encryptedBytes := v;
     si_decrypter := si_decrypter info; si_buffered := si_buffered info;
     si_timestampOffset := si_timestampOffset info |}.

Definition set_si_decrypter (v : bool) (info : SegmentInfo) : SegmentInfo :=
  {| si_uri := si_uri info; si_mediaIndex := si_mediaIndex info;
     si_mediaSequence := si_mediaSequence info;
     si_playlist := si_playlist info;
     si_currentBufferedEnd := si_currentBufferedEnd info;
     si_bytes := si_bytes info; si_encryptedBytes := si_encryptedBytes info;
     si_decrypter := v; si_buffered := si_buffered info;
     si_timestampOffset := si_timestampOffset info |}.

Definition set_si_buffered (v : option TimeRanges) (info : SegmentInfo) : SegmentInfo :=
  {| si_uri := si_uri info; si_mediaIndex := si_mediaIndex info;
     si_mediaSequence := si_mediaSequence info;
     si_playlist := si_playlist info;
     si_currentBufferedEnd := si_currentBufferedEnd info;
     si_bytes := si_bytes info; si_encryptedBytes := si_encryptedBytes info;
     si_decrypter := si_decrypter info; si_buffered := v;
     si_timestampOffset := si_timestampOffset info |}.

Definition set_excludeUntil (v : option Stamp) (p : Playlist) : Playlist :=
  {| pl_uri := pl_uri p; attributes := attributes p; excludeUntil := v;
     segments := segments p; mediaSequence := mediaSequence p;
     endList := endList p; discontinuityStarts := discontinuityStarts p |}.

Definition set_master (v : option (list Playlist)) (l : PlaylistLoader)
  : PlaylistLoader :=
  {| master := v; media_ := media_ l; state := state l; expired_ := expired_ l |}.

Definition set_retries (v : option Z) (k : Key) : Key :=
  {| key_uri := key_uri k; key_iv := key_iv k; key_bytes := key_bytes k;
     retries := v |}.

Definition set_key_bytes (v : option (list Z)) (k : Key) : Key :=
  {| key_uri := key_uri k; key_iv := key_iv k; key_bytes := v;
     retries := retries k |}.

(** [s === expected] on the states of the loader. *)
Definition isState (expected s : LoaderState) : bool :=
  match expected, s with
  | HAVE_NOTHING, HAVE_NOTHING
  | HAVE_MASTER, HAVE_MASTER
  | SWITCHING_MEDIA, SWITCHING_MEDIA
  | HAVE_METADATA, HAVE_METADATA
  | HAVE_CURRENT_METADATA, HAVE_CURRENT_METADATA => true
  | _, _ => false
  end.

(** The playlist object a reference stands for. *)
Definition deref (loader : PlaylistLoader) (r : PlaylistRef) : option Playlist :=
  match master loader with
  | Some pls => pls !! r
  | None => None
  end.

(** [segment.key]: the reference and the key object it stands for. *)
Definition keyOf (segment : Segment) (st : HlsHandler) : option (KeyRef * Key) :=
  match seg_key segment with
  | Some k =>
      match keys st !! k with
      | Some key => Some (k, key)
      | None => None
      end
  | None => None
  end.

(** [loader.media()], the getter, as a reference and as the object. *)
Definition mediaRef (loader : PlaylistLoader) : option PlaylistRef :=
  match media_ loader with
  | Some r => if JS.defined (deref loader r) then Some r else None
  | None => None
  end.

Definition media (loader : PlaylistLoader) : option Playlist :=
  match mediaRef loader with
  | Some r => deref loader r
  | None => None
  end.

(** [DataView.prototype.getUint32(offset)], big-endian, on a body that is
    long enough. *)
Definition getUint32 (body : Bytes) (offset : nat) : Z :=
  match body !! offset, body !! (offset + 1)%nat,
        body !! (offset + 2)%nat, body !! (offset + 3)%nat with
  | Some b0, Some b1, Some b2, Some b3 =>
      Z.lor (Z.shiftl b0 24) (Z.lor (Z.shiftl b1 16) (Z.lor (Z.shiftl b2 8) b3))
  | _, _, _, _ => 0
  end.

Definition ofOption (x : option float) : Nullable :=
  match x with
  | Some v => Num v
  | None => Undefined
  end.

Definition notNull (x : Nullable) : bool :=
  match x with
  | Null => false
  | _ => true
  end.

(** [a === b] on two byte ranges that may be [undefined]. *)
Definition sameByterange (a b : option Byterange) : bool :=
  match a, b with
  | None, None => true
  | Some x, Some y => Nat.eqb (br_ref x) (br_ref y)
  | _, _ => false
  end.

(** The predicates of [findBufferedRange_] and [findNextBufferedRange_]. *)
Definition containsTime (start end_ time : float) : bool :=
  PrimFloat.leb (start - TIME_FUDGE_FACTOR) time &&
  JS.geb (end_ + TIME_FUDGE_FACTOR) time.

Definition startsAfter (start end_ time : float) : bool :=
  JS.geb (start - TIME_FUDGE_FACTOR) time.

(** ** The methods of [HlsHandler] *)

Section Methods.

Context `{External}.

Local Open Scope js_scope.

(** [filterBufferedRanges(predicate)], applied to [time] ([None] when the
    argument is left out). *)
Definition filterBufferedRanges (predicate : float -> float -> float -> bool)
    (time : option float) (st : HlsHandler) : TimeRanges :=
  let tech := tech_ st in
  let ranges := buffered tech in
  let time := match time with Some t => t | None => currentTime tech end in
  match mediaSource st with
  | None => createTimeRanges []
  | Some ms =>
      match nativeSourceBuffers ms with
      | Some 0%nat => createTimeRanges []
      | _ =>
          createTimeRanges
            (List.filter (fun r => predicate (fst r) (snd r) time) ranges)
      end
  end.

Definition findBufferedRange_ : option float -> HlsHandler -> TimeRanges :=
  filterBufferedRanges containsTime.

Definition findNextBufferedRange_ : option float -> HlsHandler -> TimeRanges :=
  filterBufferedRanges startsAfter.

Definition cancelKeyXhr (st : HlsHandler) : HlsHandler :=
  match keyXhr_ st with
  | Some request => set_keyXhr_ None (emit (XhrAbort request) st)
  | None => st
  end.

Definition cancelSegmentXhr (st : HlsHandler) : HlsHandler :=
  let st :=
    match segmentXhr_ st with
    | Some request => set_segmentXhr_ None (emit (XhrAbort request) st)
    | None => st
    end in
  set_pendingSegment_ None st.

(** [selectPlaylist]: reads [this.playlists.master.playlists]. *)
Definition selectPlaylist : M HlsHandler (option PlaylistRef) :=
  fun st =>
    match playlists st with
    | None => TypeError st
    | Some loader =>
        match master loader with
        | None => TypeError st
        | Some pls =>
            let width := computedWidth (tech_ st) in
            let height := computedHeight (tech_ st) in
            Normal
              (fst <$> selectVariant pls (bandwidth st) width height (clock st))
              st
        end
    end.

(** [this.playlists.media(playlist)] with an argument that may be
    [undefined], in which case the call is the getter. *)
Definition playlists_media (playlist : option PlaylistRef) : M HlsHandler unit :=
  fun st =>
    match playlists st with
    | None => TypeError st
    | Some loader =>
        match playlist with
        | None => Normal tt st
        | Some r =>
            Normal tt
              (set_playlists (Some (media_setter loader r)) (emit (MediaSwitch r) st))
        end
    end.

(** [this.mediaSource.endOfStream(reason)] *)
Definition endOfStream (reason : option string) : M HlsHandler unit :=
  fun st =>
    match mediaSource st with
    | None => TypeError st
    | Some _ => Normal tt (emit (EndOfStream reason) st)
    end.

(** [currentPlaylist.excludeUntil = v] on the object [r] refers to. *)
Definition exclude (r : PlaylistRef) (v : Stamp) (st : HlsHandler) : HlsHandler :=
  match playlists st with
  | Some loader =>
      match master loader with
      | Some pls =>
          set_playlists
            (Some (set_master (Some (alter (set_excludeUntil (Some v)) r pls)) loader))
            st
      | None => st
      end
  | None => st
  end.

(** [error.playlist || this.playlists.media()] *)
Definition offendingPlaylist (error : HlsError) : M HlsHandler (option PlaylistRef) :=
  fun st =>
    let named :=
      match err_playlist error, playlists st with
      | Some r, Some loader => if JS.defined (deref loader r) then Some r else None
      | _, _ => None
      end in
    match named with
    | Some r => Normal (Some r) st
    | None =>
        match playlists st with
        | None => TypeError st
        | Some loader => Normal (mediaRef loader) st
        end
    end.

Definition blacklistCurrentPlaylist_ (error : HlsError) : M HlsHandler unit :=
  do currentPlaylist <- offendingPlaylist error;
  match currentPlaylist with
  | None =>
      run modify (set_error (Some error));
      endOfStream (Some "network"%string)
  | Some r =>
      run modify (fun st => exclude r (Finite (clock st + blacklistDuration)) st);
      do nextPlaylist <- selectPlaylist;
      match nextPlaylist with
      | Some next =>
          run modify (emit (LogWarn
            "Problem encountered with the current HLS playlist. Switching to another playlist."));
          playlists_media (Some next)
      | None =>
          run modify (emit (LogWarn
            "Problem encountered with the current HLS playlist. No suitable alternatives found."));
          run modify (set_error (Some error));
          endOfStream (Some "network"%string)
      end
  end.

(** [playlistUriToUrl]; [None] when [this.playlists.media()] is undefined
    and the read of its [uri] throws. *)
Definition playlistUriToUrl (segmentRelativeUrl : string) (st : HlsHandler)
  : option string :=
  match playlists st with
  | None => None
  | Some loader =>
      match media loader with
      | None => None
      | Some m =>
          let src := source_src st in
          match pl_uri m with
          | Some u =>
              if String.eqb u src then Some (resolveUrl src segmentRelativeUrl)
              else Some (resolveUrl (resolveUrl src u) segmentRelativeUrl)
          | None =>
              Some (resolveUrl (resolveUrl src ""%string) segmentRelativeUrl)
          end
      end
  end.

(** [byterangeStr_] and [segmentXhrHeaders_]: the first and the last byte
    of the [Range] header, when the segment has a byte range. *)
Definition segmentXhrHeaders_ (segment : Segment) : option (Z * Z) :=
  match seg_byterange segment with
  | Some byterange =>
      let byterangeEnd := br_offset byterange + br_length byterange - 1 in
      let byterangeStart := br_offset byterange in
      Some (byterangeStart, byterangeEnd)
  | None => None
  end.

Definition setBandwidth (localXhr : XhrResponse) (st : HlsHandler) : HlsHandler :=
  let st := set_segmentXhrTime (Some (roundTripTime localXhr)) st in
  let st := set_bandwidth (rq_bandwidth localXhr) st in
  let st :=
    set_bytesReceived
      (bytesReceived st +
       match rq_bytesReceived localXhr with
       | Some n => if JS.truthyZ n then n else 0
       | None => 0
       end) st in
  emit (Trigger "bandwidthupdate") st.

(** [fetchKey_]: the request is made when no key request is pending, the
    segment has a key, its bytes are missing and it has not failed. *)
Definition fetchKey_ (segment : Segment) : M HlsHandler unit :=
  fun st =>
    if JS.defined (keyXhr_ st) then Normal tt st
    else
      match keyOf segment st with
      | None => Normal tt st
      | Some (k, key) =>
          if negb (JS.defined (key_bytes key)) && negb (keyFailed key) then
            match playlistUriToUrl (key_uri key) st with
            | None => TypeError st
            | Some url =>
                let request := fresh st in
                Normal tt
                  (set_keyXhr_ (Some request)
                     (set_fresh (S request)
                        (emit (XhrKey request url k (options_withCredentials st))
                           st)))
            end
          else Normal tt st
      end.

Definition seekable (st : HlsHandler) : TimeRanges :=
  match playlists st with
  | None => createTimeRanges []
  | Some loader =>
      match media loader with
      | None => createTimeRanges []
      | Some m =>
          let seekable := Playlist_seekable m in
          match seekable with
          | [] => seekable
          | (start0, end0) :: _ =>
              if PrimFloat.eqb start0 0 then
                createTimeRanges [(expired_ loader, expired_ loader + end0)%float]
              else seekable
          end
      end
  end.

(** [segmentInfo.playlist] and its [segments]; [None] when the read of
    [segments] or the indexing of it throws. *)
Definition playlistOf (segmentInfo : SegmentInfo) (st : HlsHandler)
  : option (Playlist * list Segment) :=
  match playlists st with
  | None => None
  | Some loader =>
      match deref loader (si_playlist segmentInfo) with
      | None => None
      | Some pl =>
          match segments pl with
          | None => None
          | Some segs => Some (pl, segs)
          end
      end
  end.

(** The segment object [segmentInfo.playlist.segments[segmentInfo.mediaIndex]],
    when there is one. *)
Definition segmentOf (segmentInfo : SegmentInfo) (st : HlsHandler)
  : option (Playlist * Segment) :=
  match playlistOf segmentInfo st with
  | None => None
  | Some (pl, segs) =>
      match JS.index segs (si_mediaIndex segmentInfo) with
      | Some segment => Some (pl, segment)
      | None => None
      end
  end.

(** [loadSegment], up to the request; the callback is [segmentLoaded]. With
    no segment at the index, the read of [segment.key] throws, after the old
    buffer has been cleared. *)
Definition loadSegment (segmentInfo : SegmentInfo) : M HlsHandler unit :=
  fun st =>
    match playlistOf segmentInfo st with
    | None => TypeError st
    | Some (_, segs) =>
        let seekable := seekable st in
        let currentTime := currentTime (tech_ st) in
        let st :=
          match sourceBuffer st with
          | Some sb =>
              if negb (updating sb) then
                let removeToTime :=
                  match seekable with
                  | (start0, _) :: _ =>
                      if JS.gtb start0 0 && PrimFloat.ltb start0 currentTime
                      then start0 else (currentTime - 60)%float
                  | [] => (currentTime - 60)%float
                  end in
                if JS.gtb removeToTime 0
                then emit (SourceBufferRemove 0 removeToTime) st else st
              else st
          | None => st
          end in
        match JS.index segs (si_mediaIndex segmentInfo) with
        | None => TypeError st
        | Some segment =>
            (run (if JS.defined (keyOf segment st) then fetchKey_ segment else ret tt);
             modify (fun st =>
               let request := fresh st in
               set_segmentXhr_ (Some request)
                 (set_fresh (S request)
                    (emit (XhrSegment request (si_uri segmentInfo)
                             (seg_duration segment * 1.5 * 1000)%float
                             (segmentXhrHeaders_ segment)
                             (source_withCredentials st)) st)))) st
        end
    end.

(** The timestamp offset [fillBuffer] gives to the segment info. *)
Definition timestampOffsetFor (st : HlsHandler) (loader : PlaylistLoader)
    (playlist : Playlist) (segment : Segment) (mediaIndex : Z) : Nullable :=
  let tech := tech_ st in
  let hasBufferedContent := negb (Nat.eqb (length (buffered tech)) 0) in
  let currentBuffered := findBufferedRange_ None st in
  let outsideBufferedRanges := Nat.eqb (length currentBuffered) 0 in
  let endSequence := mediaSequence playlist + mediaIndex in
  let segmentTimestampOffset :=
    if mediaIndex >? 0 then
      Some (Playlist_duration playlist (Some endSequence) + expired_ loader)%float
    else None in
  if seeking tech && outsideBufferedRanges then
    if negb (Nat.eqb (length (discontinuityStarts playlist)) 0)
    then ofOption segmentTimestampOffset else Null
  else
    match currentBuffered with
    | (_, end0) :: _ =>
        if seg_discontinuity segment then Num end0
        else if negb hasBufferedContent && JS.gtb (currentTime tech) 0.05
        then ofOption segmentTimestampOffset else Null
    | [] =>
        if negb hasBufferedContent && JS.gtb (currentTime tech) 0.05
        then ofOption segmentTimestampOffset else Null
    end.

(** The tail of [fillBuffer], from [segment = ...segments[mediaIndex]] on.
    [upcoming] is the list of the segments from [mediaIndex] on, so its head
    is [segments[mediaIndex]]; the call [this.fillBuffer(mediaIndex + 1)]
    passes the same guards again (nothing has changed) and arrives here
    with the next index and [currentBufferedEnd] at its initial 0. *)
Fixpoint fillBufferFrom (loader : PlaylistLoader) (playlistRef : PlaylistRef)
    (playlist : Playlist) (upcoming : list Segment) (mediaIndex : Z)
    (currentBufferedEnd : float) : M HlsHandler unit :=
  fun st =>
    match upcoming with
    | [] => Normal tt st
    | segment :: rest =>
        match playlistUriToUrl (seg_uri segment) st with
        | None => TypeError st
        | Some url =>
            let repeated :=
              match lastSegmentLoaded_ st with
              | Some last =>
                  match playlistUriToUrl (seg_uri last) st with
                  | Some lastUrl =>
                      String.eqb lastUrl url &&
                      sameByterange (seg_byterange last) (seg_byterange segment)
                  | None => false
                  end
              | None => false
              end in
            if repeated then
              fillBufferFrom loader playlistRef playlist rest (mediaIndex + 1) 0 st
            else
              let segmentInfo :=
                {| si_uri := url;
                   si_mediaIndex := mediaIndex;
                   si_mediaSequence := mediaSequence playlist;
                   si_playlist := playlistRef;
                   si_currentBufferedEnd := currentBufferedEnd;
                   si_bytes := None;
                   si_encryptedBytes := None;
                   si_decrypter := false;
                   si_buffered := None;
                   si_timestampOffset :=
                     timestampOffsetFor st loader playlist segment mediaIndex |} in
              loadSegment segmentInfo st
        end
    end.

(** The segments from [mediaIndex] on; none when the index is negative. *)
Definition segmentsFrom (segs : list Segment) (mediaIndex : Z) : list Segment :=
  if mediaIndex <? 0 then [] else drop (Z.to_nat mediaIndex) segs.

Definition fillBuffer (mediaIndex : option Z) : M HlsHandler unit :=
  fun st =>
    let tech := tech_ st in
    let currentTime := currentTime tech in
    let currentBuffered := findBufferedRange_ None st in
    match loadingState_ st with
    | LoadSegments =>
        match playlists st with
        | Some loader =>
            if String.eqb (currentSrc tech) "" then Normal tt st
            else if JS.defined (segmentXhr_ st) then Normal tt st
            else if JS.defined (pendingSegment_ st) then Normal tt st
            else
              if isState HAVE_NOTHING (state loader) then Normal tt st
              else
                match mediaRef loader, media loader with
                | Some playlistRef, Some playlist =>
                    match segments playlist with
                    | None => Normal tt st
                    | Some segs =>
                        if isState SWITCHING_MEDIA (state loader) then Normal tt st
                        else
                          match mediaIndex with
                          | Some index =>
                              fillBufferFrom loader playlistRef playlist
                                (segmentsFrom segs index) index 0 st
                          | None =>
                              match currentBuffered with
                              | (_, currentBufferedEnd) :: _ =>
                                  let index :=
                                    getMediaIndexForTime_ loader currentBufferedEnd in
                                  let bufferedTime :=
                                    JS.Math_max 0 (currentBufferedEnd - currentTime) in
                                  if JS.geb bufferedTime Hls.GOAL_BUFFER_LENGTH
                                  then Normal tt st
                                  else
                                    fillBufferFrom loader playlistRef playlist
                                      (segmentsFrom segs index) index
                                      currentBufferedEnd st
                              | [] =>
                                  let index :=
                                    getMediaIndexForTime_ loader currentTime in
                                  fillBufferFrom loader playlistRef playlist
                                    (segmentsFrom segs index) index 0 st
                              end
                          end
                    end
                | _, _ => Normal tt st
                end
        | None => Normal tt st
        end
    | _ => Normal tt st
    end.

Definition drainBuffer : M HlsHandler unit :=
  fun st =>
    match pendingSegment_ st, sourceBuffer st with
    | Some segmentInfo, Some sb =>
        if JS.defined (si_buffered segmentInfo) then Normal tt st
        else if updating sb then Normal tt st
        else
          let mediaIndex := si_mediaIndex segmentInfo in
          let bytes := si_bytes segmentInfo in
          match segmentOf segmentInfo st with
          | None => TypeError st
          | Some (playlist, segment) =>
              let append :=
                let st :=
                  set_pendingSegment_
                    (Some (set_si_buffered (Some (buffered (tech_ st))) segmentInfo))
                    st in
                let st :=
                  if notNull (si_timestampOffset segmentInfo)
                  then emit (SourceBufferTimestampOffset
                               (si_timestampOffset segmentInfo)) st
                  else st in
                Normal tt (emit (SourceBufferAppend bytes) st) in
              match keyOf segment st, bytes with
              | Some (_, key), None =>
                  if keyFailed key then
                    blacklistCurrentPlaylist_
                      {| err_playlist := None; err_status := None;
                         err_message := "HLS segment key request error.";
                         err_code := 4 |} st
                  else
                    match key_bytes key with
                    | None => Normal tt st
                    | Some keyBytes =>
                        if si_decrypter segmentInfo then Normal tt st
                        else
                          let segIv :=
                            match key_iv key with
                            | Some iv => iv
                            | None =>
                                [0; 0; 0;
                                 (mediaIndex + mediaSequence playlist) mod 2 ^ 32]
                            end in
                          Normal tt
                            (set_pendingSegment_
                               (Some (set_si_decrypter true segmentInfo))
                               (emit (NewDecrypter
                                        (si_encryptedBytes segmentInfo)
                                        keyBytes segIv) st))
                    end
              | _, _ => append
              end
          end
    | _, _ => Normal tt st
    end.

Definition checkBuffer_ : M HlsHandler unit :=
  run modify (fun st =>
    match checkBufferTimeout_ st with
    | Some timer => set_checkBufferTimeout_ None (emit (ClearTimeout timer) st)
    | None => st
    end);
  run fillBuffer None;
  run drainBuffer;
  modify (fun st =>
    let timer := fresh st in
    set_checkBufferTimeout_ (Some timer)
      (set_fresh (S timer) (emit (SetTimeout timer bufferCheckInterval) st))).

(** [(retries || 0) + 1] *)
Definition nextRetries (r : option Z) : Z :=
  match r with
  | Some n => if JS.truthyZ n then n + 1 else 0 + 1
  | None => 0 + 1
  end.

(** The response of a key request counts as a key when it carries no error
    and a body of 16 bytes. *)
Definition keyBody (request : XhrResponse) : option Bytes :=
  if rq_error request then None
  else
    match response request with
    | Some body => if Nat.eqb (length body) 16 then Some body else None
    | None => None
    end.

(** The callback [receiveKey(keyRecieved)] of a key request made for
    [segment]. *)
Definition receiveKey (segment : Segment) (keyRecieved : KeyRef)
    (request : XhrResponse) : M HlsHandler unit :=
  run modify (set_keyXhr_ None);
  match keyBody request with
  | None =>
      run modify (fun st =>
        set_keys
          (alter (fun key => set_retries (Some (nextRetries (retries key))) key)
             keyRecieved (keys st)) st);
      if negb (aborted request) then fetchKey_ segment else ret tt
  | Some view =>
      run modify (fun st =>
        set_keys
          (alter
             (set_key_bytes
                (Some [getUint32 view 0; getUint32 view 4;
                       getUint32 view 8; getUint32 view 12]))
             keyRecieved (keys st)) st);
      checkBuffer_
  end.

(** The callback of the segment request made by [loadSegment] for
    [segmentInfo] and its [segment]. *)
Definition segmentLoaded (segmentInfo : SegmentInfo) (segment : Segment)
    (request : XhrResponse) : M HlsHandler unit :=
  fun st =>
    match segmentXhr_ st with
    | None => Normal tt st
    | Some current =>
        if negb (Nat.eqb (rq_ref request) current) then Normal tt st
        else
          let st := set_segmentXhr_ None st in
          if timedout request then
            (run modify (set_bandwidth 1);
             do next <- selectPlaylist;
             playlists_media next) st
          else if negb (aborted request) && rq_error request then
            blacklistCurrentPlaylist_
              {| err_playlist := None;
                 err_status := Some (status request);
                 err_message :=
                   "HLS segment request error at URL: " ++ si_uri segmentInfo;
                 err_code := if status request >=? 500 then 4 else 2 |} st
          else
            match response request with
            | None => Normal tt st
            | Some body =>
                let st := set_lastSegmentLoaded_ (Some segment) st in
                let st := setBandwidth request st in
                let segmentInfo :=
                  if JS.defined (keyOf segment st)
                  then set_si_encryptedBytes (Some body) segmentInfo
                  else set_si_bytes (Some body) segmentInfo in
                let st := set_pendingSegment_ (Some segmentInfo) st in
                let st := emit (Trigger "progress") st in
                (run drainBuffer;
                 do next <- selectPlaylist;
                 playlists_media next) st
            end
    end.

(** [setCurrentTime]; the value returned is 0, the argument or
    [undefined]. *)
Definition setCurrentTime (time : float) : M HlsHandler (option float) :=
  fun st =>
    let found := findBufferedRange_ None st in
    match playlists st with
    | None => Normal (Some 0%float) st
    | Some loader =>
        match media loader with
        | None => Normal (Some 0%float) st
        | Some m =>
            if negb (JS.defined (segments m)) then Normal (Some 0%float) st
            else if negb (Nat.eqb (length found) 0) then Normal (Some time) st
            else if match pendingSegment_ st with
                    | Some pending => JS.defined (si_buffered pending)
                    | None => false
                    end
            then Normal (Some time) st
            else
              let st := set_lastSegmentLoaded_ None st in
              let st := cancelSegmentXhr st in
              let st :=
                match keyXhr_ st with
                | Some request => cancelKeyXhr (emit (XhrSetAborted request) st)
                | None => st
                end in
              (run fillBuffer (Some (getMediaIndexForTime_ loader time));
               ret None) st
        end
    end.

End Methods.

(** ** Sample data *)

Module Sample.

Definition segment (uri : string) (duration : float) : Segment :=
  {| seg_uri := uri; seg_duration := duration; seg_end := None;
     seg_byterange := None; seg_key := None; seg_discontinuity := false |}.

(** A finished media playlist with three segments of ten seconds. *)
Definition media : Playlist :=
  {| pl_uri := Some "media.m3u8"%string; attributes := None;
     excludeUntil := None;
     segments := Some [segment "0.ts" 10; segment "1.ts" 10; segment "2.ts" 10];
     mediaSequence := 0; endList := true; discontinuityStarts := [] |}.

(** A variant of the master playlist that declares a bit rate. *)
Definition rendition (uri : string) (bitrate : Z) (until : option Stamp) : Playlist :=
  {| pl_uri := Some uri;
     attributes :=
       Some {| BANDWIDTH := Some bitrate; RESOLUTION := None; CODECS := None |};
     excludeUntil := until;
     segments := Some [segment "0.ts" 10; segment "1.ts" 10; segment "2.ts" 10];
     mediaSequence := 0; endList := true; discontinuityStarts := [] |}.

(** Stand-ins for the code outside of the file: ten-second segments that
    start at 0, and a loader that switches at once. *)
Definition ext : External :=
  {| resolveUrl := fun base relative => relative;
     getMediaIndexForTime_ := fun _ time =>
       if PrimFloat.ltb time 10 then 0
       else if PrimFloat.ltb time 20 then 1
       else if PrimFloat.ltb time 30 then 2 else 3;
     Playlist_duration := fun _ _ => 0%float;
     Playlist_seekable := fun _ => [];
     media_setter := fun loader r =>
       {| master := master loader; media_ := Some r;
          state := HAVE_METADATA; expired_ := expired_ loader |} |}.

Definition tech (time : float) (ranges : TimeRanges) : Tech :=
  {| currentTime := time; buffered := ranges; seeking := false;
     currentSrc := "blob:hls"; computedWidth := Some 640;
     computedHeight := Some 360 |}.

Definition loader (variants : list Playlist) (active : option PlaylistRef)
  : PlaylistLoader :=
  {| master := Some variants; media_ := active; state := HAVE_METADATA;
     expired_ := 0%float |}.

(** A handler that may load segments, at [time] with [ranges] buffered,
    with nothing in flight. *)
Definition handler (time : float) (ranges : TimeRanges)
    (variants : list Playlist) (active : option PlaylistRef) (now : Z)
  : HlsHandler :=
  {| tech_ := tech time ranges; source_src := "master.m3u8";
     source_withCredentials := false; options_withCredentials := false;
     mediaSource := Some {| readyState := "open"; nativeSourceBuffers := Some 1%nat |};
     sourceBuffer := Some {| updating := false |};
     playlists := Some (loader variants active);
     loadingState_ := LoadSegments; bandwidth := 4194304; bytesReceived := 0;
     segmentXhrTime := None; pendingSegment_ := None; segmentXhr_ := None;
     keyXhr_ := None; lastSegmentLoaded_ := None; error := None;
     checkBufferTimeout_ := None; keys := []; clock := now; fresh := 0%nat;
     trace := [] |}.




(** Two renditions, the second one active. *)
Definition twoRenditions : HlsHandler :=
  handler 0 []
    [rendition "low.m3u8" 500000 None; rendition "high.m3u8" 2000000 None]
    (Some 1%nat) 1000.


(** An encrypted segment; its key is the first object of the key store. *)
Definition encrypted : Segment :=
  {| seg_uri := "0.ts"; seg_duration := 10; seg_end := None;
     seg_byterange := None; seg_key := Some 0%nat; seg_discontinuity := false |}.

Definition key : Key :=
  {| key_uri := "key.bin"; key_iv := None; key_bytes := None; retries := None |}.

Definition withKey : HlsHandler :=
  set_keys [key] (handler 0 [] [media] (Some 0%nat) 0).

Definition failure (request : XhrRef) : XhrResponse :=
  {| rq_ref := request; rq_error := true; timedout := false; aborted := false;
     status := 500; response := None; rq_bandwidth := 0; roundTripTime := 0;
     rq_bytesReceived := None |}.

End Sample.

(** ** Notions used by the statements *)

(** The stamp lies strictly after [now]. *)
Definition inFuture (now : Z) (until : option Stamp) : Prop :=
  match until with
  | Some (Finite t) => now < t
  | Some Infinity => True
  | None => False
  end.

(** The number of segment requests, and of requests for the key [k], among
    the calls of a trace. *)
Definition isSegmentRequest (e : Effect) : bool :=
  match e with
  | XhrSegment _ _ _ _ _ => true
  | _ => false
  end.

Definition isKeyRequest (k : KeyRef) (e : Effect) : bool :=
  match e with
  | XhrKey _ _ k' _ => Nat.eqb k k'
  | _ => false
  end.

Definition segmentRequests (st : HlsHandler) : nat :=
  length (List.filter isSegmentRequest (trace st)).

Definition keyRequests (k : KeyRef) (st : HlsHandler) : nat :=
  length (List.filter (isKeyRequest k) (trace st)).

(** What a run of [fillBuffer] or of its parts may do to the state: nothing,
    or make one segment request, or stop with a [TypeError] before any
    segment request. *)
Definition fillOutcome (st : HlsHandler) (out : Outcome HlsHandler unit) : Prop :=
  out = Normal tt st \/
  (exists st', out = Normal tt st' /\ JS.defined (segmentXhr_ st') = true /\
               segmentRequests st' = S (segmentRequests st)) \/
  (exists st', out = TypeError st' /\ segmentRequests st' = segmentRequests st /\
               segmentXhr_ st' = segmentXhr_ st /\
               pendingSegment_ st' = pendingSegment_ st).




(** What happens around the key of one segment: [fetchKey_] is called for
    the segment, or the outstanding key request comes back. *)
Inductive KeyEvent : Type :=
| FetchKey
| KeyResponse (request : XhrResponse).

Section KeyRuns.

Context `{External}.

(** The state after a sequence of events for the key [k] of [segment]; a
    response is delivered only while a key request is outstanding. *)
Fixpoint keyRun (segment : Segment) (k : KeyRef) (events : list KeyEvent)
    (st : HlsHandler) : HlsHandler :=
  match events with
  | [] => st
  | FetchKey :: rest => keyRun segment k rest (state_of (fetchKey_ segment st))
  | KeyResponse request :: rest =>
      if JS.defined (keyXhr_ st)
      then keyRun segment k rest (state_of (receiveKey segment k request st))
      else keyRun segment k rest st
  end.



End KeyRuns.






(** The sort key of [comparePlaylistBandwidth]. *)
Definition bandwidthKey (v : Variant) : Z := orMaxValue (declaredBandwidth (snd v)).

(** ** [detectEndOfStream] *)

(** The value returned, as the [if] of the caller reads it; [None] when a
    property is read on [undefined]: [segments.length] without a list of
    segments, [segments[segments.length - 1].end] on an empty list, and
    [mediaSource.readyState] without a media source. *)
Definition detectEndOfStream (playlist : option Playlist)
    (mediaSource : option MediaSource) (segmentIndex : Z)
    (currentBuffered : TimeRanges) : option bool :=
  match playlist with
  | None => Some false
  | Some pl =>
      match segments pl with
      | None => None
      | Some segs =>
          let appendedLastSegment := segmentIndex =? Z.of_nat (length segs) - 1 in
          let bufferedToEnd :=
            match currentBuffered with
            | [] => Some false
            | (_, end0) :: _ =>
                match JS.index segs (Z.of_nat (length segs) - 1) with
                | None => None
                | Some last =>
                    match seg_end last with
                    | Some e => Some (PrimFloat.leb e end0)
                    | None => Some false
                    end
                end
            end in
          match bufferedToEnd with
          | None => None
          | Some bufferedToEnd =>
              if endList pl then
                match mediaSource with
                | None => None
                | Some ms =>
                    Some (String.eqb (readyState ms) "open" &&
                          (appendedLastSegment || bufferedToEnd))
                end
              else Some false
          end
      end
  end.

(** ** The periodic check of the buffer *)

Definition stopCheckingBuffer_ (st : HlsHandler) : HlsHandler :=
  match checkBufferTimeout_ st with
  | Some timer => set_checkBufferTimeout_ None (emit (ClearTimeout timer) st)
  | None => st
  end.

(** The timers that have been set and not cleared since, the latest first;
    the trace has the latest call first. *)
Fixpoint outstandingTimers (calls : list Effect) : list nat :=
  match calls with
  | [] => []
  | SetTimeout timer _ :: earlier => timer :: outstandingTimers earlier
  | ClearTimeout timer :: earlier =>
      List.filter (fun t => negb (Nat.eqb t timer)) (outstandingTimers earlier)
  | _ :: earlier => outstandingTimers earlier
  end.

(** The timer the handler remembers is the only one outstanding. *)
Definition oneTimer (st : HlsHandler) : Prop :=
  outstandingTimers (trace st) =
    match checkBufferTimeout_ st with
    | Some timer => [timer]
    | None => []
    end.

(** The number of calls of [sourceBuffer.appendBuffer] in a trace. *)
Definition isAppend (e : Effect) : bool :=
  match e with
  | SourceBufferAppend _ => true
  | _ => false
  end.

Definition appends (st : HlsHandler) : nat :=
  length (List.filter isAppend (trace st)).

(** The key [k] has been downloaded. *)
Definition keyLoadedIn (k : KeyRef) (st : HlsHandler) : Prop :=
  exists key, keys st !! k = Some key /\ JS.defined (key_bytes key) = true.

Section Walk.

Context `{External}.

Definition startCheckingBuffer_ : M HlsHandler unit := checkBuffer_.

(** The test [fillBuffer] makes on a segment before it asks for it: it has
    the URL and the byte range of the last segment loaded. *)
Definition sameAsLastLoaded (st : HlsHandler) (segment : Segment) : bool :=
  match lastSegmentLoaded_ st, playlistUriToUrl (seg_uri segment) st with
  | Some last, Some url =>
      match playlistUriToUrl (seg_uri last) st with
      | Some lastUrl =>
          String.eqb lastUrl url &&
          sameByterange (seg_byterange last) (seg_byterange segment)
      | None => false
      end
  | _, _ => false
  end.

End Walk.

(** ** Notions about the selection *)

(** The sort key [comparePlaylistResolution] looks at first. *)
Definition widthKey (v : Variant) : Z := orMaxValue (declaredWidth (snd v)).

(** The playlist declares exactly this width and this height. *)
Definition sizeIs (width height : Z) (p : Playlist) : bool :=
  match declaredResolution p with
  | Some r => (res_width r =? width) && (res_height r =? height)
  | None => false
  end.

(** More sample data: renditions that declare a size. *)
Module Fixture.

Definition sized (uri : string) (bitrate width height : Z) : Playlist :=
  {| pl_uri := Some uri;
     attributes :=
       Some {| BANDWIDTH := Some bitrate;
               RESOLUTION := Some {| res_width := width; res_height := height |};
               CODECS := None |};
     excludeUntil := None;
     segments := Some [Sample.segment "0.ts" 10];
     mediaSequence := 0; endList := true; discontinuityStarts := [] |}.

(** A player of 640 by 360 with three renditions, the middle one of its
    size. *)
Definition threeSizes : HlsHandler :=
  Sample.handler 0 []
    [sized "small.m3u8" 300000 320 180; sized "fit.m3u8" 800000 640 360;
     sized "large.m3u8" 2000000 1280 720]
    None 0.

End Fixture.

(** ** What a method leaves alone *)

(** The trace [after] is the trace [before] with calls added, all of them of
    the kinds [allowed]. *)
Inductive grows (allowed : Effect -> bool) (before : list Effect)
  : list Effect -> Prop :=
| grows_none : grows allowed before before
| grows_call e after :
    allowed e = true -> grows allowed before after ->
    grows allowed before (e :: after).

Definition addsOnly (allowed : Effect -> bool) (st st' : HlsHandler) : Prop :=
  grows allowed (trace st) (trace st').

(** The calls of the failover: a warning, a switch of the loader, the end of
    the stream. *)
Definition isNotice (e : Effect) : bool :=
  match e with
  | LogWarn _ | MediaSwitch _ | EndOfStream _ => true
  | _ => false
  end.

(** The calls of [drainBuffer]: those of the failover, and what it sends to
    the source buffer and to the decrypter. *)
Definition isDrainCall (e : Effect) : bool :=
  match e with
  | SourceBufferTimestampOffset _ | SourceBufferAppend _ | NewDecrypter _ _ _ => true
  | _ => isNotice e
  end.

(** The calls of [fillBuffer]: the trimming of the buffer and the requests. *)
Definition isFillCall (e : Effect) : bool :=
  match e with
  | SourceBufferRemove _ _ | XhrKey _ _ _ _ | XhrSegment _ _ _ _ _ => true
  | _ => false
  end.

(** What [selectPlaylist], the switch of the loader, [endOfStream] and
    [blacklistCurrentPlaylist_] leave alone: all but the loader, the error
    and the notices in the trace. *)
Record failoverOnly (st st' : HlsHandler) : Prop := {
  fo_tech : tech_ st' = tech_ st;
  fo_source_src : source_src st' = source_src st;
  fo_source_withCredentials :
    source_withCredentials st' = source_withCredentials st;
  fo_options_withCredentials :
    options_withCredentials st' = options_withCredentials st;
  fo_mediaSource : mediaSource st' = mediaSource st;
  fo_sourceBuffer : sourceBuffer st' = sourceBuffer st;
  fo_loadingState : loadingState_ st' = loadingState_ st;
  fo_bandwidth : bandwidth st' = bandwidth st;
  fo_bytesReceived : bytesReceived st' = bytesReceived st;
  fo_pendingSegment : pendingSegment_ st' = pendingSegment_ st;
  fo_segmentXhr : segmentXhr_ st' = segmentXhr_ st;
  fo_keyXhr : keyXhr_ st' = keyXhr_ st;
  fo_lastSegmentLoaded : lastSegmentLoaded_ st' = lastSegmentLoaded_ st;
  fo_checkBufferTimeout : checkBufferTimeout_ st' = checkBufferTimeout_ st;
  fo_keys : keys st' = keys st;
  fo_clock : clock st' = clock st;
  fo_fresh : fresh st' = fresh st;
  fo_trace : addsOnly isNotice st st'
}.

(** What [drainBuffer] leaves alone: the pending segment stays pending. *)
Record drainOnly (st st' : HlsHandler) : Prop := {
  dr_tech : tech_ st' = tech_ st;
  dr_source_src : source_src st' = source_src st;
  dr_source_withCredentials :
    source_withCredentials st' = source_withCredentials st;
  dr_options_withCredentials :
    options_withCredentials st' = options_withCredentials st;
  dr_mediaSource : mediaSource st' = mediaSource st;
  dr_sourceBuffer : sourceBuffer st' = sourceBuffer st;
  dr_loadingState : loadingState_ st' = loadingState_ st;
  dr_bandwidth : bandwidth st' = bandwidth st;
  dr_bytesReceived : bytesReceived st' = bytesReceived st;
  dr_pendingSegment :
    JS.defined (pendingSegment_ st') = JS.defined (pendingSegment_ st);
  dr_segmentXhr : segmentXhr_ st' = segmentXhr_ st;
  dr_keyXhr : keyXhr_ st' = keyXhr_ st;
  dr_lastSegmentLoaded : lastSegmentLoaded_ st' = lastSegmentLoaded_ st;
  dr_checkBufferTimeout : checkBufferTimeout_ st' = checkBufferTimeout_ st;
  dr_keys : keys st' = keys st;
  dr_clock : clock st' = clock st;
  dr_fresh : fresh st' = fresh st;
  dr_trace : addsOnly isDrainCall st st'
}.

(** What [fillBuffer] leaves alone. *)
Record fillOnly (st st' : HlsHandler) : Prop := {
  fi_tech : tech_ st' = tech_ st;
  fi_source_src : source_src st' = source_src st;
  fi_source_withCredentials :
    source_withCredentials st' = source_withCredentials st;
  fi_options_withCredentials :
    options_withCredentials st' = options_withCredentials st;
  fi_mediaSource : mediaSource st' = mediaSource st;
  fi_sourceBuffer : sourceBuffer st' = sourceBuffer st;
  fi_playlists : playlists st' = playlists st;
  fi_loadingState : loadingState_ st' = loadingState_ st;
  fi_bandwidth : bandwidth st' = bandwidth st;
  fi_bytesReceived : bytesReceived st' = bytesReceived st;
  fi_pendingSegment : pendingSegment_ st' = pendingSegment_ st;
  fi_lastSegmentLoaded : lastSegmentLoaded_ st' = lastSegmentLoaded_ st;
  fi_error : error st' = error st;
  fi_checkBufferTimeout : checkBufferTimeout_ st' = checkBufferTimeout_ st;
  fi_keys : keys st' = keys st;
  fi_clock : clock st' = clock st;
  fi_trace : addsOnly isFillCall st st'
}.

(** A computation that stands in the relation [R] to every state it starts
    from, whether it completes normally or throws. *)
Definition keeping (R : HlsHandler -> HlsHandler -> Prop) {A : Type}
    (m : M HlsHandler A) : Prop :=
  forall st, R st (state_of (m st)).

(** The timer remembered and the timers outstanding are the same in both
    states. *)
Definition sameTimers (st st' : HlsHandler) : Prop :=
  checkBufferTimeout_ st' = checkBufferTimeout_ st /\
  outstandingTimers (trace st') = outstandingTimers (trace st).

(** From [st] to [st'] the key store is the same and, if the key [k] had
    been downloaded, no request has been made for it. *)
Definition keyCalm (k : KeyRef) (st st' : HlsHandler) : Prop :=
  keys st' = keys st /\
  (keyLoadedIn k st -> keyRequests k st' = keyRequests k st).

(** The two at once: nothing has happened to the timers, to the key objects
    or, if the key [k] had been downloaded, to the requests for it. *)
Definition settled (k : KeyRef) (st st' : HlsHandler) : Prop :=
  sameTimers st st' /\ keyCalm k st st'.
Section Start.

Context `{External}.

(** The index [fillBuffer] starts from: the one it is given, else the index
    of the end of the buffered range around the play head, else the index of
    the play head. *)
Definition startIndex (mediaIndex : option Z) (loader : PlaylistLoader)
    (st : HlsHandler) : Z :=
  match mediaIndex with
  | Some index => index
  | None =>
      match findBufferedRange_ None st with
      | (_, currentBufferedEnd) :: _ =>
          getMediaIndexForTime_ loader currentBufferedEnd
      | [] => getMediaIndexForTime_ loader (currentTime (tech_ st))
      end
  end.

(** The seconds buffered ahead of the play head, as [fillBuffer] computes
    them when it is given no index. *)
Definition bufferedTime (st : HlsHandler) : float :=
  match findBufferedRange_ None st with
  | (_, currentBufferedEnd) :: _ =>
      JS.Math_max 0 (currentBufferedEnd - currentTime (tech_ st))
  | [] => 0%float
  end.

End Start.

(** ** Patterns on strings *)

(** A string is the sequence of its code units, here below 256. The [i] flag
    compares the upper-case forms of two code units; a code unit from 128 on
    never has the upper-case form of an ASCII letter, so it is left as it
    is. *)
Definition canonicalize (c : Ascii.ascii) : Ascii.ascii :=
  let n := Ascii.nat_of_ascii c in
  if (97 <=? n)%nat && (n <=? 122)%nat then Ascii.ascii_of_nat (n - 32) else c.

Fixpoint canonical (s : string) : string :=
  match s with
  | EmptyString => EmptyString
  | String c s' => String (canonicalize c) (canonical s')
  end.

(** A literal pattern under the [i] flag at the start of [s]: the text
    matched and the rest of [s]. *)
Fixpoint matchLiteral (pattern s : string) : option (string * string) :=
  match pattern, s with
  | EmptyString, _ => Some (EmptyString, s)
  | String p pattern', String c s' =>
      if Ascii.eqb (canonicalize p) (canonicalize c) then
        match matchLiteral pattern' s' with
        | Some (matched, rest) => Some (String c matched, rest)
        | None => None
        end
      else None
  | String _ _, EmptyString => None
  end.

(** [\s]: tab, line feed, vertical tab, form feed, carriage return, space
    and no-break space. *)
Definition isWhiteSpace (c : Ascii.ascii) : bool :=
  let n := Ascii.nat_of_ascii c in
  (9 <=? n)%nat && (n <=? 13)%nat || Nat.eqb n 32 || Nat.eqb n 160.

(** One iteration of [(^|\s|,)+] that reads a code unit. *)
Definition isSeparator (c : Ascii.ascii) : bool :=
  isWhiteSpace c || Ascii.eqb c ","%char.

(** [\d] *)
Definition isDigit (c : Ascii.ascii) : bool :=
  let n := Ascii.nat_of_ascii c in (48 <=? n)%nat && (n <=? 57)%nat.

(** The code units [.] does not match. *)
Definition isLineTerminator (c : Ascii.ascii) : bool :=
  let n := Ascii.nat_of_ascii c in Nat.eqb n 10 || Nat.eqb n 13.

(** [\d*], greedy, at the start of [s]: the digits and the rest of [s]. *)
Fixpoint digits (s : string) : string * string :=
  match s with
  | EmptyString => (EmptyString, EmptyString)
  | String c s' =>
      if isDigit c then let (d, rest) := digits s' in (String c d, rest)
      else (EmptyString, s)
  end.

(** [exec] of a pattern [(^|\s|,)+ tail] where [tail] matches in at most one
    way from a position: the match found is the one at the first position,
    from the left, that is the start of the string or follows a separator
    and from which [tail] matches; the result is the text of the group of
    [tail]. [atBoundary] tells whether the start of [s] is such a
    position. *)
Fixpoint execAfterSeparator (tail : string -> option string) (atBoundary : bool)
    (s : string) : option string :=
  match (if atBoundary then tail s else None) with
  | Some group => Some group
  | None =>
      match s with
      | EmptyString => None
      | String c s' => execAfterSeparator tail (isSeparator c) s'
      end
  end.

(** ** [parseCodecs] and [excludeIncompatibleVariants_] *)

Record Codecs : Type := {
  codecCount : nat;
  videoCodec : option string;
  audioProfile : option string
}.

(** [(avc1)[^ ,]*] from a position: the text of [(avc1)]. *)
Definition videoCodecAt (s : string) : option string :=
  fst <$> matchLiteral "avc1" s.

(** [mp4a.\d+\.(\d+)] from a position: the text of [(\d+)]. *)
Definition audioProfileAt (s : string) : option string :=
  match matchLiteral "mp4a" s with
  | Some (_, String c rest) =>
      if isLineTerminator c then None
      else
        match digits rest with
        | (EmptyString, _) => None
        | (_, String "."%char rest') =>
            match digits rest' with
            | (EmptyString, _) => None
            | (profile, _) => Some profile
            end
        | (_, _) => None
        end
  | _ => None
  end.

(** [codecs.split(',').length] *)
Fixpoint splitLength (codecs : string) : nat :=
  match codecs with
  | EmptyString => 1
  | String c rest =>
      if Ascii.eqb c ","%char then S (splitLength rest) else splitLength rest
  end.

Definition parseCodecs (codecs : string) : Codecs :=
  let codecCount := splitLength codecs in
  {| codecCount := if Nat.eqb codecCount 0 then 2%nat else codecCount;
     videoCodec := execAfterSeparator videoCodecAt true codecs;
     audioProfile := execAfterSeparator audioProfileAt true codecs |}.

(** The codecs [excludeIncompatibleVariants_] works with for a playlist: the
    default, replaced by the parsed ones when [attributes.CODECS] is there
    and not empty. *)
Definition codecsOf (p : Playlist) : Codecs :=
  let default := {| codecCount := 2; videoCodec := None; audioProfile := None |} in
  match attributes p with
  | Some a =>
      match CODECS a with
      | Some codecs => if String.eqb codecs "" then default else parseCodecs codecs
      | None => default
      end
  | None => default
  end.

(** [a === b] on two values that are [null] or a string. *)
Definition sameText (a b : option string) : bool :=
  match a, b with
  | None, None => true
  | Some x, Some y => String.eqb x y
  | _, _ => false
  end.

(** [x === '5'] *)
Definition isFive (x : option string) : bool := sameText x (Some "5"%string).

(** The three tests made on a variant, against the codecs of the media
    playlist. *)
Definition incompatible (current variantCodecs : Codecs) : bool :=
  negb (Nat.eqb (codecCount variantCodecs) (codecCount current)) ||
  negb (sameText (videoCodec variantCodecs) (videoCodec current)) ||
  (isFive (audioProfile variantCodecs) && negb (isFive (audioProfile current)) ||
   isFive (audioProfile current) && negb (isFive (audioProfile variantCodecs))).

Definition excludeIncompatibleVariants_ (media : Playlist) : M HlsHandler unit :=
  fun st =>
    match playlists st with
    | None => TypeError st
    | Some loader =>
        match master loader with
        | None => TypeError st
        | Some pls =>
            let current := codecsOf media in
            let visit variant :=
              if incompatible current (codecsOf variant)
              then set_excludeUntil (Some Infinity) variant
              else variant in
            Normal tt
              (set_playlists (Some (set_master (Some (map visit pls)) loader)) st)
        end
    end.

(** ** [HlsSourceHandler.canPlayType] *)

Module HlsSourceHandler.

(** [/^application\/(?:x-|vnd\.apple\.)mpegurl/i.test(type)] *)
Definition mpegurlRE (type : string) : bool :=
  JS.defined (matchLiteral "application/x-mpegurl" type) ||
  JS.defined (matchLiteral "application/vnd.apple.mpegurl" type).

(** [supportsNativeHls] is [Hls.supportsNativeHls], read off the browser
    when the file is loaded. *)
Definition canPlayType (supportsNativeHls : bool) (type : string) : bool :=
  if supportsNativeHls then false else mpegurlRE type.

End HlsSourceHandler.

(** ** What a pattern found *)

(** Every code unit of [s] is a digit. *)
Fixpoint allDigits (s : string) : bool :=
  match s with
  | EmptyString => true
  | String c s' => isDigit c && allDigits s'
  end.

(** No code unit of [s] is a separator. *)
Fixpoint noSeparator (s : string) : bool :=
  match s with
  | EmptyString => true
  | String c s' => negb (isSeparator c) && noSeparator s'
  end.

(** [before] is empty or ends with a separator: what follows it starts at
    the beginning of the string or after a separator. *)
Definition boundary (before : string) : Prop :=
  before = EmptyString \/
  exists text c, before = String.append text (String c EmptyString) /\
                 isSeparator c = true.

(** ** Sample data for the callbacks and the codecs *)

Module Cases.

(** Two renditions above the bandwidth estimate of [Sample.handler]. *)
Definition slowLink : HlsHandler :=
  Sample.handler 0 []
    [Sample.rendition "high.m3u8" 8000000 None;
     Sample.rendition "mid.m3u8" 5000000 None]
    None 0.

(** The segment info of the first segment of the first playlist. *)
Definition info : SegmentInfo :=
  {| si_uri := "0.ts"; si_mediaIndex := 0; si_mediaSequence := 0;
     si_playlist := 0%nat; si_currentBufferedEnd := 0; si_bytes := None;
     si_encryptedBytes := None; si_decrypter := false; si_buffered := None;
     si_timestampOffset := Null |}.

(** Two renditions with the segment request 7 outstanding. *)
Definition loading : HlsHandler :=
  set_segmentXhr_ (Some 7%nat) (set_fresh 8 Sample.twoRenditions).

Definition timeout (request : XhrRef) : XhrResponse :=
  {| rq_ref := request; rq_error := true; timedout := true; aborted := false;
     status := 0; response := None; rq_bandwidth := 0; roundTripTime := 0;
     rq_bytesReceived := None |}.

Definition success (request : XhrRef) (body : Bytes) : XhrResponse :=
  {| rq_ref := request; rq_error := false; timedout := false; aborted := false;
     status := 200; response := Some body; rq_bandwidth := 3000000;
     roundTripTime := 40; rq_bytesReceived := Some 4 |}.

(** A key that has been downloaded, in the key store of a handler. *)
Definition loadedKey : Key :=
  {| key_uri := "key.bin"; key_iv := None; key_bytes := Some [1; 2; 3; 4];
     retries := None |}.

Definition keyLoaded : HlsHandler :=
  set_keys [loadedKey] (Sample.handler 0 [] [Sample.media] (Some 0%nat) 0).

(** A variant that declares its codecs. *)
Definition coded (uri : string) (bitrate : Z) (codecs : string) : Playlist :=
  {| pl_uri := Some uri;
     attributes :=
       Some {| BANDWIDTH := Some bitrate; RESOLUTION := None;
               CODECS := Some codecs |};
     excludeUntil := None;
     segments := Some [Sample.segment "0.ts" 10];
     mediaSequence := 0; endList := true; discontinuityStarts := [] |}.

(** AAC-LC with video, HE-AAC with video, and audio alone. *)
Definition mixed : HlsHandler :=
  Sample.handler 0 []
    [coded "main.m3u8" 500000 "avc1.4d400d,mp4a.40.2";
     coded "he.m3u8" 300000 "avc1.4d400d,mp4a.40.5";
     coded "audio.m3u8" 64000 "mp4a.40.2"]
    (Some 0%nat) 0.

End Cases.

(** ** The handler with its media source and its tech *)

(** What [play], [setupFirstPlay], [handleSourceOpen] and the listeners ask
    the tech beyond what [Tech] holds: [played().length], [paused()],
    [ended()], [readyState()], [autoplay()] and [preload()]. *)
Record TechState : Type := {
  played_length : nat;
  paused : bool;
  ended : bool;
  tech_readyState : Z;
  autoplay : bool;
  preload : string
}.

(** The calls to the collaborators that [Effect] does not list. *)
Inductive Call : Type :=
| TechSetCurrentTime (time : float)
| TechTrigger (event : string)
| VideojsLog (tried retry : float)
| AddSourceBuffer (mimeType : string)
| OnUpdateEnd
| OnSourceOpen (newDuration : float)
| LoaderTrigger (event : string)
| LoaderDispose
| SourceBufferAbort
| ComponentDispose
| AddSeekableRange (start end_ : float)
| TechSrc.

(** The handler, the rest of the state of its tech, [mediaSource.duration]
    (read only when there is a media source), and the calls of [Call] made
    so far, the latest first. The order between a call of [Call] and a call
    of [Effect] is not recorded. *)
Record Playback : Type := {
  hls : HlsHandler;
  techState : TechState;
  mediaSource_duration : float;
  calls : list Call
}.

Definition set_hls (v : HlsHandler) (p : Playback) : Playback :=
  {| hls := v; techState := techState p;
     mediaSource_duration := mediaSource_duration p; calls := calls p |}.

Definition set_techState (v : TechState) (p : Playback) : Playback :=
  {| hls := hls p; techState := v;
     mediaSource_duration := mediaSource_duration p; calls := calls p |}.

Definition set_mediaSource_duration (v : float) (p : Playback) : Playback :=
  {| hls := hls p; techState := techState p; mediaSource_duration := v;
     calls := calls p |}.

Definition call (c : Call) (p : Playback) : Playback :=
  {| hls := hls p; techState := techState p;
     mediaSource_duration := mediaSource_duration p; calls := c :: calls p |}.

Definition set_tech_ (v : Tech) (st : HlsHandler) : HlsHandler :=
  {| tech_ := v; source_src := source_src st;
     source_withCredentials := source_withCredentials st;
     options_withCredentials := options_withCredentials st;
     mediaSource := mediaSource st; sourceBuffer := sourceBuffer st;
     playlists := playlists st; loadingState_ := loadingState_ st;
     bandwidth := bandwidth st; bytesReceived := bytesReceived st;
     segmentXhrTime := segmentXhrTime st; pendingSegment_ := pendingSegment_ st;
     segmentXhr_ := segmentXhr_ st; keyXhr_ := keyXhr_ st;
     lastSegmentLoaded_ := lastSegmentLoaded_ st; error := error st;
     checkBufferTimeout_ := checkBufferTimeout_ st; keys := keys st;
     clock := clock st; fresh := fresh st; trace := trace st |}.

Definition set_sourceBuffer (v : option SourceBuffer) (st : HlsHandler) : HlsHandler :=
  {| tech_ := tech_ st; source_src := source_src st;
     source_withCredentials := source_withCredentials st;
     options_withCredentials := options_withCredentials st;
     mediaSource := mediaSource st; sourceBuffer := v;
     playlists := playlists st; loadingState_ := loadingState_ st;
     bandwidth := bandwidth st; bytesReceived := bytesReceived st;
     segmentXhrTime := segmentXhrTime st; pendingSegment_ := pendingSegment_ st;
     segmentXhr_ := segmentXhr_ st; keyXhr_ := keyXhr_ st;
     lastSegmentLoaded_ := lastSegmentLoaded_ st; error := error st;
     checkBufferTimeout_ := checkBufferTimeout_ st; keys := keys st;
     clock := clock st; fresh := fresh st; trace := trace st |}.

Definition set_loadingState_ (v : LoadingState) (st : HlsHandler) : HlsHandler :=
  {| tech_ := tech_ st; source_src := source_src st;
     source_withCredentials := source_withCredentials st;
     options_withCredentials := options_withCredentials st;
     mediaSource := mediaSource st; sourceBuffer := sourceBuffer st;
     playlists := playlists st; loadingState_ := v;
     bandwidth := bandwidth st; bytesReceived := bytesReceived st;
     segmentXhrTime := segmentXhrTime st; pendingSegment_ := pendingSegment_ st;
     segmentXhr_ := segmentXhr_ st; keyXhr_ := keyXhr_ st;
     lastSegmentLoaded_ := lastSegmentLoaded_ st; error := error st;
     checkBufferTimeout_ := checkBufferTimeout_ st; keys := keys st;
     clock := clock st; fresh := fresh st; trace := trace st |}.

(** The code outside of the file that the methods below call. *)
Class Outside : Type := {
  (** what [tech.setCurrentTime(time)] does to the tech *)
  tech_setCurrentTime : Tech -> TechState -> float -> Tech * TechState;
  (** [mediaSource.addSourceBuffer(mimeType)]; [None] when it throws *)
  addSourceBuffer : MediaSource -> string -> option SourceBuffer;
  (** what [playlists.trigger(event)] does to the loader *)
  playlists_trigger : PlaylistLoader -> string -> PlaylistLoader;
  (** what [playlists.dispose()] does to the loader *)
  playlists_dispose : PlaylistLoader -> PlaylistLoader;
  (** [Hls.Playlist.duration(undefined)] *)
  Playlist_duration_undefined : float
}.

Section PlaybackMethods.

Context `{External} `{Outside}.

Local Open Scope js_scope.

(** A method of the handler that leaves the rest alone. *)
Definition lift {A : Type} (m : M HlsHandler A) : M Playback A :=
  fun p =>
    match m (hls p) with
    | Normal a st => Normal a (set_hls st p)
    | TypeError st => TypeError (set_hls st p)
    end.

(** [this.tech_.setCurrentTime(time)] *)
Definition techSetCurrentTime (time : float) (p : Playback) : Playback :=
  let (tech, state) := tech_setCurrentTime (tech_ (hls p)) (techState p) time in
  call (TechSetCurrentTime time)
    (set_techState state (set_hls (set_tech_ tech (hls p)) p)).

Definition duration (p : Playback) : float :=
  match playlists (hls p) with
  | None => 0
  | Some loader =>
      match mediaSource (hls p) with
      | Some _ => mediaSource_duration p
      | None =>
          match media loader with
          | Some playlist => Playlist_duration playlist None
          | None => Playlist_duration_undefined
          end
      end
  end.

(** The [newDuration] of [updateDuration]: the duration of the playlist,
    or the end of the last buffered range when that is later. *)
Definition newDurationOf (playlist : Playlist) (st : HlsHandler) : float :=
  let newDuration := Playlist_duration playlist None in
  let buffered := buffered (tech_ st) in
  match last buffered with
  | Some (_, end_) => JS.Math_max newDuration end_
  | None => newDuration
  end.

(** [updateDuration(playlist)], for a playlist object. The closure
    [setDuration] is handed to [addEventListener] with the [newDuration] it
    would set. *)
Definition updateDuration (playlist : Playlist) : M Playback unit :=
  fun p =>
    match mediaSource (hls p) with
    | None => TypeError p
    | Some ms =>
        let oldDuration := mediaSource_duration p in
        let newDuration := newDurationOf playlist (hls p) in
        if negb (PrimFloat.eqb oldDuration newDuration) then
          if negb (String.eqb (readyState ms) "open") then
            Normal tt (call (OnSourceOpen newDuration) p)
          else if match sourceBuffer (hls p) with
                  | Some sb => negb (updating sb)
                  | None => true
                  end
          then
            Normal tt
              (call (TechTrigger "durationchange")
                 (set_mediaSource_duration newDuration p))
          else Normal tt p
        else Normal tt p
    end.

Definition setupFirstPlay : M Playback unit :=
  fun p =>
    match playlists (hls p) with
    | None => TypeError p
    | Some loader =>
        let media := media loader in
        if PrimFloat.eqb (duration p) infinity &&
           Nat.eqb (played_length (techState p)) 0 &&
           negb (paused (techState p)) &&
           JS.defined (sourceBuffer (hls p)) &&
           JS.defined media &&
           (tech_readyState (techState p) >=? 1)
        then
          let p :=
            call (LoaderTrigger "firstplay")
              (set_hls
                 (set_playlists (Some (playlists_trigger loader "firstplay"))
                    (hls p)) p) in
          match seekable (hls p) with
          | (_, end0) :: _ => Normal tt (techSetCurrentTime end0 p)
          | [] => Normal tt p
          end
        else Normal tt p
    end.

(** [play]. With an empty seekable range, [seekable().start(0)] throws (an
    [Error] of the time ranges). *)
Definition play : M Playback unit :=
  fun p =>
    let p := set_hls (set_loadingState_ LoadSegments (hls p)) p in
    let p := if ended (techState p) then techSetCurrentTime 0 p else p in
    if Nat.eqb (played_length (techState p)) 0 then setupFirstPlay p
    else if PrimFloat.eqb (duration p) infinity then
      match seekable (hls p) with
      | [] => TypeError p
      | (start0, _) :: _ =>
          if PrimFloat.ltb (currentTime (tech_ (hls p))) start0
          then Normal tt (techSetCurrentTime start0 p)
          else Normal tt p
      end
    else Normal tt p.

(** The type handed to [addSourceBuffer]. *)
Definition mimeTypeOf (media : Playlist) : string :=
  let quote := String (Ascii.ascii_of_nat 34) EmptyString in
  match attributes media with
  | Some a =>
      match CODECS a with
      | Some codecs =>
          if String.eqb codecs EmptyString then "video/mp2t"%string
          else
            String.append "video/mp2t; codecs="
              (String.append quote (String.append codecs quote))
      | None => "video/mp2t"%string
      end
  | None => "video/mp2t"%string
  end.

Definition setupSourceBuffer_ : M Playback unit :=
  fun p =>
    match playlists (hls p) with
    | None => TypeError p
    | Some loader =>
        match media loader with
        | None => Normal tt p
        | Some media =>
            match mediaSource (hls p) with
            | None => TypeError p
            | Some ms =>
                if negb (String.eqb (readyState ms) "open") then Normal tt p
                else
                  let p := call (AddSourceBuffer (mimeTypeOf media)) p in
                  match addSourceBuffer ms (mimeTypeOf media) with
                  | None => TypeError p
                  | Some sb =>
                      let p := set_hls (set_sourceBuffer (Some sb) (hls p)) p in
                      (run lift (excludeIncompatibleVariants_ media);
                       modify (call OnUpdateEnd)) p
                  end
            end
        end
    end.

Definition handleSourceOpen : M Playback unit :=
  run (fun p =>
         if negb (JS.defined (sourceBuffer (hls p))) then setupSourceBuffer_ p
         else Normal tt p);
  fun p => if autoplay (techState p) then play p else Normal tt p.

Definition resetSrc_ : M Playback unit :=
  fun p =>
    let p := set_hls (cancelKeyXhr (cancelSegmentXhr (hls p))) p in
    match sourceBuffer (hls p) with
    | Some _ =>
        match mediaSource (hls p) with
        | None => TypeError p
        | Some ms =>
            if String.eqb (readyState ms) "open"
            then Normal tt (call SourceBufferAbort p)
            else Normal tt p
        end
    | None => Normal tt p
    end.

Definition dispose : M Playback unit :=
  run modify (fun p => set_hls (stopCheckingBuffer_ (hls p)) p);
  run modify (fun p =>
    match playlists (hls p) with
    | Some loader =>
        call LoaderDispose
          (set_hls (set_playlists (Some (playlists_dispose loader)) (hls p)) p)
    | None => p
    end);
  run resetSrc_;
  modify (call ComponentDispose).

(** [playlist.segments] and the other properties of the object [r] refers
    to are written through the store. *)
Definition store (r : PlaylistRef) (playlist : Playlist) (st : HlsHandler)
  : HlsHandler :=
  match playlists st with
  | Some loader =>
      match master loader with
      | Some pls =>
          set_playlists (Some (set_master (Some (<[r := playlist]> pls)) loader)) st
      | None => st
      end
  | None => st
  end.

(** The second seek of [updateEndHandler_], when a seek to the start of the
    seekable range ended up before it. *)
Definition seekAgain (currentBuffered : TimeRanges) (p : Playback) : Playback :=
  let st := hls p in
  if seeking (tech_ st) && Nat.eqb (length currentBuffered) 0 then
    match seekable st with
    | (start0, _) :: _ =>
        if PrimFloat.ltb (currentTime (tech_ st)) start0 then
          match findNextBufferedRange_ None st with
          | (next0, _) :: _ =>
              techSetCurrentTime (next0 + TIME_FUDGE_FACTOR)
                (call (VideojsLog (currentTime (tech_ st)) next0) p)
          | [] => p
          end
        else p
    | [] => p
    end
  else p.

(** [updateEndHandler_]. [segmentInfo.playlist] is read through the store of
    the loader; without the object the reads of its properties throw. *)
Definition updateEndHandler_ : M Playback unit :=
  fun p =>
    match pendingSegment_ (hls p) with
    | None => Normal tt (set_hls (set_pendingSegment_ None (hls p)) p)
    | Some segmentInfo =>
        match si_buffered segmentInfo with
        | None => Normal tt p
        | Some appendedOver =>
            let p := set_hls (set_pendingSegment_ None (hls p)) p in
            match playlists (hls p) ≫=
                    (fun loader => deref loader (si_playlist segmentInfo)) with
            | None => TypeError p
            | Some playlist =>
                let currentMediaIndex :=
                  si_mediaIndex segmentInfo +
                  (si_mediaSequence segmentInfo - mediaSequence playlist) in
                let currentBuffered := findBufferedRange_ None (hls p) in
                match detectEndOfStream (Some playlist) (mediaSource (hls p))
                        currentMediaIndex currentBuffered with
                | None => TypeError p
                | Some isEndOfStream =>
                    match playlists (hls p) ≫= media with
                    | None => TypeError p
                    | Some active =>
                        if negb (sameText (pl_uri playlist) (pl_uri active)) then
                          if isEndOfStream then lift (endOfStream None) p
                          else lift (fillBuffer None) p
                        else
                          let p := seekAgain currentBuffered p in
                          let now := buffered (tech_ (hls p)) in
                          let timelineUpdate :=
                            Hls.findSoleUncommonTimeRangesEnd_
                              (Some appendedOver) (Some now) in
                          match updateSegmentMetadata currentMediaIndex
                                  timelineUpdate (Some playlist) with
                          | Normal _ (Some playlist) =>
                              let p :=
                                set_hls
                                  (store (si_playlist segmentInfo) playlist (hls p))
                                  p in
                              if isEndOfStream then lift (endOfStream None) p
                              else if JS.defined timelineUpdate ||
                                      negb (Nat.eqb (length appendedOver)
                                              (length now))
                              then
                                (run updateDuration playlist;
                                 lift (fillBuffer None)) p
                              else
                                lift (fillBuffer (Some (currentMediaIndex + 1))) p
                          | _ => TypeError p
                          end
                    end
                end
            end
        end
    end.

(** The listener of [loadedmetadata] that [src] gives to the playlist
    loader. *)
Definition loadedmetadata : M Playback unit :=
  fun p =>
    match playlists (hls p) ≫= media with
    | None => TypeError p
    | Some oldMediaPlaylist =>
        let p :=
          if endList oldMediaPlaylist &&
             negb (String.eqb (preload (techState p)) "metadata") &&
             negb (String.eqb (preload (techState p)) "none")
          then set_hls (set_loadingState_ LoadSegments (hls p)) p
          else p in
        (run setupSourceBuffer_;
         run setupFirstPlay;
         run lift (fillBuffer None);
         modify (call (TechTrigger "loadedmetadata"))) p
    end.

End PlaybackMethods.

(** ** Counting the calls *)

Definition isEnding (e : Effect) : bool :=
  match e with
  | EndOfStream _ => true
  | _ => false
  end.

(** The number of calls of [mediaSource.endOfStream]. *)
Definition endings (st : HlsHandler) : nat :=
  length (List.filter isEnding (trace st)).

Definition isSeek (c : Call) : bool :=
  match c with
  | TechSetCurrentTime _ => true
  | _ => false
  end.

(** The number of calls of [tech_.setCurrentTime]. *)
Definition seeks (p : Playback) : nat := length (List.filter isSeek (calls p)).

Definition isAddSourceBuffer (c : Call) : bool :=
  match c with
  | AddSourceBuffer _ => true
  | _ => false
  end.

(** The number of calls of [mediaSource.addSourceBuffer]. *)
Definition addedSourceBuffers (p : Playback) : nat :=
  length (List.filter isAddSourceBuffer (calls p)).

(** A tech that is at the time it was sent to and seeking, a media source
    whose new source buffers are idle, and a loader that keeps its state. *)
Definition plainOutside : Outside :=
  {| tech_setCurrentTime := fun tech state time =>
       ({| currentTime := time; buffered := buffered tech; seeking := true;
           currentSrc := currentSrc tech; computedWidth := computedWidth tech;
           computedHeight := computedHeight tech |}, state);
     addSourceBuffer := fun _ _ => Some {| updating := false |};
     playlists_trigger := fun loader _ => loader;
     playlists_dispose := fun loader => loader;
     Playlist_duration_undefined := 0 |}.

(** A playback of [st] that has not played yet and is not paused. *)
Definition fresh_playback (st : HlsHandler) (duration : float) : Playback :=
  {| hls := st;
     techState := {| played_length := 0; paused := false; ended := false;
                     tech_readyState := 4; autoplay := false;
                     preload := "auto" |};
     mediaSource_duration := duration;
     calls := [] |}.

(** What [play] and [setupFirstPlay] leave alone: the requests, the pending
    segment, the media source with its duration, the source buffer, the
    keys, the timer and the trace; and they add no source buffer. *)
Record playOnly (p q : Playback) : Prop := {
  po_mediaSource : mediaSource (hls q) = mediaSource (hls p);
  po_sourceBuffer : sourceBuffer (hls q) = sourceBuffer (hls p);
  po_bandwidth : bandwidth (hls q) = bandwidth (hls p);
  po_pendingSegment : pendingSegment_ (hls q) = pendingSegment_ (hls p);
  po_segmentXhr : segmentXhr_ (hls q) = segmentXhr_ (hls p);
  po_keyXhr : keyXhr_ (hls q) = keyXhr_ (hls p);
  po_lastSegmentLoaded : lastSegmentLoaded_ (hls q) = lastSegmentLoaded_ (hls p);
  po_checkBufferTimeout : checkBufferTimeout_ (hls q) = checkBufferTimeout_ (hls p);
  po_keys : keys (hls q) = keys (hls p);
  po_trace : trace (hls q) = trace (hls p);
  po_duration : mediaSource_duration q = mediaSource_duration p;
  po_added : addedSourceBuffers q = addedSourceBuffers p
}.

(** Sample playbacks. *)
Module Stage.

(** The variants of [Cases.mixed], the first one active. *)
Definition main : Playlist :=
  Cases.coded "main.m3u8" 500000 "avc1.4d400d,mp4a.40.2".

Definition mixed : Playback := fresh_playback Cases.mixed 0.

(** The first segment of the first playlist, appended while nothing was
    buffered. *)
Definition appended : SegmentInfo :=
  set_si_buffered (Some []) (set_si_bytes (Some [71; 64]) Cases.info).

(** After the append: ten seconds are buffered. *)
Definition afterAppend : Playback :=
  fresh_playback
    (set_pendingSegment_ (Some appended)
       (Sample.handler 0 [(0, 10)%float] [Sample.media] (Some 0%nat) 0))
    30.

(** The same with two renditions, the second one active by now. *)
Definition switched : Playback :=
  fresh_playback
    (set_pendingSegment_ (Some appended)
       (set_tech_ (Sample.tech 0 [(0, 10)%float]) Sample.twoRenditions))
    30.

End Stage.

(** ** Sessions *)

Definition set_mediaSource (v : option MediaSource) (st : HlsHandler) : HlsHandler :=
  {| tech_ := tech_ st; source_src := source_src st;
     source_withCredentials := source_withCredentials st;
     options_withCredentials := options_withCredentials st;
     mediaSource := v; sourceBuffer := sourceBuffer st;
     playlists := playlists st; loadingState_ := loadingState_ st;
     bandwidth := bandwidth st; bytesReceived := bytesReceived st;
     segmentXhrTime := segmentXhrTime st; pendingSegment_ := pendingSegment_ st;
     segmentXhr_ := segmentXhr_ st; keyXhr_ := keyXhr_ st;
     lastSegmentLoaded_ := lastSegmentLoaded_ st; error := error st;
     checkBufferTimeout_ := checkBufferTimeout_ st; keys := keys st;
     clock := clock st; fresh := fresh st; trace := trace st |}.

Definition set_options_withCredentials (v : bool) (st : HlsHandler) : HlsHandler :=
  {| tech_ := tech_ st; source_src := source_src st;
     source_withCredentials := source_withCredentials st;
     options_withCredentials := v;
     mediaSource := mediaSource st; sourceBuffer := sourceBuffer st;
     playlists := playlists st; loadingState_ := loadingState_ st;
     bandwidth := bandwidth st; bytesReceived := bytesReceived st;
     segmentXhrTime := segmentXhrTime st; pendingSegment_ := pendingSegment_ st;
     segmentXhr_ := segmentXhr_ st; keyXhr_ := keyXhr_ st;
     lastSegmentLoaded_ := lastSegmentLoaded_ st; error := error st;
     checkBufferTimeout_ := checkBufferTimeout_ st; keys := keys st;
     clock := clock st; fresh := fresh st; trace := trace st |}.

(** The callback [drainBuffer] hands to the decrypter: a warning when there
    is an error, and [segmentInfo.bytes = localBytes]. [pending] tells
    whether the segment info the decrypter was made for is still the pending
    one; the write to an object that is not is not seen by the handler. *)
Definition decrypted (error : option string) (localBytes : option Bytes)
    (pending : bool) (st : HlsHandler) : HlsHandler :=
  let st :=
    match error with
    | Some message => emit (LogWarn message) st
    | None => st
    end in
  match pendingSegment_ st with
  | Some segmentInfo =>
      if pending
      then set_pendingSegment_ (Some (set_si_bytes localBytes segmentInfo)) st
      else st
  | None => st
  end.

Section Sessions.

Context `{External} `{Outside}.

Local Open Scope js_scope.

(** [src(src)], with [None] and the empty string for a falsy argument.
    [created] and [loader] are the media source and the playlist loader the
    two constructors return, [withCredentials] is what
    [options_.withCredentials] comes to (that of the source or, when it has
    none, that of [videojs.options.hls]) and [el] tells whether the tech
    still has its element. The listeners registered are [handleSourceOpen],
    [setupFirstPlay], [loadedmetadata], [blacklistCurrentPlaylist_] with the
    error of the loader, [loadedplaylist] and [mediachange]. *)
Definition src (src : option string) (created : MediaSource)
    (loader : PlaylistLoader) (withCredentials el : bool) (p : Playback)
  : Playback :=
  let falsy :=
    match src with
    | Some url => String.eqb url EmptyString
    | None => true
    end in
  if falsy then p
  else
    let st := set_mediaSource (Some created) (hls p) in
    let st := set_options_withCredentials withCredentials st in
    let st := set_playlists (Some loader) st in
    let p := set_hls st p in
    if el then call TechSrc p else p.

(** The closure [setDuration] that [updateDuration] hands to
    [addEventListener] when the media source is not open. *)
Definition setDuration (newDuration : float) : M Playback unit :=
  fun p =>
    match mediaSource (hls p) with
    | None => TypeError p
    | Some _ =>
        Normal tt
          (call (TechTrigger "durationchange")
             (set_mediaSource_duration newDuration p))
    end.

(** The listener of [loadedplaylist] that [src] gives to the playlist
    loader. *)
Definition loadedplaylist : M Playback unit :=
  fun p =>
    match playlists (hls p) with
    | None => TypeError p
    | Some loader =>
        match media loader with
        | None => lift (do next <- selectPlaylist; playlists_media next) p
        | Some updatedPlaylist =>
            (run updateDuration updatedPlaylist;
             fun p =>
               match seekable (hls p) with
               | (start0, end0) :: _ =>
                   if PrimFloat.eqb (duration p) infinity
                   then Normal tt (call (AddSeekableRange start0 end0) p)
                   else Normal tt p
               | [] => Normal tt p
               end) p
        end
    end.

(** The listener of [mediachange]. *)
Definition mediachange (p : Playback) : Playback :=
  call (TechTrigger "mediachange") p.

(** One call of a method of the handler that touches the handler only, or
    of one of its callbacks, from any state; the state it leaves is the one
    reached when it returns or throws. The timer that fires calls
    [checkBuffer_], the listener of [seeking] calls [setCurrentTime], that
    of [error] on the tech [stopCheckingBuffer_], that of [error] on the
    loader [blacklistCurrentPlaylist_]. *)
Inductive called : HlsHandler -> HlsHandler -> Prop :=
| called_checkBuffer st :
    called st (state_of (checkBuffer_ st))
| called_startCheckingBuffer st :
    called st (state_of (startCheckingBuffer_ st))
| called_stopCheckingBuffer st :
    called st (stopCheckingBuffer_ st)
| called_fillBuffer mediaIndex st :
    called st (state_of (fillBuffer mediaIndex st))
| called_loadSegment segmentInfo st :
    called st (state_of (loadSegment segmentInfo st))
| called_segmentLoaded segmentInfo segment request st :
    called st (state_of (segmentLoaded segmentInfo segment request st))
| called_setBandwidth request st :
    called st (setBandwidth request st)
| called_drainBuffer st :
    called st (state_of (drainBuffer st))
| called_decrypted error localBytes pending st :
    called st (decrypted error localBytes pending st)
| called_setCurrentTime time st :
    called st (state_of (setCurrentTime time st))
| called_cancelKeyXhr st :
    called st (cancelKeyXhr st)
| called_cancelSegmentXhr st :
    called st (cancelSegmentXhr st)
| called_blacklist error st :
    called st (state_of (blacklistCurrentPlaylist_ error st))
| called_selectPlaylist st :
    called st (state_of (selectPlaylist st))
| called_excludeIncompatibleVariants media st :
    called st (state_of (excludeIncompatibleVariants_ media st))
| called_fetchKey segment st :
    called st (state_of (fetchKey_ segment st))
| called_receiveKey segment keyRecieved request st :
    called st (state_of (receiveKey segment keyRecieved request st)).

(** One event of a session: a call of [called]; a call, from any state, of
    one of the methods and listeners that also touch the tech, the media
    source or the record of the calls; or a change made by anything else
    (the tech, the media source, the source buffer, the loader, the clock,
    a caller that assigns to a property), which may alter everything but
    the timer the handler remembers, the key objects there are (new ones may
    appear) and the record of its calls: these only the code of the handler
    writes. *)
Inductive event : Playback -> Playback -> Prop :=
| event_called p st' :
    called (hls p) st' -> event p (set_hls st' p)
| event_src url created loader withCredentials el p :
    event p (src url created loader withCredentials el p)
| event_handleSourceOpen p :
    event p (state_of (handleSourceOpen p))
| event_setupSourceBuffer p :
    event p (state_of (setupSourceBuffer_ p))
| event_setupFirstPlay p :
    event p (state_of (setupFirstPlay p))
| event_play p :
    event p (state_of (play p))
| event_updateDuration playlist p :
    event p (state_of (updateDuration playlist p))
| event_setDuration newDuration p :
    event p (state_of (setDuration newDuration p))
| event_resetSrc p :
    event p (state_of (resetSrc_ p))
| event_dispose p :
    event p (state_of (dispose p))
| event_updateEndHandler p :
    event p (state_of (updateEndHandler_ p))
| event_loadedmetadata p :
    event p (state_of (loadedmetadata p))
| event_loadedplaylist p :
    event p (state_of (loadedplaylist p))
| event_mediachange p :
    event p (mediachange p)
| event_outside p q :
    checkBufferTimeout_ (hls q) = checkBufferTimeout_ (hls p) ->
    trace (hls q) = trace (hls p) ->
    (forall k key, keys (hls p) !! k = Some key -> keys (hls q) !! k = Some key) ->
    event p q.

(** A session: any number of events, one after the other. The methods that
    only read ([duration], [seekable], [playlistUriToUrl], [byterangeStr_],
    [segmentXhrHeaders_] and the searches of the buffered ranges) leave the
    state as it is; [handleSource] of the source handler is the constructor
    followed by [src]. *)
Inductive session : Playback -> Playback -> Prop :=
| session_none p : session p p
| session_more p q r : event p q -> session q r -> session p r.

End Sessions.
(** * Theorems *)

Lemma filter_singleton_iff {A : Type} (f : A -> bool) (l : list A) (x : A) :
  List.filter f l = [x] <->
  exists i, l !! i = Some x /\ f x = true /\
            forall j y, l !! j = Some y -> f y = true -> j = i.
Proof.
  revert x. induction l as [|a l IH]; intros x; simpl.
  - split; [discriminate|]. intros (i & Hi & _). destruct i; discriminate.
  - destruct (f a) eqn:Hfa.
    + split.
      * intros Heq. injection Heq as -> Hnil.
        exists 0%nat. repeat split; auto.
        intros [|j] y Hj Hy; [reflexivity|]. simpl in Hj.
        assert (Hin : In y (List.filter f l)).
        { apply filter_In. split; [|exact Hy].
          apply list_elem_of_In, list_elem_of_lookup. eauto. }
        rewrite Hnil in Hin. destruct Hin.
      * intros (i & Hi & Hx & Huniq).
        assert (i = 0%nat) as -> by (symmetry; apply (Huniq 0%nat a); auto).
        simpl in Hi. injection Hi as ->. f_equal.
        destruct (List.filter f l) as [|y t] eqn:Hfl; [reflexivity|].
        assert (Hin : In y (List.filter f l)) by (rewrite Hfl; left; reflexivity).
        apply filter_In in Hin as [Hin Hy].
        apply list_elem_of_In, list_elem_of_lookup in Hin as [j Hj].
        specialize (Huniq (S j) y Hj Hy). discriminate.
    + rewrite IH. split.
      * intros (i & Hi & Hx & Huniq). exists (S i). repeat split; auto.
        intros [|j] y Hj Hy; simpl in Hj.
        { injection Hj as ->. congruence. }
        f_equal. eauto.
      * intros (i & Hi & Hx & Huniq). destruct i as [|i]; simpl in Hi.
        { injection Hi as ->. congruence. }
        exists i. repeat split; auto.
        intros j y Hj Hy. specialize (Huniq (S j) y Hj Hy). lia.
Qed.

(** ** The sole uncommon end of two buffered states *)

Lemma overlapsCurrentEnd_covers (e : float) (span : float * float) :
  Hls.overlapsCurrentEnd e span = true <-> covers span e.
Proof.
  unfold Hls.overlapsCurrentEnd, JS.geb, covers.
  rewrite andb_true_iff. reflexivity.
Qed.

Lemma not_overlapped_uncovered (before : TimeRanges) (e : float) :
  negb (existsb (Hls.overlapsCurrentEnd e) before) = true <-> uncovered before e.
Proof.
  rewrite negb_true_iff. unfold uncovered. split.
  - intros Hex span Hin Hcov.
    assert (existsb (Hls.overlapsCurrentEnd e) before = true) as Habs.
    { apply existsb_exists. exists span. split; [exact Hin|].
      apply overlapsCurrentEnd_covers, Hcov. }
    congruence.
  - intros Hun. destruct (existsb _ before) eqn:Hex; [|reflexivity].
    apply existsb_exists in Hex as (span & Hin & Hov).
    apply overlapsCurrentEnd_covers in Hov. destruct (Hun span Hin Hov).
Qed.

Lemma edges_of_original (o : TimeRanges) :
  map (fun r : float * float => (fst r, snd r)) o = o.
Proof.
  induction o as [|[s e] o IH]; simpl; [reflexivity|]. now rewrite IH.
Qed.

Lemma sole_result_iff {A B : Type} (g : A -> B) (l : list A) (e : B) :
  match map g l with [x] => Some x | _ => None end = Some e <->
  exists a, l = [a] /\ g a = e.
Proof.
  destruct l as [|a [|b l]]; simpl.
  - split; [discriminate|]. intros (a & Ha & _). discriminate.
  - split.
    + intros Heq. injection Heq as <-. eauto.
    + intros (a' & Ha & <-). injection Ha as ->. reflexivity.
  - split; [discriminate|]. intros (a' & Ha & _). discriminate.
Qed.

Lemma findSoleUncommonTimeRangesEnd_iff (original update : option TimeRanges) (e : float) :
  Hls.findSoleUncommonTimeRangesEnd_ original update = Some e <->
  soleUncommonEnd (ranges_of original) (ranges_of update) e.
Proof.
  unfold Hls.findSoleUncommonTimeRangesEnd_, soleUncommonEnd.
  assert (Hedges : match original with
                   | Some o => map (fun r : float * float => (fst r, snd r)) o
                   | None => []
                   end = ranges_of original).
  { destruct original; simpl; [apply edges_of_original|reflexivity]. }
  rewrite Hedges. clear Hedges.
  set (before := ranges_of original).
  set (f := fun r : float * float =>
              negb (existsb (Hls.overlapsCurrentEnd (snd r)) before)).
  assert (Hres : match update with
                 | Some u => map snd (List.filter f u)
                 | None => []
                 end = map snd (List.filter f (ranges_of update))).
  { destruct update; reflexivity. }
  rewrite Hres, sole_result_iff. clear Hres.
  split.
  - intros ([s e'] & Hfl & He). simpl in He. subst e'.
    apply filter_singleton_iff in Hfl as (i & Hi & Hf & Huniq).
    exists i, s. split; [exact Hi|]. split.
    + apply (not_overlapped_uncovered before e), Hf.
    + intros j s' e' Hj Hun. apply (Huniq j (s', e') Hj).
      apply (not_overlapped_uncovered before e'), Hun.
  - intros (i & s & Hi & Hun & Huniq). exists (s, e). split; [|reflexivity].
    apply filter_singleton_iff. exists i. split; [exact Hi|]. split.
    + apply (not_overlapped_uncovered before e), Hun.
    + intros j [s' e'] Hj Hf. apply (Huniq j s' e' Hj).
      apply (not_overlapped_uncovered before e'), Hf.
Qed.

(** C1. [findSoleUncommonTimeRangesEnd_(before, after)] returns [e] exactly
    when [e] is the end of the one and only interval of [after] whose end no
    interval of [before] covers; with no such interval, or with more than
    one, it returns [null]. From [[0,10]] to [[0,10],[10,25]] it returns 25. *)
Theorem findSoleUncommonTimeRangesEnd_sole (original update : option TimeRanges) :
  (forall e,
      Hls.findSoleUncommonTimeRangesEnd_ original update = Some e <->
      soleUncommonEnd (ranges_of original) (ranges_of update) e) /\
  (Hls.findSoleUncommonTimeRangesEnd_ original update = None <->
   ~ exists e, soleUncommonEnd (ranges_of original) (ranges_of update) e) /\
  Hls.findSoleUncommonTimeRangesEnd_
    (Some [(0, 10)]%float) (Some [(0, 10); (10, 25)]%float) = Some 25%float.
Proof.
  split; [|split].
  - intros e. apply findSoleUncommonTimeRangesEnd_iff.
  - split.
    + intros Hnone (e & He). apply findSoleUncommonTimeRangesEnd_iff in He.
      congruence.
    + intros Hno.
      destruct (Hls.findSoleUncommonTimeRangesEnd_ original update) as [e|] eqn:He;
        [|reflexivity].
      exfalso. apply Hno. exists e. apply findSoleUncommonTimeRangesEnd_iff, He.
  - reflexivity.
Qed.

(** C2, as the code has it. Growing [[0,10]] to [[0,12]] gives the end 12:
    no interval of the first state covers 12, so it counts as a new end. *)
Lemma findSoleUncommonTimeRangesEnd_grow_returns_end :
  Hls.findSoleUncommonTimeRangesEnd_
    (Some [(0, 10)]%float) (Some [(0, 12)]%float) = Some 12%float /\
  Hls.findSoleUncommonTimeRangesEnd_
    (Some [(0, 10)]%float) (Some [(0, 12)]%float) <> None.
Proof. split; [reflexivity|discriminate]. Qed.

(** C2, amended. From [[0,10]] to [[0,12]] the function returns 12 (the span
    grew past its old end); an end that stays within the old span, as after
    a shrink to [[0,e]] with [0 <= e <= 10], is not a new end and the
    function returns [null]. *)
Theorem findSoleUncommonTimeRangesEnd_grow_and_shrink (e : float) :
  PrimFloat.leb 0 e = true -> PrimFloat.leb e 10 = true ->
  Hls.findSoleUncommonTimeRangesEnd_
    (Some [(0, 10)]%float) (Some [(0, 12)]%float) = Some 12%float /\
  Hls.findSoleUncommonTimeRangesEnd_
    (Some [(0, 10)]%float) (Some [(0%float, e)]) = None.
Proof.
  intros H0 H10. split; [reflexivity|].
  unfold Hls.findSoleUncommonTimeRangesEnd_, Hls.overlapsCurrentEnd, JS.geb.
  simpl. rewrite H0, H10. reflexivity.
Qed.

Lemma findSoleUncommonTimeRangesEnd_grow_and_shrink_witness :
  Hls.findSoleUncommonTimeRangesEnd_
    (Some [(0, 10)]%float) (Some [(0, 12)]%float) = Some 12%float /\
  Hls.findSoleUncommonTimeRangesEnd_
    (Some [(0, 10)]%float) (Some [(0, 8)]%float) = None.
Proof.
  apply (findSoleUncommonTimeRangesEnd_grow_and_shrink 8%float); reflexivity.
Defined.

(** ** Segment metadata after an append *)

Lemma zero_is_falsy : JS.truthy_opt (Some 0%float) = false.
Proof. reflexivity. Qed.


Lemma updateSegmentMetadata_null_end (pl : option Playlist) (i : Z) :
  state_of (updateSegmentMetadata i None pl) = pl.
Proof.
  destruct pl as [pl|]; simpl; [|reflexivity].
  destruct (segments pl) as [segs|]; simpl; [|reflexivity].
  destruct (JS.index segs i); reflexivity.
Qed.




(** C10. For every playlist and every index, [updateSegmentMetadata] with the
    end time 0 leaves the playlist, and so the [end] and the duration of each
    of its segments, as it was: 0 is treated as no timeline information. *)
Theorem updateSegmentMetadata_zero_end_is_noop (pl : option Playlist) (i : Z) :
  state_of (updateSegmentMetadata i (Some 0%float) pl) = pl /\
  state_of (updateSegmentMetadata i (Some 0%float) pl) =
    state_of (updateSegmentMetadata i None pl).
Proof.
  assert (H0 : state_of (updateSegmentMetadata i (Some 0%float) pl) = pl).
  { unfold updateSegmentMetadata. rewrite zero_is_falsy.
    destruct pl as [pl|]; simpl; [|reflexivity].
    destruct (segments pl) as [segs|]; simpl; [|reflexivity].
    destruct (JS.index segs i); reflexivity. }
  split; [exact H0|]. rewrite H0. symmetry.
  apply updateSegmentMetadata_null_end.
Qed.

(** ** Sorting *)

Section Sorting.

Context {A : Type} (cmp : A -> A -> Z).

Lemma Array_insert_In (x y : A) (l : list A) :
  In y (Array_insert cmp x l) <-> y = x \/ In y l.
Proof.
  induction l as [|z l IH]; simpl.
  - intuition.
  - destruct (cmp x z <=? 0); simpl; [intuition|]. rewrite IH. intuition.
Qed.

Lemma Array_sort_In (y : A) (l : list A) :
  In y (Array_sort cmp l) <-> In y l.
Proof.
  induction l as [|x l IH]; simpl; [reflexivity|].
  rewrite Array_insert_In, IH. intuition.
Qed.

Variable key : A -> Z.
Hypothesis cmp_key : forall a b, cmp a b = key a - key b.

Let ascending (a b : A) : Prop := key a <= key b.

Lemma Array_insert_sorted (x : A) (l : list A) :
  StronglySorted ascending l -> StronglySorted ascending (Array_insert cmp x l).
Proof.
  induction l as [|y l IH]; simpl; intros Hs.
  - constructor; constructor.
  - apply StronglySorted_inv in Hs as [Hl Hy].
    destruct (cmp x y <=? 0) eqn:Hc.
    + apply Z.leb_le in Hc. rewrite cmp_key in Hc.
      constructor; [constructor; assumption|].
      constructor; [unfold ascending; lia|].
      rewrite List.Forall_forall in Hy |- *. intros a Ha.
      specialize (Hy a Ha). unfold ascending in *. lia.
    + apply Z.leb_gt in Hc. rewrite cmp_key in Hc.
      constructor; [apply IH, Hl|].
      apply List.Forall_forall. intros a Ha. apply Array_insert_In in Ha as [->|Ha].
      * unfold ascending. lia.
      * rewrite List.Forall_forall in Hy. apply Hy, Ha.
Qed.

Lemma Array_sort_sorted (l : list A) : StronglySorted ascending (Array_sort cmp l).
Proof.
  induction l as [|x l IH]; simpl; [constructor|].
  apply Array_insert_sorted, IH.
Qed.

(** Walking a sorted list from its end, the first element that passes a
    test has the largest key of those that pass. *)
Lemma last_passing_is_greatest (f : A -> bool) (l : list A) (v : A) :
  StronglySorted ascending l ->
  head (List.filter f (rev l)) = Some v ->
  In v l /\ f v = true /\ forall w, In w l -> f w = true -> key w <= key v.
Proof.
  induction l as [|x l IH]; simpl; intros Hs Hhd; [discriminate|].
  apply StronglySorted_inv in Hs as [Hl Hx].
  rewrite List.filter_app in Hhd. simpl in Hhd.
  destruct (List.filter f (rev l)) as [|u t] eqn:Hfl.
  - simpl in Hhd. destruct (f x) eqn:Hfx; [|discriminate].
    injection Hhd as <-. split; [left; reflexivity|]. split; [exact Hfx|].
    intros w [<-|Hw] Hfw; [lia|].
    assert (Hin : In w (List.filter f (rev l))).
    { apply filter_In. split; [apply in_rev; rewrite rev_involutive; exact Hw|exact Hfw]. }
    rewrite Hfl in Hin. destruct Hin.
  - simpl in Hhd. injection Hhd as <-.
    destruct (IH Hl eq_refl) as (Hin & Hfu & Hmax).
    split; [right; exact Hin|]. split; [exact Hfu|].
    intros w [<-|Hw] Hfw.
    + rewrite List.Forall_forall in Hx. apply (Hx u Hin).
    + apply Hmax; assumption.
Qed.

End Sorting.

(** ** Selection of a playlist *)

Lemma comparePlaylistBandwidth_key (a b : Variant) :
  onVariants comparePlaylistBandwidth a b = bandwidthKey a - bandwidthKey b.
Proof. reflexivity. Qed.

Lemma In_imap_pair (playlists : list Playlist) (r : PlaylistRef) (p : Playlist) :
  In (r, p) (imap pair playlists) <-> playlists !! r = Some p.
Proof.
  rewrite <- list_elem_of_In, elem_of_lookup_imap. split.
  - intros (i & y & Heq & Hy). injection Heq as -> ->. exact Hy.
  - intros Hr. exists r, p. split; [reflexivity|exact Hr].
Qed.

Lemma In_sortedPlaylists (now : Z) (playlists : list Playlist) (v : Variant) :
  In v (sortedPlaylists now playlists) <->
  playlists !! fst v = Some (snd v) /\ notExcluded now (snd v) = true.
Proof.
  unfold sortedPlaylists. rewrite filter_In, Array_sort_In.
  destruct v as [r p]. simpl. rewrite In_imap_pair. reflexivity.
Qed.

Lemma In_bandwidthPlaylists (now bandwidth : Z) (playlists : list Playlist) (v : Variant) :
  In v (bandwidthPlaylists now bandwidth playlists) <->
  In v (sortedPlaylists now playlists) /\ bandwidthEligible bandwidth (snd v) = true.
Proof.
  unfold bandwidthPlaylists. rewrite filter_In, <- in_rev. reflexivity.
Qed.

Lemma head_In {A : Type} (l : list A) (x : A) : head l = Some x -> In x l.
Proof. destruct l; simpl; [discriminate|]. intros Hx. injection Hx as ->. now left. Qed.

Lemma orElse_Some {A : Type} (x y : option A) (v : A) :
  orElse x y = Some v -> x = Some v \/ y = Some v.
Proof. destruct x; simpl; auto. Qed.

(** Whatever the second loop leaves in its two variables was in them before
    or is one of the variants it visited. *)
Lemma resolutionLoop_from_visit (P : Variant -> Prop) (width height : option Z)
    (visit : list Variant) (plusOne best plusOne' best' : option Variant) :
  Forall P visit ->
  (forall v, plusOne = Some v -> P v) ->
  (forall v, best = Some v -> P v) ->
  resolutionLoop width height visit plusOne best = (plusOne', best') ->
  (forall v, plusOne' = Some v -> P v) /\ (forall v, best' = Some v -> P v).
Proof.
  revert plusOne best. induction visit as [|variant rest IH]; simpl;
    intros plusOne best Hvisit Hp Hb Hrun.
  - injection Hrun as <- <-. split; assumption.
  - apply Forall_cons in Hvisit as [Hv Hrest].
    destruct (declaredResolution (snd variant)) as [res|];
      [|exact (IH plusOne best Hrest Hp Hb Hrun)].
    destruct (eqNum (res_width res) width && eqNum (res_height res) height).
    { injection Hrun as <- <-. split; [discriminate|].
      intros v Hv'. injection Hv' as <-. exact Hv. }
    destruct (ltNum (res_width res) width && ltNum (res_height res) height).
    { injection Hrun as <- <-. split; assumption. }
    match type of Hrun with
    | (if ?c then _ else _) = _ => destruct c
    end.
    + apply (IH (Some variant) best Hrest); [|exact Hb|exact Hrun].
      intros v Hv'. injection Hv' as <-. exact Hv.
    + exact (IH plusOne best Hrest Hp Hb Hrun).
Qed.

Lemma selectVariant_In_sorted (playlists : list Playlist) (bandwidth : Z)
    (width height : option Z) (now : Z) (v : Variant) :
  selectVariant playlists bandwidth width height now = Some v ->
  In v (sortedPlaylists now playlists).
Proof.
  unfold selectVariant.
  destruct (resolutionLoop width height _ None None) as [plusOne best] eqn:Hloop.
  assert (Hsub : forall w, In w (bandwidthPlaylists now bandwidth playlists) ->
                           In w (sortedPlaylists now playlists)).
  { intros w Hw. apply In_bandwidthPlaylists in Hw. apply Hw. }
  apply (resolutionLoop_from_visit
           (fun w => In w (sortedPlaylists now playlists))) in Hloop;
    [|apply List.Forall_forall; intros w Hw; apply Hsub;
      apply in_rev, Array_sort_In in Hw; exact Hw
     |discriminate|discriminate].
  destruct Hloop as [HplusOne Hbest].
  intros Hsel.
  apply orElse_Some in Hsel as [Hsel|Hsel]; [apply HplusOne, Hsel|].
  apply orElse_Some in Hsel as [Hsel|Hsel]; [apply Hbest, Hsel|].
  apply orElse_Some in Hsel as [Hsel|Hsel].
  - apply Hsub, head_In, Hsel.
  - apply head_In, Hsel.
Qed.

Lemma selectVariant_Some_of_sorted (playlists : list Playlist) (bandwidth : Z)
    (width height : option Z) (now : Z) :
  sortedPlaylists now playlists <> [] ->
  exists v, selectVariant playlists bandwidth width height now = Some v.
Proof.
  intros Hne. unfold selectVariant.
  destruct (resolutionLoop width height _ None None) as [plusOne best].
  destruct plusOne as [v|]; simpl; [eauto|].
  destruct best as [v|]; simpl; [eauto|].
  destruct (bandwidthBestVariant now bandwidth playlists) as [v|]; simpl; [eauto|].
  destruct (sortedPlaylists now playlists) as [|v t]; [congruence|]. simpl. eauto.
Qed.

Lemma notExcluded_not_inFuture (now : Z) (p : Playlist) :
  notExcluded now p = true <-> ~ inFuture now (excludeUntil p).
Proof.
  unfold notExcluded, inFuture. destruct (excludeUntil p) as [[t|]|].
  - rewrite Z.geb_le. lia.
  - split; [discriminate|]. intros Hn. destruct (Hn I).
  - split; auto.
Qed.

(** C3. [selectPlaylist] never returns a playlist whose [excludeUntil] lies
    strictly in the future, whatever the master playlist, the exclusions, the
    bandwidth estimate and the clock; a playlist excluded at time [T] passes
    the filter again exactly from [T] plus five minutes on, and a master
    playlist with that playlist alone yields it from then on and nothing
    before. *)
Theorem selectPlaylist_never_excluded :
  (forall (st st' : HlsHandler) (r : PlaylistRef),
      selectPlaylist st = Normal (Some r) st' ->
      exists loader pls p,
        playlists st = Some loader /\ master loader = Some pls /\
        pls !! r = Some p /\ ~ inFuture (clock st) (excludeUntil p)) /\
  (forall (p : Playlist) (T now : Z),
      excludeUntil p = Some (Finite (T + blacklistDuration)) ->
      (notExcluded now p = true <-> T + 5 * 60 * 1000 <= now)) /\
  (forall (st : HlsHandler) (loader : PlaylistLoader) (p : Playlist) (T : Z),
      playlists st = Some loader -> master loader = Some [p] ->
      excludeUntil p = Some (Finite (T + blacklistDuration)) ->
      (selectPlaylist st = Normal (Some 0%nat) st <-> T + 5 * 60 * 1000 <= clock st) /\
      (clock st < T + 5 * 60 * 1000 -> selectPlaylist st = Normal None st)).
Proof.
  assert (Hexpiry : forall (p : Playlist) (T now : Z),
             excludeUntil p = Some (Finite (T + blacklistDuration)) ->
             (notExcluded now p = true <-> T + 5 * 60 * 1000 <= now)).
  { intros p T now Hex. unfold notExcluded. rewrite Hex, Z.geb_le.
    unfold blacklistDuration. lia. }
  split; [|split].
  - intros st st' r. unfold selectPlaylist.
    destruct (playlists st) as [loader|]; [|discriminate].
    destruct (master loader) as [pls|] eqn:Hm; [|discriminate].
    destruct (selectVariant pls _ _ _ _) as [[r' p]|] eqn:Hsel; simpl; [|discriminate].
    intros Hret. injection Hret as -> _.
    apply selectVariant_In_sorted, In_sortedPlaylists in Hsel as [Hr Hkeep].
    exists loader, pls, p. repeat split; auto.
    apply notExcluded_not_inFuture, Hkeep.
  - exact Hexpiry.
  - intros st loader p T Hl Hm Hex. unfold selectPlaylist. rewrite Hl, Hm.
    destruct (selectVariant [p] _ _ _ _) as [[r' p']|] eqn:Hsel; simpl.
    + apply selectVariant_In_sorted, In_sortedPlaylists in Hsel as [Hr Hkeep].
      simpl in Hr, Hkeep. destruct r' as [|r']; [|destruct r'; discriminate].
      injection Hr as <-. apply (Hexpiry p T (clock st) Hex) in Hkeep.
      split; [tauto|lia].
    + split; [|reflexivity]. split; [discriminate|]. intros Hle. exfalso.
      apply (Hexpiry p T (clock st) Hex) in Hle.
      destruct (selectVariant_Some_of_sorted [p] (bandwidth st)
                  (computedWidth (tech_ st)) (computedHeight (tech_ st)) (clock st))
        as [v Hv]; [|congruence].
      unfold sortedPlaylists. simpl. rewrite Hle. discriminate.
Qed.

Lemma selectPlaylist_never_excluded_witness :
  selectPlaylist
    (Sample.handler 0 []
       [Sample.rendition "low.m3u8" 500000 (Some (Finite (1000 + blacklistDuration)))]
       None 301000) =
  Normal (Some 0%nat)
    (Sample.handler 0 []
       [Sample.rendition "low.m3u8" 500000 (Some (Finite (1000 + blacklistDuration)))]
       None 301000).
Proof.
  apply (proj1 (proj2 (proj2 selectPlaylist_never_excluded)
                 (Sample.handler 0 []
                    [Sample.rendition "low.m3u8" 500000
                       (Some (Finite (1000 + blacklistDuration)))]
                    None 301000)
                 _ _ 1000 eq_refl eq_refl eq_refl)).
  simpl. lia.
Defined.

(** ** Numbers

    Facts about the binary64 format, read off its specification in
    [SpecFloat]: what rounding does to a mantissa of at least 53 digits, and
    that the product of an integer from 1 on and of 1.2 is not below 1. *)

Module Numbers.

Import FloatOps SpecFloat.

Lemma digits2_pos_size (p : positive) : digits2_pos p = Pos.size p.
Proof. induction p as [p IH|p IH|]; simpl; now rewrite ?IH. Qed.

Lemma digits2_log2 (p : positive) : Zpos (digits2_pos p) = Z.log2 (Zpos p) + 1.
Proof.
  rewrite digits2_pos_size.
  destruct p as [p|p|]; cbn [Pos.size Z.log2]; lia.
Qed.

Lemma digits2_bounds (p : positive) :
  2 ^ (Zpos (digits2_pos p) - 1) <= Zpos p < 2 ^ Zpos (digits2_pos p).
Proof.
  rewrite digits2_log2. replace (Z.log2 (Z.pos p) + 1 - 1) with (Z.log2 (Zpos p)) by lia.
  replace (Z.log2 (Zpos p) + 1) with (Z.succ (Z.log2 (Zpos p))) by lia.
  apply Z.log2_spec. lia.
Qed.

Lemma digits2_unique (p : positive) (d : Z) :
  2 ^ (d - 1) <= Zpos p < 2 ^ d -> Zpos (digits2_pos p) = d.
Proof.
  intros Hb. rewrite digits2_log2.
  assert (0 < d).
  { destruct (Z.ltb_spec 0 d) as [|Hle]; [assumption|].
    exfalso. destruct Hb as [_ Hb].
    assert (2 ^ d <= 1).
    { destruct (Z.eq_dec d 0) as [->|]; [simpl; lia|].
      rewrite Z.pow_neg_r by lia. lia. }
    lia. }
  rewrite (Z.log2_unique (Zpos p) (d - 1)); [lia|lia|].
  replace (Z.succ (d - 1)) with d by lia. exact Hb.
Qed.

Lemma shr_1_m (mrs : shr_record) :
  0 <= shr_m mrs -> shr_m (shr_1 mrs) = Z.div2 (shr_m mrs).
Proof.
  destruct mrs as [m r s]. simpl. intros Hm.
  destruct m as [|[p|p|]|p]; try reflexivity; lia.
Qed.

Lemma shr_1_nonneg (mrs : shr_record) : 0 <= shr_m mrs -> 0 <= shr_m (shr_1 mrs).
Proof.
  intros Hm. rewrite shr_1_m by exact Hm. rewrite Z.div2_div.
  apply Z.div_pos; lia.
Qed.

Lemma iter_shr_m (n : positive) (mrs : shr_record) :
  0 <= shr_m mrs ->
  shr_m (iter_pos shr_1 n mrs) = shr_m mrs / 2 ^ Zpos n /\
  0 <= shr_m (iter_pos shr_1 n mrs).
Proof.
  revert mrs. induction n as [n IH|n IH|]; intros mrs Hm; simpl iter_pos.
  - pose proof (shr_1_nonneg mrs Hm) as H1.
    destruct (IH (shr_1 mrs) H1) as [E1 P1].
    destruct (IH _ P1) as [E2 P2].
    split; [|exact P2]. rewrite E2, E1, shr_1_m by exact Hm.
    rewrite Z.div2_div, !Z.div_div by (try apply Z.pow_pos_nonneg; lia).
    f_equal. change 2 with (2 ^ 1) at 1.
    rewrite <- !Z.pow_add_r by lia. f_equal. lia.
  - destruct (IH mrs Hm) as [E1 P1].
    destruct (IH _ P1) as [E2 P2].
    split; [|exact P2]. rewrite E2, E1.
    rewrite !Z.div_div by (try apply Z.pow_pos_nonneg; lia).
    f_equal. rewrite <- Z.pow_add_r by lia. f_equal. lia.
  - split; [|apply shr_1_nonneg, Hm]. rewrite shr_1_m by exact Hm.
    now rewrite Z.div2_div.
Qed.

Lemma round_nearest_even_cases (m : Z) (l : location) :
  round_nearest_even m l = m \/ round_nearest_even m l = m + 1.
Proof.
  destruct l as [|[]]; simpl; auto. destruct (Z.even m); auto.
Qed.

Lemma fexp_normal (x : Z) : -1021 <= x -> fexp prec emax x = x - 53.
Proof. unfold fexp, SpecFloat.emin, prec, emax. lia. Qed.

Lemma round_aux_finish (q : positive) (e : Z) (low : Z) (r : spec_float) :
  2 ^ 52 <= Zpos q <= 2 ^ 53 -> -1074 <= e -> low <= e ->
  r = (let '(mrs, e'') := shr_fexp prec emax (Zpos q) e loc_Exact in
       match shr_m mrs with
       | Z0 => S754_zero false
       | Zpos m =>
           if Z.leb e'' (emax - prec) then S754_finite false m e''
           else S754_infinity false
       | Zneg _ => S754_nan
       end) ->
  valid_binary prec emax r = true /\
  (r = S754_infinity false \/
   exists m e1, r = S754_finite false m e1 /\ low <= e1).
Proof.
  intros [Hlo Hhi] He Hlow ->.
  destruct (Z.eq_dec (Zpos q) (2 ^ 53)) as [Heq|Hne].
  - change (2 ^ 53) with (Zpos 9007199254740992) in Heq. injection Heq as ->.
    unfold shr_fexp. cbn [Zdigits2].
    change (Zpos (digits2_pos 9007199254740992)) with 54.
    rewrite fexp_normal by lia.
    replace (54 + e - 53 - e) with 1 by lia. cbn [shr shr_record_of_loc iter_pos shr_1 shr_m].
    destruct (Z.leb_spec (e + 1) (emax - prec)) as [Hle|Hgt].
    + split.
      * cbn [valid_binary]. unfold bounded, canonical_mantissa.
        change (Zpos (digits2_pos 4503599627370496)) with 53.
        rewrite fexp_normal by lia.
        apply andb_true_iff. split; [apply Z.eqb_eq; lia|apply Z.leb_le, Hle].
      * right. eexists _, _. split; [reflexivity|lia].
    + split; [reflexivity|now left].
  - assert (Hd : Zpos (digits2_pos q) = 53).
    { apply digits2_unique. change (53 - 1) with 52. lia. }
    unfold shr_fexp. cbn [Zdigits2]. rewrite Hd.
    rewrite fexp_normal by lia.
    replace (53 + e - 53 - e) with 0 by lia. cbn [shr shr_record_of_loc shr_m].
    destruct (Z.leb_spec e (emax - prec)) as [Hle|Hgt].
    + split.
      * cbn [valid_binary]. unfold bounded, canonical_mantissa. rewrite Hd.
        rewrite fexp_normal by lia.
        apply andb_true_iff. split; [apply Z.eqb_eq; lia|apply Z.leb_le, Hle].
      * right. eexists _, _. split; [reflexivity|lia].
    + split; [reflexivity|now left].
Qed.

Lemma round_aux_normal (M : positive) (E : Z) :
  53 <= Zpos (digits2_pos M) -> -1021 <= Zpos (digits2_pos M) + E ->
  valid_binary prec emax (binary_round_aux prec emax false (Zpos M) E loc_Exact) = true /\
  (binary_round_aux prec emax false (Zpos M) E loc_Exact = S754_infinity false \/
   exists m e,
     binary_round_aux prec emax false (Zpos M) E loc_Exact = S754_finite false m e /\
     Zpos (digits2_pos M) + E - 53 <= e).
Proof.
  intros Hd Hrange.
  pose proof (digits2_bounds M) as HM.
  set (d := Zpos (digits2_pos M)) in *.
  assert (Hstep : exists q,
            2 ^ 52 <= Zpos q <= 2 ^ 53 /\
            binary_round_aux prec emax false (Zpos M) E loc_Exact =
            (let '(mrs, e'') :=
               shr_fexp prec emax (Zpos q) (d + E - 53) loc_Exact in
             match shr_m mrs with
             | Z0 => S754_zero false
             | Zpos m =>
                 if Z.leb e'' (emax - prec) then S754_finite false m e''
                 else S754_infinity false
             | Zneg _ => S754_nan
             end)).
  { unfold binary_round_aux. unfold shr_fexp at 1. cbn [Zdigits2]. fold d.
    rewrite fexp_normal by lia.
    replace (d + E - 53 - E) with (d - 53) by lia.
    destruct (d - 53) as [|k|k] eqn:Hk; [| |lia].
    - cbn [shr shr_record_of_loc shr_m loc_of_shr_record round_nearest_even].
      exists M. split.
      + assert (Hd53 : d = 53) by lia. rewrite Hd53 in HM.
        change (53 - 1) with 52 in HM. lia.
      + replace (d + E - 53) with E by lia. reflexivity.
    - cbn [shr shr_record_of_loc].
      destruct (iter_shr_m k {| shr_m := Zpos M; shr_r := false; shr_s := false |})
        as [Hm _]; [simpl; lia|].
      cbn [shr_m] in Hm.
      set (mrs := iter_pos shr_1 k
                    {| shr_m := Zpos M; shr_r := false; shr_s := false |}) in *.
      assert (Hpow : 2 ^ (d - 1) = 2 ^ 52 * 2 ^ Zpos k /\ 2 ^ d = 2 ^ 53 * 2 ^ Zpos k).
      { split; rewrite <- Z.pow_add_r by lia; f_equal; lia. }
      destruct Hpow as [Hp1 Hp2].
      assert (Hpos : 0 < 2 ^ Zpos k) by (apply Z.pow_pos_nonneg; lia).
      assert (Hm' : 2 ^ 52 <= shr_m mrs < 2 ^ 53).
      { rewrite Hm. split.
        - apply Z.div_le_lower_bound; [exact Hpos|]. rewrite Z.mul_comm. lia.
        - apply Z.div_lt_upper_bound; [exact Hpos|]. rewrite Z.mul_comm. lia. }
      replace (E + Zpos k) with (d + E - 53) by lia.
      destruct (round_nearest_even_cases (shr_m mrs) (loc_of_shr_record mrs))
        as [Hr|Hr]; rewrite Hr.
      + destruct (shr_m mrs) as [|q|q] eqn:Hq; [lia| |lia].
        exists q. split; [lia|reflexivity].
      + destruct (shr_m mrs + 1) as [|q|q] eqn:Hq; [lia| |lia].
        exists q. split; [lia|reflexivity]. }
  destruct Hstep as (q & Hq & Hstep).
  apply (round_aux_finish q (d + E - 53) (d + E - 53) _ Hq); [lia|lia|exact Hstep].
Qed.

Lemma iter_xO (p k : positive) : Zpos (Pos.iter xO p k) = Zpos p * 2 ^ Zpos k.
Proof.
  induction k as [|k IH] using Pos.peano_ind.
  - simpl. lia.
  - rewrite Pos.iter_succ, Pos2Z.inj_xO, IH, Pos2Z.inj_succ, Z.pow_succ_r by lia. ring.
Qed.

(** An integer from 1 on, as a number: finite or infinite, never below 1. *)
Lemma normalize_ge_one (p : positive) :
  valid_binary prec emax (binary_normalize prec emax (Zpos p) 0 false) = true /\
  (binary_normalize prec emax (Zpos p) 0 false = S754_infinity false \/
   exists m e,
     binary_normalize prec emax (Zpos p) 0 false = S754_finite false m e /\
     -52 <= e).
Proof.
  unfold binary_normalize, binary_round.
  pose proof (digits2_bounds p) as Hp.
  set (d := Zpos (digits2_pos p)) in *.
  assert (Hd : 1 <= d) by (subst d; lia).
  replace (d + 0) with d by lia. rewrite fexp_normal by lia.
  unfold shl_align. replace (d - 53 - 0) with (d - 53) by lia.
  destruct (d - 53) as [|k|k] eqn:Hk.
  - destruct (round_aux_normal p 0) as [Hv Hr]; fold d; [lia|lia|].
    split; [exact Hv|]. destruct Hr as [Hr|(m & e & Hr & He)]; [now left|].
    right. exists m, e. split; [exact Hr|]. fold d in He. lia.
  - destruct (round_aux_normal p 0) as [Hv Hr]; fold d; [lia|lia|].
    split; [exact Hv|]. destruct Hr as [Hr|(m & e & Hr & He)]; [now left|].
    right. exists m, e. split; [exact Hr|]. fold d in He. lia.
  - assert (Hdigits : Zpos (digits2_pos (Pos.iter xO p k)) = 53).
    { apply digits2_unique. rewrite iter_xO.
      assert (Hpos : 0 < 2 ^ Zpos k) by (apply Z.pow_pos_nonneg; lia).
      assert (H52 : 2 ^ (53 - 1) = 2 ^ (d - 1) * 2 ^ Zpos k)
        by (rewrite <- Z.pow_add_r by lia; f_equal; lia).
      assert (H53 : 2 ^ 53 = 2 ^ d * 2 ^ Zpos k)
        by (rewrite <- Z.pow_add_r by lia; f_equal; lia).
      rewrite H52, H53. split.
      - apply Z.mul_le_mono_nonneg_r; lia.
      - apply Z.mul_lt_mono_pos_r; lia. }
    destruct (round_aux_normal (Pos.iter xO p k) (Z.neg k)) as [Hv Hr];
      rewrite ?Hdigits; [lia|lia|].
    split; [exact Hv|]. destruct Hr as [Hr|(m & e & Hr & He)]; [now left|].
    right. exists m, e. split; [exact Hr|]. rewrite Hdigits in He. lia.
Qed.

Lemma valid_normal_digits (m : positive) (e : Z) :
  valid_binary prec emax (S754_finite false m e) = true -> -1074 < e ->
  Zpos (digits2_pos m) = 53.
Proof.
  cbn [valid_binary]. unfold bounded, canonical_mantissa.
  intros Hv He. apply andb_true_iff in Hv as [Hc _]. apply Z.eqb_eq in Hc.
  unfold fexp, SpecFloat.emin, prec, emax in Hc. lia.
Qed.

(** The product of a number from 1 on and a number in [1, 2) is not below 1. *)
Lemma mul_ge_one (x : spec_float) (c : positive) :
  valid_binary prec emax x = true ->
  (x = S754_infinity false \/ exists m e, x = S754_finite false m e /\ -52 <= e) ->
  Zpos (digits2_pos c) = 53 ->
  SFltb (SFmul prec emax x (S754_finite false c (-52)))
        (S754_finite false 4503599627370496 (-52)) = false.
Proof.
  intros Hv Hx Hc. destruct Hx as [->|(m & e & -> & He)]; [reflexivity|].
  pose proof (valid_normal_digits m e Hv ltac:(lia)) as Hm.
  cbn [SFmul xorb].
  pose proof (digits2_bounds m) as Bm. pose proof (digits2_bounds c) as Bc.
  rewrite Hm in Bm. rewrite Hc in Bc. change (53 - 1) with 52 in Bm, Bc.
  pose proof (digits2_bounds (m * c)) as Bmc.
  assert (Hd : 105 <= Zpos (digits2_pos (m * c))).
  { destruct (Z.lt_ge_cases (Zpos (digits2_pos (m * c))) 105) as [Hlt|]; [|assumption].
    exfalso. destruct Bmc as [_ Bmc].
    assert (2 ^ Zpos (digits2_pos (m * c)) <= 2 ^ 104)
      by (apply Z.pow_le_mono_r; lia).
    assert (2 ^ 52 * 2 ^ 52 <= Zpos m * Zpos c) by (apply Z.mul_le_mono_nonneg; lia).
    change (2 ^ 52 * 2 ^ 52) with (2 ^ 104) in *.
    rewrite Pos2Z.inj_mul in Bmc. lia. }
  destruct (round_aux_normal (m * c) (e + -52)) as [Hv' Hr]; [lia|lia|].
  destruct Hr as [->|(m' & e' & Hr & He')]; [reflexivity|].
  rewrite Hr in *.
  pose proof (valid_normal_digits m' e' Hv' ltac:(lia)) as Hm'.
  pose proof (digits2_bounds m') as Bm'. rewrite Hm' in Bm'.
  change (53 - 1) with 52 in Bm'.
  unfold SFltb, SFcompare.
  destruct (Z.compare_spec e' (-52)) as [Heq|Hlt|Hgt]; [|lia|reflexivity].
  rewrite Pos.compare_cont_spec. cbn [Pos.switch_Eq].
  destruct (Pos.compare_spec m' 4503599627370496) as [Hq|Hq|Hq]; try reflexivity.
  exfalso. apply Pos2Z.pos_lt_pos in Hq.
  change (Zpos 4503599627370496) with (2 ^ 52) in Hq. lia.
Qed.

(** The product of an integer from 1 on and the variance is not below 1. *)
Lemma effectiveBitrate_ge_one (b : Z) :
  0 < b -> PrimFloat.ltb (effectiveBitrate b) (toNumber 1) = false.
Proof.
  intros Hb. destruct b as [|p|p]; try lia. unfold effectiveBitrate.
  rewrite FloatAxioms.ltb_spec, FloatAxioms.mul_spec.
  destruct (normalize_ge_one p) as [Hv Hshape].
  unfold toNumber at 1. rewrite (FloatAxioms.Prim2SF_SF2Prim _ Hv).
  change (Prim2SF bandwidthVariance)
    with (S754_finite false 5404319552844595 (-52)).
  change (Prim2SF (toNumber 1))
    with (S754_finite false 4503599627370496 (-52)).
  apply mul_ge_one; [exact Hv|exact Hshape|reflexivity].
Qed.

End Numbers.

(** ** The bandwidth candidate *)

Lemma declaredBandwidth_of (p : Playlist) (a : Attributes) (b : Z) :
  attributes p = Some a -> BANDWIDTH a = Some b -> b <> 0 ->
  declaredBandwidth p = Some b.
Proof.
  intros Ha Hb Hnz. unfold declaredBandwidth, JS.truthyZ. rewrite Ha, Hb.
  destruct (Z.eqb_spec b 0); [contradiction|reflexivity].
Qed.

Lemma bandwidthEligible_declared (bandwidth : Z) (p : Playlist) :
  bandwidthEligible bandwidth p = true ->
  exists b, declaredBandwidth p = Some b /\
            PrimFloat.ltb (effectiveBitrate b) (toNumber bandwidth) = true.
Proof.
  unfold bandwidthEligible. destruct (declaredBandwidth p) as [b|]; [|discriminate].
  intros Hlt. exists b. split; [reflexivity|exact Hlt].
Qed.

Lemma sortedPlaylists_ascending (playlists : list Playlist) :
  StronglySorted (fun a b => bandwidthKey a <= bandwidthKey b)
    (Array_sort (onVariants comparePlaylistBandwidth) (imap pair playlists)).
Proof. apply Array_sort_sorted, comparePlaylistBandwidth_key. Qed.

Lemma StronglySorted_filter {A : Type} (R : A -> A -> Prop) (f : A -> bool) (l : list A) :
  StronglySorted R l -> StronglySorted R (List.filter f l).
Proof.
  induction l as [|x l IH]; simpl; intros Hs; [constructor|].
  apply StronglySorted_inv in Hs as [Hl Hx].
  destruct (f x); [|apply IH, Hl].
  constructor; [apply IH, Hl|].
  rewrite List.Forall_forall in Hx |- *. intros y Hy.
  apply filter_In in Hy as [Hy _]. apply Hx, Hy.
Qed.

Lemma bandwidthBestVariant_greatest (now bandwidth : Z) (playlists : list Playlist)
    (v : Variant) :
  bandwidthBestVariant now bandwidth playlists = Some v ->
  In v (bandwidthPlaylists now bandwidth playlists) /\
  forall w, In w (bandwidthPlaylists now bandwidth playlists) ->
            bandwidthKey w <= bandwidthKey v.
Proof.
  unfold bandwidthBestVariant. intros Hhd. split; [apply head_In, Hhd|].
  unfold bandwidthPlaylists in *.
  apply (last_passing_is_greatest bandwidthKey) in Hhd as (_ & _ & Hmax).
  - intros w Hw. apply filter_In in Hw as [Hw Hfw]. apply in_rev in Hw.
    apply Hmax; assumption.
  - apply StronglySorted_filter, sortedPlaylists_ascending.
Qed.

(** With a single variant that fits the bandwidth, that variant is chosen,
    whatever the size of the player. *)
Lemma selectVariant_single_candidate (playlists : list Playlist) (bandwidth : Z)
    (width height : option Z) (now : Z) (v : Variant) :
  bandwidthPlaylists now bandwidth playlists = [v] ->
  selectVariant playlists bandwidth width height now = Some v.
Proof.
  intros Hone. unfold selectVariant, bandwidthBestVariant. rewrite Hone.
  change (rev (Array_sort (onVariants comparePlaylistResolution) [v])) with [v].
  change (head [v]) with (Some v).
  destruct (resolutionLoop width height [v] None None) as [plusOne best] eqn:Hloop.
  apply (resolutionLoop_from_visit (fun w => w = v)) in Hloop;
    [|constructor; [reflexivity|constructor]|discriminate|discriminate].
  destruct Hloop as [Hp Hb].
  destruct plusOne as [w|]; simpl; [f_equal; apply Hp; reflexivity|].
  destruct best as [w|]; simpl; [f_equal; apply Hb; reflexivity|reflexivity].
Qed.

Lemma bandwidthPlaylists_500k_2000k (lo hi : Playlist) (now : Z) :
  declaredBandwidth lo = Some 500000 -> declaredBandwidth hi = Some 2000000 ->
  excludeUntil lo = None -> excludeUntil hi = None ->
  bandwidthPlaylists now 1000000 [lo; hi] = [(0%nat, lo)] /\
  bandwidthPlaylists now 1000000 [hi; lo] = [(1%nat, lo)].
Proof.
  intros Hlo Hhi Hxlo Hxhi.
  assert (Helo : bandwidthEligible 1000000 lo = true)
    by (unfold bandwidthEligible; rewrite Hlo; reflexivity).
  assert (Hehi : bandwidthEligible 1000000 hi = false)
    by (unfold bandwidthEligible; rewrite Hhi; reflexivity).
  assert (Hklo : notExcluded now lo = true) by (unfold notExcluded; now rewrite Hxlo).
  assert (Hkhi : notExcluded now hi = true) by (unfold notExcluded; now rewrite Hxhi).
  unfold bandwidthPlaylists, sortedPlaylists, onVariants, comparePlaylistBandwidth.
  split; simpl; rewrite Hlo, Hhi; simpl; rewrite ?Hklo, ?Hkhi; simpl;
    rewrite ?Helo, ?Hehi; simpl; rewrite ?Helo, ?Hehi; reflexivity.
Qed.

(** The product is a number, rounded to the nearest one: 4000000000000004
    times the variance is 4800000000000005, which is not below the estimate
    4800000000000005, although six fifths of 4000000000000004 are less. *)
Lemma effectiveBitrate_is_rounded :
  effectiveBitrate 4000000000000004 = toNumber 4800000000000005 /\
  4000000000000004 * 6 < 4800000000000005 * 5 /\
  bandwidthEligible 4800000000000005
    (Sample.rendition "high.m3u8" 4000000000000004 None) = false /\
  bandwidthEligible 4800000000000006
    (Sample.rendition "high.m3u8" 4000000000000004 None) = true.
Proof. repeat split; reflexivity. Qed.

(** C4, as the code has it. A playlist that declares the bit rate 0 is left
    out of the candidates although 0 times 1.2 lies below the estimate 1. *)
Lemma zero_bitrate_is_not_a_candidate :
  (attributes (Sample.rendition "zero.m3u8" 0 None) ≫= BANDWIDTH) = Some 0 /\
  PrimFloat.ltb (effectiveBitrate 0) (toNumber 1) = true /\
  bandwidthPlaylists 0 1 [Sample.rendition "zero.m3u8" 0 None] = [] /\
  ~ In (0%nat, Sample.rendition "zero.m3u8" 0 None)
       (bandwidthPlaylists 0 1 [Sample.rendition "zero.m3u8" 0 None]).
Proof.
  split; [reflexivity|]. split; [reflexivity|]. split; [reflexivity|].
  intros Hin. exact Hin.
Qed.

(** C4, amended. In [selectPlaylist] a playlist that is not excluded and
    declares a bit rate other than 0 is a bandwidth candidate exactly when
    its bit rate times 1.2, the product of the two numbers as binary64
    arithmetic gives it, lies strictly below the bandwidth estimate; the
    bandwidth candidate kept is one of the highest bit rate among them; and
    with two playlists of 500000 and 2000000, none excluded, and the
    estimate 1000000, the one of 500000 is selected. *)
Theorem bandwidth_candidate_is_highest_eligible
    (variants : list Playlist) (estimate now : Z) :
  (forall (r : PlaylistRef) (p : Playlist) (a : Attributes) (b : Z),
      variants !! r = Some p -> notExcluded now p = true ->
      attributes p = Some a -> BANDWIDTH a = Some b -> b <> 0 ->
      (In (r, p) (bandwidthPlaylists now estimate variants) <->
       PrimFloat.ltb (toNumber b * bandwidthVariance) (toNumber estimate) = true)) /\
  (forall v : Variant,
      bandwidthBestVariant now estimate variants = Some v ->
      In v (bandwidthPlaylists now estimate variants) /\
      exists bv,
        declaredBandwidth (snd v) = Some bv /\
        forall w, In w (bandwidthPlaylists now estimate variants) ->
                  exists bw, declaredBandwidth (snd w) = Some bw /\ bw <= bv) /\
  (bandwidthPlaylists now estimate variants <> [] ->
   exists v, bandwidthBestVariant now estimate variants = Some v) /\
  (forall (st : HlsHandler) (loader : PlaylistLoader) (lo hi : Playlist)
          (alo ahi : Attributes),
      playlists st = Some loader -> (bandwidth st) = 1000000 ->
      attributes lo = Some alo -> BANDWIDTH alo = Some 500000 ->
      attributes hi = Some ahi -> BANDWIDTH ahi = Some 2000000 ->
      excludeUntil lo = None -> excludeUntil hi = None ->
      (master loader = Some [lo; hi] -> selectPlaylist st = Normal (Some 0%nat) st) /\
      (master loader = Some [hi; lo] -> selectPlaylist st = Normal (Some 1%nat) st)).
Proof.
  split; [|split; [|split]].
  - intros r p a b Hr Hkeep Ha Hb Hnz.
    rewrite In_bandwidthPlaylists, In_sortedPlaylists. simpl.
    unfold bandwidthEligible. rewrite (declaredBandwidth_of p a b Ha Hb Hnz).
    unfold effectiveBitrate. tauto.
  - intros v Hbest.
    apply bandwidthBestVariant_greatest in Hbest as [Hin Hmax].
    split; [exact Hin|].
    assert (Hdecl : forall w, In w (bandwidthPlaylists now estimate variants) ->
                              exists b, declaredBandwidth (snd w) = Some b).
    { intros w Hw. apply In_bandwidthPlaylists in Hw as [_ Hw].
      apply bandwidthEligible_declared in Hw as (b & Hb & _). eauto. }
    destruct (Hdecl v Hin) as [bv Hbv]. exists bv. split; [exact Hbv|].
    intros w Hw. destruct (Hdecl w Hw) as [bw Hbw]. exists bw. split; [exact Hbw|].
    specialize (Hmax w Hw). unfold bandwidthKey in Hmax.
    rewrite Hbv, Hbw in Hmax. exact Hmax.
  - unfold bandwidthBestVariant.
    destruct (bandwidthPlaylists now estimate variants) as [|v t]; [congruence|].
    intros _. exists v. reflexivity.
  - intros st loader lo hi alo ahi Hl Hbw Halo Hblo Hahi Hbhi Hxlo Hxhi.
    assert (Hlo : declaredBandwidth lo = Some 500000)
      by (apply (declaredBandwidth_of lo alo); [assumption|assumption|lia]).
    assert (Hhi : declaredBandwidth hi = Some 2000000)
      by (apply (declaredBandwidth_of hi ahi); [assumption|assumption|lia]).
    destruct (bandwidthPlaylists_500k_2000k lo hi (clock st) Hlo Hhi Hxlo Hxhi)
      as [H1 H2].
    unfold selectPlaylist. rewrite Hl, Hbw.
    split; intros Hm; rewrite Hm;
      [rewrite (selectVariant_single_candidate _ _ _ _ _ _ H1)
      |rewrite (selectVariant_single_candidate _ _ _ _ _ _ H2)]; reflexivity.
Qed.

Lemma bandwidth_candidate_is_highest_eligible_witness :
  selectPlaylist
    (set_bandwidth 1000000
       (Sample.handler 0 []
          [Sample.rendition "low.m3u8" 500000 None;
           Sample.rendition "high.m3u8" 2000000 None] None 0)) =
  Normal (Some 0%nat)
    (set_bandwidth 1000000
       (Sample.handler 0 []
          [Sample.rendition "low.m3u8" 500000 None;
           Sample.rendition "high.m3u8" 2000000 None] None 0)).
Proof.
  apply (proj1 (proj2 (proj2 (proj2 (bandwidth_candidate_is_highest_eligible [] 0 0)))
                 (set_bandwidth 1000000
                    (Sample.handler 0 []
                       [Sample.rendition "low.m3u8" 500000 None;
                        Sample.rendition "high.m3u8" 2000000 None] None 0))
                 _
                 (Sample.rendition "low.m3u8" 500000 None)
                 (Sample.rendition "high.m3u8" 2000000 None)
                 _ _ eq_refl eq_refl eq_refl eq_refl eq_refl eq_refl eq_refl eq_refl)
           eq_refl).
Defined.

(** ** The engine: filling, seeking, failover, keys *)

Section Engine.

Context `{External}.

Lemma fetchKey_frame (segment : Segment) (st : HlsHandler) :
  let st' := state_of (fetchKey_ segment st) in
  segmentRequests st' = segmentRequests st /\
  segmentXhr_ st' = segmentXhr_ st /\
  pendingSegment_ st' = pendingSegment_ st /\
  playlists st' = playlists st /\
  keys st' = keys st.
Proof.
  unfold fetchKey_. destruct (JS.defined (keyXhr_ st)); simpl; [auto|].
  destruct (keyOf segment st) as [[k key]|]; simpl; [|auto].
  destruct (negb (JS.defined (key_bytes key)) && negb (keyFailed key)); simpl; [|auto].
  destruct (playlistUriToUrl (key_uri key) st); simpl; auto.
Qed.

Lemma loadSegment_outcome (segmentInfo : SegmentInfo) (st : HlsHandler) :
  fillOutcome st (loadSegment segmentInfo st).
Proof.
  unfold loadSegment.
  destruct (playlistOf segmentInfo st) as [[playlist segs]|];
    [|right; right; exists st; auto].
  cbv zeta.
  match goal with
  | |- fillOutcome st (match _ with Some _ => _ | None => TypeError ?s end) =>
      set (st1 := s)
  end.
  assert (Hst1 : segmentRequests st1 = segmentRequests st /\
                 segmentXhr_ st1 = segmentXhr_ st /\
                 pendingSegment_ st1 = pendingSegment_ st).
  { subst st1. destruct (sourceBuffer st) as [sb|]; [|auto].
    destruct (negb (updating sb)); [|auto].
    match goal with
    | |- context [if ?c then _ else _] => destruct c; auto
    end. }
  destruct Hst1 as (Hreq & Hxhr & Hpend).
  destruct (JS.index segs (si_mediaIndex segmentInfo)) as [segment|];
    [|right; right; exists st1; auto].
  unfold bind.
  set (fetch := if JS.defined (keyOf segment st1) then fetchKey_ segment else ret tt).
  assert (Hfetch : segmentRequests (state_of (fetch st1)) = segmentRequests st1 /\
                   segmentXhr_ (state_of (fetch st1)) = segmentXhr_ st1 /\
                   pendingSegment_ (state_of (fetch st1)) = pendingSegment_ st1).
  { subst fetch. destruct (JS.defined (keyOf segment st1)); [|simpl; auto].
    destruct (fetchKey_frame segment st1) as (H1 & H2 & H3 & _). auto. }
  destruct (fetch st1) as [[] st2|st2]; simpl in Hfetch;
    destruct Hfetch as (Hreq2 & Hxhr2 & Hpend2).
  - right; left. eexists. split; [reflexivity|]. split; [reflexivity|].
    unfold segmentRequests in *. simpl. congruence.
  - right; right. exists st2. repeat split; congruence.
Qed.

Lemma fillOutcome_refl (st : HlsHandler) : fillOutcome st (Normal tt st).
Proof. left. reflexivity. Qed.

Lemma fillBufferFrom_outcome (loader : PlaylistLoader) (playlistRef : PlaylistRef)
    (playlist : Playlist) (upcoming : list Segment) (mediaIndex : Z)
    (currentBufferedEnd : float) (st : HlsHandler) :
  fillOutcome st
    (fillBufferFrom loader playlistRef playlist upcoming mediaIndex
       currentBufferedEnd st).
Proof.
  revert mediaIndex currentBufferedEnd.
  induction upcoming as [|segment rest IH]; intros mediaIndex currentBufferedEnd;
    simpl; [apply fillOutcome_refl|].
  destruct (playlistUriToUrl (seg_uri segment) st) as [url|];
    [|right; right; exists st; auto].
  match goal with
  | |- context [if ?c then _ else _] => destruct c
  end; [apply IH|apply loadSegment_outcome].
Qed.

Lemma fillBuffer_outcome (mediaIndex : option Z) (st : HlsHandler) :
  fillOutcome st (fillBuffer mediaIndex st).
Proof.
  unfold fillBuffer.
  repeat match goal with
         | |- fillOutcome _ (Normal tt _) => apply fillOutcome_refl
         | |- fillOutcome _ (fillBufferFrom _ _ _ _ _ _ _) => apply fillBufferFrom_outcome
         | |- fillOutcome _ (match ?x with _ => _ end) => destruct x
         | |- fillOutcome _ (if ?x then _ else _) => destruct x
         end.
Qed.

(** *** [fillBuffer] completes normally *)

Lemma playlistUriToUrl_defined (relative : string) (st : HlsHandler)
    (loader : PlaylistLoader) (m : Playlist) :
  playlists st = Some loader -> media loader = Some m ->
  exists url, playlistUriToUrl relative st = Some url.
Proof.
  intros Hl Hm. unfold playlistUriToUrl. rewrite Hl, Hm.
  destruct (pl_uri m) as [u|]; [destruct (String.eqb u (source_src st))|]; eauto.
Qed.

Lemma fetchKey_normal (segment : Segment) (st : HlsHandler)
    (loader : PlaylistLoader) (m : Playlist) :
  playlists st = Some loader -> media loader = Some m ->
  exists st', fetchKey_ segment st = Normal tt st'.
Proof.
  intros Hl Hm. unfold fetchKey_.
  destruct (JS.defined (keyXhr_ st)); [eauto|].
  destruct (keyOf segment st) as [[k key]|]; [|eauto].
  destruct (negb (JS.defined (key_bytes key)) && negb (keyFailed key)); [|eauto].
  destruct (playlistUriToUrl_defined (key_uri key) st loader m Hl Hm) as [url Hurl].
  rewrite Hurl. eauto.
Qed.

Lemma loadSegment_normal (segmentInfo : SegmentInfo) (st : HlsHandler)
    (loader : PlaylistLoader) (m : Playlist) :
  playlists st = Some loader -> media loader = Some m ->
  JS.defined (segmentOf segmentInfo st) = true ->
  exists st', loadSegment segmentInfo st = Normal tt st'.
Proof.
  intros Hl Hm Hseg. unfold loadSegment. unfold segmentOf in Hseg.
  destruct (playlistOf segmentInfo st) as [[playlist segs]|]; [|discriminate].
  cbv zeta.
  match goal with
  | |- exists _, match _ with Some _ => _ | None => TypeError ?s end = _ =>
      set (st1 := s)
  end.
  assert (Hl1 : playlists st1 = Some loader).
  { subst st1. rewrite <- Hl. destruct (sourceBuffer st) as [sb|]; [|reflexivity].
    destruct (negb (updating sb)); [|reflexivity].
    match goal with
    | |- context [if ?c then _ else _] => destruct c; reflexivity
    end. }
  destruct (JS.index segs (si_mediaIndex segmentInfo)) as [segment|];
    [|discriminate].
  unfold bind.
  destruct (JS.defined (keyOf segment st1)).
  - destruct (fetchKey_normal segment st1 loader m Hl1 Hm) as [st2 Hst2].
    rewrite Hst2. simpl. eauto.
  - simpl. eauto.
Qed.

Lemma fillBufferFrom_normal (loader : PlaylistLoader) (playlistRef : PlaylistRef)
    (playlist : Playlist) (segs : list Segment) (st : HlsHandler)
    (upcoming : list Segment) (n : nat) (currentBufferedEnd : float) :
  playlists st = Some loader -> mediaRef loader = Some playlistRef ->
  media loader = Some playlist -> segments playlist = Some segs ->
  upcoming = drop n segs ->
  exists st',
    fillBufferFrom loader playlistRef playlist upcoming (Z.of_nat n)
      currentBufferedEnd st = Normal tt st'.
Proof.
  intros Hl Hr Hm Hsegs. revert n currentBufferedEnd.
  induction upcoming as [|segment rest IH]; intros n currentBufferedEnd Hup; simpl;
    [eauto|].
  destruct (playlistUriToUrl_defined (seg_uri segment) st loader playlist Hl Hm)
    as [url Hurl].
  rewrite Hurl.
  assert (Hn : segs !! n = Some segment).
  { rewrite <- (Nat.add_0_r n), <- lookup_drop, <- Hup. reflexivity. }
  match goal with
  | |- context [if ?c then _ else _] => destruct c
  end.
  - replace (Z.of_nat n + 1) with (Z.of_nat (S n)) by lia.
    apply IH. rewrite (drop_S segs segment n Hn) in Hup. now injection Hup.
  - apply (loadSegment_normal _ st loader playlist Hl Hm).
    unfold segmentOf, playlistOf. simpl. rewrite Hl.
    assert (Hd : deref loader playlistRef = Some playlist).
    { unfold media in Hm. now rewrite Hr in Hm. }
    rewrite Hd, Hsegs. unfold JS.index.
    destruct (Z.ltb_spec (Z.of_nat n) 0) as [Hneg|_]; [lia|].
    now rewrite Nat2Z.id, Hn.
Qed.

Lemma fillBufferFrom_normal_at (loader : PlaylistLoader) (playlistRef : PlaylistRef)
    (playlist : Playlist) (segs : list Segment) (st : HlsHandler)
    (index : Z) (currentBufferedEnd : float) :
  playlists st = Some loader -> mediaRef loader = Some playlistRef ->
  media loader = Some playlist -> segments playlist = Some segs ->
  exists st',
    fillBufferFrom loader playlistRef playlist (segmentsFrom segs index) index
      currentBufferedEnd st = Normal tt st'.
Proof.
  intros Hl Hr Hm Hsegs. unfold segmentsFrom.
  destruct (Z.ltb_spec index 0) as [Hneg|Hpos]; [simpl; eauto|].
  destruct (fillBufferFrom_normal loader playlistRef playlist segs st
              (drop (Z.to_nat index) segs) (Z.to_nat index) currentBufferedEnd
              Hl Hr Hm Hsegs eq_refl) as [st' Hst'].
  rewrite Z2Nat.id in Hst' by exact Hpos. eauto.
Qed.

Lemma fillBuffer_normal (mediaIndex : option Z) (st : HlsHandler) :
  exists st', fillBuffer mediaIndex st = Normal tt st'.
Proof.
  unfold fillBuffer.
  destruct (loadingState_ st); eauto.
  destruct (playlists st) as [loader|] eqn:Hl; [|eauto].
  destruct (String.eqb (currentSrc (tech_ st)) ""); [eauto|].
  destruct (JS.defined (segmentXhr_ st)); [eauto|].
  destruct (JS.defined (pendingSegment_ st)); [eauto|].
  destruct (isState HAVE_NOTHING (state loader)); [eauto|].
  destruct (mediaRef loader) as [playlistRef|] eqn:Hr; [|eauto].
  destruct (media loader) as [playlist|] eqn:Hm; [|eauto].
  destruct (segments playlist) as [segs|] eqn:Hsegs; [|eauto].
  destruct (isState SWITCHING_MEDIA (state loader)); [eauto|].
  destruct mediaIndex as [index|].
  - apply (fillBufferFrom_normal_at loader playlistRef playlist segs); auto.
  - destruct (findBufferedRange_ None st) as [|[start0 end0] found].
    + apply (fillBufferFrom_normal_at loader playlistRef playlist segs); auto.
    + match goal with
      | |- context [if ?c then _ else _] => destruct c
      end; [eauto|].
      apply (fillBufferFrom_normal_at loader playlistRef playlist segs); auto.
Qed.

(** The guards on a request in flight and on a pending segment. *)
Lemma fillBuffer_busy (mediaIndex : option Z) (st : HlsHandler) :
  JS.defined (segmentXhr_ st) = true \/ JS.defined (pendingSegment_ st) = true ->
  fillBuffer mediaIndex st = Normal tt st.
Proof.
  intros Hbusy. unfold fillBuffer.
  destruct (loadingState_ st); try reflexivity.
  destruct (playlists st) as [loader|]; [|reflexivity].
  destruct (String.eqb (currentSrc (tech_ st)) ""); [reflexivity|].
  destruct (JS.defined (segmentXhr_ st)); [reflexivity|].
  destruct (JS.defined (pendingSegment_ st)); [reflexivity|].
  destruct Hbusy; discriminate.
Qed.

(** C8. [fillBuffer] returns without a request, and without any other
    effect, whenever a segment request is in flight or a pending segment
    exists; two calls in a row make at most one segment request; and when the
    first call makes one, the second call does nothing, so exactly one
    request is outstanding. From every state [fillBuffer] returns. *)
Theorem fillBuffer_single_flight :
  (forall (mediaIndex : option Z) (st : HlsHandler),
      JS.defined (segmentXhr_ st) = true \/ JS.defined (pendingSegment_ st) = true ->
      fillBuffer mediaIndex st = Normal tt st) /\
  (forall (first second : option Z) (st : HlsHandler),
      segmentRequests (state_of (fillBuffer second (state_of (fillBuffer first st))))
      <= S (segmentRequests st))%nat /\
  (forall (first second : option Z) (st : HlsHandler),
      segmentRequests (state_of (fillBuffer first st)) <> segmentRequests st ->
      let st1 := state_of (fillBuffer first st) in
      JS.defined (segmentXhr_ st1) = true /\
      segmentRequests st1 = S (segmentRequests st) /\
      fillBuffer second st1 = Normal tt st1) /\
  (forall (mediaIndex : option Z) (st : HlsHandler),
      exists st', fillBuffer mediaIndex st = Normal tt st').
Proof.
  split; [exact fillBuffer_busy|]. split; [|split; [|exact fillBuffer_normal]].
  - intros first second st.
    destruct (fillBuffer_outcome first st) as [H1|[(st1 & H1 & Hx & Hn)|(st1 & H1 & Hn & _)]];
      rewrite H1; simpl.
    + destruct (fillBuffer_outcome second st)
        as [H2|[(st2 & H2 & _ & Hn2)|(st2 & H2 & Hn2 & _)]]; rewrite H2; simpl; lia.
    + rewrite (fillBuffer_busy second st1) by (left; exact Hx). simpl. lia.
    + destruct (fillBuffer_outcome second st1)
        as [H2|[(st2 & H2 & _ & Hn2)|(st2 & H2 & Hn2 & _)]]; rewrite H2; simpl; lia.
  - intros first second st.
    destruct (fillBuffer_outcome first st) as [H1|[(st1 & H1 & Hx & Hn)|(st1 & H1 & Hn & _)]];
      rewrite H1; simpl; intros Hne.
    + congruence.
    + split; [exact Hx|]. split; [exact Hn|].
      apply fillBuffer_busy. left. exact Hx.
    + congruence.
Qed.

(** ** Seeking *)


(** ** Failover *)

Lemma sortedPlaylists_nil_iff (now : Z) (pls : list Playlist) :
  sortedPlaylists now pls = [] <->
  forall r p, pls !! r = Some p -> notExcluded now p = false.
Proof.
  split.
  - intros Hnil r p Hr. destruct (notExcluded now p) eqn:Hk; [|reflexivity].
    assert (Hin : In (r, p) (sortedPlaylists now pls))
      by (apply In_sortedPlaylists; auto).
    rewrite Hnil in Hin. destruct Hin.
  - intros Hall. destruct (sortedPlaylists now pls) as [|[r p] t] eqn:Hs;
      [reflexivity|].
    assert (Hin : In (r, p) (sortedPlaylists now pls)) by (rewrite Hs; now left).
    apply In_sortedPlaylists in Hin as [Hr Hk]. simpl in Hr, Hk.
    rewrite (Hall r p Hr) in Hk. discriminate.
Qed.


Lemma selectPlaylist_returns_kept (st st' : HlsHandler) (selected : option PlaylistRef) :
  selectPlaylist st = Normal selected st' ->
  st' = st /\
  forall r, selected = Some r ->
    exists loader pls p,
      playlists st = Some loader /\ master loader = Some pls /\
      pls !! r = Some p /\ notExcluded (clock st) p = true.
Proof.
  unfold selectPlaylist.
  destruct (playlists st) as [loader|]; [|discriminate].
  destruct (master loader) as [pls|] eqn:Hm; [|discriminate].
  intros Hret. injection Hret as <- <-. split; [reflexivity|].
  intros r Hsel.
  destruct (selectVariant pls _ _ _ _) as [[r' p]|] eqn:Hv; simpl in Hsel;
    [|discriminate].
  injection Hsel as ->.
  apply selectVariant_In_sorted, In_sortedPlaylists in Hv as [Hr Hkeep].
  exists loader, pls, p. auto.
Qed.




(** ** Keys *)













Lemma keyOf_lookup (segment : Segment) (st : HlsHandler) (k : KeyRef) (key : Key) :
  keyOf segment st = Some (k, key) -> keys st !! k = Some key.
Proof.
  unfold keyOf. destruct (seg_key segment) as [k'|]; [|discriminate].
  destruct (keys st !! k') as [key'|] eqn:Hk; [|discriminate].
  intros Heq. injection Heq as <- <-. exact Hk.
Qed.
































End Engine.

(** ** The statements on the sample data *)

Lemma fillBuffer_single_flight_witness :
  JS.defined
    (segmentXhr_
       (state_of (@fillBuffer Sample.ext None
                    (Sample.handler 0 [] [Sample.media] (Some 0%nat) 0)))) = true /\
  segmentRequests
    (state_of (@fillBuffer Sample.ext None
                 (Sample.handler 0 [] [Sample.media] (Some 0%nat) 0))) = 1%nat /\
  @fillBuffer Sample.ext (Some 1)
    (state_of (@fillBuffer Sample.ext None
                 (Sample.handler 0 [] [Sample.media] (Some 0%nat) 0))) =
  Normal tt
    (state_of (@fillBuffer Sample.ext None
                 (Sample.handler 0 [] [Sample.media] (Some 0%nat) 0))).
Proof.
  apply (proj1 (proj2 (proj2 (@fillBuffer_single_flight Sample.ext))) None (Some 1)
           (Sample.handler 0 [] [Sample.media] (Some 0%nat) 0)).
  vm_compute. discriminate.
Defined.





(** On the sample data the two requests are made, and the key has failed. *)
Example key_fetch_two_attempts :
  keyRequests 0
    (@keyRun Sample.ext Sample.encrypted 0
       [FetchKey; KeyResponse (Sample.failure 0); KeyResponse (Sample.failure 1);
        FetchKey; KeyResponse (Sample.failure 2)]
       Sample.withKey) = 2%nat.
Proof. reflexivity. Qed.

(** * Further properties of the code *)

(** ** Selection: the fallback chain *)

(** X1. [selectPlaylist] throws when the loader or its master playlist is
    missing; otherwise it returns, leaves the state alone, and its result is
    [undefined] exactly when every playlist of the master is excluded at the
    time of the call: the last link of the fallback chain,
    [sortedPlaylists[0]], yields a playlist as soon as one passes the
    filter. *)
Theorem selectPlaylist_undefined_iff_all_excluded (st : HlsHandler) :
  match playlists st ≫= master with
  | None => selectPlaylist st = TypeError st
  | Some pls =>
      exists selected,
        selectPlaylist st = Normal selected st /\
        (selected = None <->
         forall r p, pls !! r = Some p -> notExcluded (clock st) p = false) /\
        (forall r, selected = Some r ->
           exists p, pls !! r = Some p /\ notExcluded (clock st) p = true)
  end.
Proof.
  unfold selectPlaylist. destruct (playlists st) as [loader|]; simpl; [|reflexivity].
  destruct (master loader) as [pls|]; [|reflexivity].
  eexists. split; [reflexivity|]. split.
  - rewrite <- sortedPlaylists_nil_iff.
    destruct (selectVariant pls _ _ _ _) as [v|] eqn:Hsel; simpl.
    + split; [discriminate|]. intros Hnil.
      apply selectVariant_In_sorted in Hsel. rewrite Hnil in Hsel. destruct Hsel.
    + split; [|reflexivity]. intros _.
      destruct (sortedPlaylists (clock st) pls) as [|v t] eqn:Hs; [reflexivity|].
      destruct (selectVariant_Some_of_sorted pls (bandwidth st)
                  (computedWidth (tech_ st)) (computedHeight (tech_ st)) (clock st))
        as [w Hw]; [rewrite Hs; discriminate|congruence].
  - intros r Hr.
    destruct (selectVariant pls _ _ _ _) as [[r' p]|] eqn:Hsel; simpl in Hr;
      [|discriminate].
    injection Hr as ->.
    apply selectVariant_In_sorted, In_sortedPlaylists in Hsel. eauto.
Qed.

Lemma bandwidthPlaylists_nil (now bandwidth : Z) (pls : list Playlist) :
  (forall r p, pls !! r = Some p -> notExcluded now p = true ->
               bandwidthEligible bandwidth p = false) ->
  bandwidthPlaylists now bandwidth pls = [].
Proof.
  intros Hnone.
  destruct (bandwidthPlaylists now bandwidth pls) as [|[r p] t] eqn:Hb; [reflexivity|].
  assert (Hin : In (r, p) (bandwidthPlaylists now bandwidth pls))
    by (rewrite Hb; now left).
  apply In_bandwidthPlaylists in Hin as [Hin He].
  apply In_sortedPlaylists in Hin as [Hr Hk]. simpl in *.
  rewrite (Hnone r p Hr Hk) in He. discriminate.
Qed.

Lemma selectVariant_nothing_fits (pls : list Playlist) (bandwidth : Z)
    (width height : option Z) (now : Z) :
  bandwidthPlaylists now bandwidth pls = [] ->
  selectVariant pls bandwidth width height now = head (sortedPlaylists now pls).
Proof.
  intros Hnil. unfold selectVariant, bandwidthBestVariant. rewrite Hnil. reflexivity.
Qed.

Lemma head_sorted_least {A : Type} (R : A -> A -> Prop) (l : list A) (v : A) :
  StronglySorted R l -> head l = Some v ->
  forall w, In w l -> w = v \/ R v w.
Proof.
  destruct l as [|x l]; simpl; [discriminate|].
  intros Hs Hv. injection Hv as ->. apply StronglySorted_inv in Hs as [_ Hall].
  intros w [<-|Hw]; [now left|]. right.
  rewrite List.Forall_forall in Hall. apply Hall, Hw.
Qed.

Lemma head_sortedPlaylists_least (now : Z) (pls : list Playlist) (v : Variant) :
  head (sortedPlaylists now pls) = Some v ->
  pls !! fst v = Some (snd v) /\ notExcluded now (snd v) = true /\
  forall r p, pls !! r = Some p -> notExcluded now p = true ->
              bandwidthKey v <= bandwidthKey (r, p).
Proof.
  intros Hhd.
  assert (Hin : In v (sortedPlaylists now pls)) by (apply head_In, Hhd).
  apply In_sortedPlaylists in Hin as [Hr Hk]. split; [exact Hr|]. split; [exact Hk|].
  intros r p Hp Hkp.
  assert (Hs : StronglySorted (fun a b => bandwidthKey a <= bandwidthKey b)
                 (sortedPlaylists now pls))
    by (apply StronglySorted_filter, sortedPlaylists_ascending).
  destruct (head_sorted_least _ _ v Hs Hhd (r, p)) as [->|Hle];
    [apply In_sortedPlaylists; auto|lia|exact Hle].
Qed.

(** X2. When no playlist that passes the exclusion filter fits the bandwidth
    estimate (its bit rate times 1.2 is not below the estimate, or it declares
    none), [selectPlaylist] falls back to the playlist with the lowest
    declared bit rate among those that pass the filter, a playlist without a
    bit rate counting as [Number.MAX_VALUE], whatever the size of the
    player. *)
Theorem selectPlaylist_falls_back_to_lowest
    (st : HlsHandler) (loader : PlaylistLoader) (pls : list Playlist) :
  playlists st = Some loader -> master loader = Some pls ->
  (forall r p, pls !! r = Some p -> notExcluded (clock st) p = true ->
               bandwidthEligible (bandwidth st) p = false) ->
  forall r, selectPlaylist st = Normal (Some r) st ->
  exists p,
    pls !! r = Some p /\ notExcluded (clock st) p = true /\
    forall r' p', pls !! r' = Some p' -> notExcluded (clock st) p' = true ->
      orMaxValue (declaredBandwidth p) <= orMaxValue (declaredBandwidth p').
Proof.
  intros Hl Hm Hnone r. unfold selectPlaylist. rewrite Hl, Hm.
  rewrite (selectVariant_nothing_fits pls (bandwidth st) _ _ (clock st)
             (bandwidthPlaylists_nil _ _ _ Hnone)).
  destruct (head (sortedPlaylists (clock st) pls)) as [[r0 p0]|] eqn:Hhd; simpl;
    [|discriminate].
  intros Hret. injection Hret as <-.
  destruct (head_sortedPlaylists_least _ _ _ Hhd) as (Hr & Hk & Hleast).
  exists p0. split; [exact Hr|]. split; [exact Hk|].
  intros r' p' Hp' Hk'. apply (Hleast r' p' Hp' Hk').
Qed.

(** ** Selection: the size of the player *)

Section SortingByComparator.

Context {A : Type} (cmp : A -> A -> Z) (P : A -> Prop).

Hypothesis cmp_trans :
  forall a b c, P a -> P b -> P c -> cmp a b <= 0 -> cmp b c <= 0 -> cmp a c <= 0.
Hypothesis cmp_total : forall a b, P a -> P b -> 0 < cmp a b -> cmp b a <= 0.

Let before (a b : A) : Prop := cmp a b <= 0.

Lemma Array_insert_Forall (Q : A -> Prop) (x : A) (l : list A) :
  Q x -> Forall Q l -> Forall Q (Array_insert cmp x l).
Proof.
  intros Hx Hl. apply List.Forall_forall. intros y Hy.
  apply Array_insert_In in Hy as [->|Hy]; [exact Hx|].
  rewrite List.Forall_forall in Hl. apply Hl, Hy.
Qed.

Lemma Array_sort_Forall (Q : A -> Prop) (l : list A) :
  Forall Q l -> Forall Q (Array_sort cmp l).
Proof.
  intros Hl. apply List.Forall_forall. intros y Hy.
  apply Array_sort_In in Hy. rewrite List.Forall_forall in Hl. apply Hl, Hy.
Qed.

Lemma Array_insert_ordered (x : A) (l : list A) :
  P x -> Forall P l ->
  StronglySorted before l -> StronglySorted before (Array_insert cmp x l).
Proof.
  intros Hx. induction l as [|y l IH]; simpl; intros HP Hs.
  - constructor; constructor.
  - apply StronglySorted_inv in Hs as [Hl Hy].
    apply Forall_cons in HP as [HPy HPl].
    destruct (cmp x y <=? 0) eqn:Hc.
    + apply Z.leb_le in Hc.
      constructor; [constructor; assumption|].
      constructor; [exact Hc|].
      rewrite List.Forall_forall in Hy, HPl |- *. intros a Ha.
      apply (cmp_trans x y a); auto. apply Hy, Ha.
    + apply Z.leb_gt in Hc.
      constructor; [apply IH; assumption|].
      apply Array_insert_Forall; [apply cmp_total; auto; lia|exact Hy].
Qed.

Lemma Array_sort_ordered (l : list A) :
  Forall P l -> StronglySorted before (Array_sort cmp l).
Proof.
  induction l as [|x l IH]; simpl; intros HP; [constructor|].
  apply Forall_cons in HP as [Hx Hl].
  apply Array_insert_ordered; [exact Hx|apply Array_sort_Forall, Hl|apply IH, Hl].
Qed.

End SortingByComparator.

Lemma StronglySorted_snoc {A : Type} (R : A -> A -> Prop) (m : list A) (x : A) :
  StronglySorted R m -> Forall (fun a => R a x) m -> StronglySorted R (m ++ [x]).
Proof.
  induction m as [|y m IH]; simpl; intros Hm Hall.
  - constructor; constructor.
  - apply StronglySorted_inv in Hm as [Hm Hy].
    apply Forall_cons in Hall as [Hyx Hall].
    constructor; [apply IH; assumption|].
    apply Forall_app. split; [exact Hy|]. constructor; [exact Hyx|constructor].
Qed.

Lemma StronglySorted_rev {A : Type} (R : A -> A -> Prop) (l : list A) :
  StronglySorted R l -> StronglySorted (fun a b => R b a) (rev l).
Proof.
  induction l as [|x l IH]; simpl; intros Hs; [constructor|].
  apply StronglySorted_inv in Hs as [Hl Hx].
  apply StronglySorted_snoc; [apply IH, Hl|].
  apply List.Forall_forall. intros a Ha. apply (proj2 (in_rev l a)) in Ha.
  rewrite List.Forall_forall in Hx. apply Hx, Ha.
Qed.

Lemma comparePlaylistResolution_declared (a b : Variant) (la lb : Z) :
  declaredBandwidth (snd a) = Some la -> declaredBandwidth (snd b) = Some lb ->
  onVariants comparePlaylistResolution a b =
    if widthKey a =? widthKey b then la - lb else widthKey a - widthKey b.
Proof.
  intros Ha Hb. unfold onVariants, comparePlaylistResolution, widthKey.
  now rewrite Ha, Hb.
Qed.

Lemma comparePlaylistResolution_width (a b : Variant) :
  onVariants comparePlaylistResolution a b <= 0 -> widthKey a <= widthKey b.
Proof.
  unfold onVariants, comparePlaylistResolution, widthKey.
  destruct (declaredBandwidth (snd a)) as [la|];
    destruct (declaredBandwidth (snd b)) as [lb|]; try lia.
  destruct (Z.eqb_spec (orMaxValue (declaredWidth (snd a)))
              (orMaxValue (declaredWidth (snd b)))); lia.
Qed.

Lemma comparePlaylistResolution_refl (a : Variant) :
  onVariants comparePlaylistResolution a a <= 0.
Proof.
  unfold onVariants, comparePlaylistResolution.
  destruct (declaredBandwidth (snd a)) as [la|]; [|lia].
  rewrite Z.eqb_refl. lia.
Qed.

Lemma declaredResolution_width (p : Playlist) (r : Resolution) :
  declaredResolution p = Some r -> declaredWidth p = Some (res_width r).
Proof.
  unfold declaredResolution, declaredWidth.
  destruct (attributes p) as [a|]; [|discriminate].
  destruct (RESOLUTION a) as [r'|]; [|discriminate].
  destruct (JS.truthyZ (res_width r')); simpl; [|discriminate].
  destruct (JS.truthyZ (res_height r')); [|discriminate].
  intros Hr. injection Hr as ->. reflexivity.
Qed.

Lemma sizeIs_inv (width height : Z) (p : Playlist) :
  sizeIs width height p = true ->
  exists r, declaredResolution p = Some r /\ res_width r = width /\
            res_height r = height.
Proof.
  unfold sizeIs. destruct (declaredResolution p) as [r|]; [|discriminate].
  rewrite andb_true_iff, !Z.eqb_eq. intros [Hw Hh]. eauto.
Qed.

(** Walking the candidates from the widest down, the second loop stops at
    the first one of the size of the player, whatever it has kept until
    then. *)
Lemma resolutionLoop_first_exact (width height : Z) (visit : list Variant)
    (plusOne best : option Variant) :
  StronglySorted (fun a b => onVariants comparePlaylistResolution b a <= 0) visit ->
  (exists v, In v visit /\ sizeIs width height (snd v) = true) ->
  exists v',
    In v' visit /\ sizeIs width height (snd v') = true /\
    (forall w, In w visit -> sizeIs width height (snd w) = true ->
               onVariants comparePlaylistResolution w v' <= 0) /\
    resolutionLoop (Some width) (Some height) visit plusOne best = (None, Some v').
Proof.
  revert plusOne best. induction visit as [|u rest IH]; intros plusOne best Hs Hex.
  { destruct Hex as (v & [] & _). }
  apply StronglySorted_inv in Hs as [Hrest Hu].
  destruct (sizeIs width height (snd u)) eqn:Hsize.
  - exists u. split; [now left|]. split; [exact Hsize|]. split.
    + intros w [<-|Hw] _; [apply comparePlaylistResolution_refl|].
      rewrite List.Forall_forall in Hu. apply Hu, Hw.
    + simpl. unfold sizeIs in Hsize.
      destruct (declaredResolution (snd u)) as [r|]; [|discriminate].
      simpl. now rewrite Hsize.
  - assert (Hex' : exists v, In v rest /\ sizeIs width height (snd v) = true).
    { destruct Hex as (v & [<-|Hv] & Hsv); [congruence|eauto]. }
    assert (Hwide : width <= widthKey u).
    { destruct Hex' as (v & Hv & Hsv).
      rewrite List.Forall_forall in Hu. specialize (Hu v Hv).
      apply comparePlaylistResolution_width in Hu.
      apply sizeIs_inv in Hsv as (r & Hr & Hw & _).
      apply declaredResolution_width in Hr.
      unfold widthKey in Hu at 1. rewrite Hr in Hu. simpl in Hu. lia. }
    assert (Hgo : forall plusOne' best',
               exists v',
                 In v' (u :: rest) /\ sizeIs width height (snd v') = true /\
                 (forall w, In w (u :: rest) -> sizeIs width height (snd w) = true ->
                            onVariants comparePlaylistResolution w v' <= 0) /\
                 resolutionLoop (Some width) (Some height) rest plusOne' best' =
                   (None, Some v')).
    { intros plusOne' best'.
      destruct (IH plusOne' best' Hrest Hex') as (v' & Hin & Hsv & Hmax & Hrun).
      exists v'. split; [now right|]. split; [exact Hsv|]. split; [|exact Hrun].
      intros w [<-|Hw] Hsw; [congruence|]. apply Hmax; assumption. }
    simpl. unfold sizeIs in Hsize.
    destruct (declaredResolution (snd u)) as [r|] eqn:Hr; [|apply Hgo].
    simpl. rewrite Hsize.
    apply declaredResolution_width in Hr. unfold widthKey in Hwide.
    rewrite Hr in Hwide. simpl in Hwide.
    destruct (Z.ltb_spec (res_width r) width) as [Hlt|_]; [lia|]. simpl.
    match goal with
    | |- context [if ?c then _ else _] => destruct c
    end; apply Hgo.
Qed.

Lemma bandwidthPlaylists_declared (now bandwidth : Z) (pls : list Playlist) :
  Forall (fun v => exists b, declaredBandwidth (snd v) = Some b)
    (bandwidthPlaylists now bandwidth pls).
Proof.
  apply List.Forall_forall. intros v Hv.
  apply In_bandwidthPlaylists in Hv as [_ He].
  apply bandwidthEligible_declared in He as (b & Hb & _). eauto.
Qed.

Lemma byResolution_ordered (now bandwidth : Z) (pls : list Playlist) :
  StronglySorted (fun a b => onVariants comparePlaylistResolution b a <= 0)
    (rev (Array_sort (onVariants comparePlaylistResolution)
            (bandwidthPlaylists now bandwidth pls))).
Proof.
  apply (StronglySorted_rev
           (fun a b => onVariants comparePlaylistResolution a b <= 0)).
  apply (Array_sort_ordered _
           (fun v => exists b, declaredBandwidth (snd v) = Some b)).
  - intros a b c [la Ha] [lb Hb] [lc Hc].
    rewrite (comparePlaylistResolution_declared a b la lb Ha Hb),
      (comparePlaylistResolution_declared b c lb lc Hb Hc),
      (comparePlaylistResolution_declared a c la lc Ha Hc).
    destruct (Z.eqb_spec (widthKey a) (widthKey b));
      destruct (Z.eqb_spec (widthKey b) (widthKey c));
      destruct (Z.eqb_spec (widthKey a) (widthKey c)); lia.
  - intros a b [la Ha] [lb Hb].
    rewrite (comparePlaylistResolution_declared a b la lb Ha Hb),
      (comparePlaylistResolution_declared b a lb la Hb Ha).
    destruct (Z.eqb_spec (widthKey a) (widthKey b));
      destruct (Z.eqb_spec (widthKey b) (widthKey a)); lia.
  - apply bandwidthPlaylists_declared.
Qed.

(** X3. When a playlist that passes the exclusion filter and fits the
    bandwidth estimate declares exactly the width and the height of the
    player, [selectPlaylist] returns a playlist of exactly that size, and of
    those it returns one with the highest bit rate, even when a larger
    rendition was met first in the loop. *)
Theorem selectPlaylist_prefers_exact_size
    (st : HlsHandler) (loader : PlaylistLoader) (pls : list Playlist)
    (width height : Z) (r0 : PlaylistRef) (p0 : Playlist) :
  playlists st = Some loader -> master loader = Some pls ->
  computedWidth (tech_ st) = Some width ->
  computedHeight (tech_ st) = Some height ->
  pls !! r0 = Some p0 -> notExcluded (clock st) p0 = true ->
  bandwidthEligible (bandwidth st) p0 = true -> sizeIs width height p0 = true ->
  exists r p b,
    selectPlaylist st = Normal (Some r) st /\ pls !! r = Some p /\
    sizeIs width height p = true /\ notExcluded (clock st) p = true /\
    bandwidthEligible (bandwidth st) p = true /\
    declaredBandwidth p = Some b /\
    forall r' p' b',
      pls !! r' = Some p' -> notExcluded (clock st) p' = true ->
      bandwidthEligible (bandwidth st) p' = true ->
      sizeIs width height p' = true -> declaredBandwidth p' = Some b' ->
      b' <= b.
Proof.
  intros Hl Hm Hw Hh Hr0 Hk0 He0 Hs0.
  set (byBandwidth := bandwidthPlaylists (clock st) (bandwidth st) pls).
  set (visit := rev (Array_sort (onVariants comparePlaylistResolution) byBandwidth)).
  assert (Hvisit : forall v, In v visit <-> In v byBandwidth).
  { intros v. subst visit. rewrite <- in_rev, Array_sort_In. reflexivity. }
  assert (Hcand : forall r p,
             In (r, p) byBandwidth <->
             pls !! r = Some p /\ notExcluded (clock st) p = true /\
             bandwidthEligible (bandwidth st) p = true).
  { intros r p. subst byBandwidth.
    rewrite In_bandwidthPlaylists, In_sortedPlaylists. simpl. tauto. }
  destruct (resolutionLoop_first_exact width height visit None None)
    as ([r p] & Hin & Hsize & Hmax & Hrun).
  { apply byResolution_ordered. }
  { exists (r0, p0). split; [|exact Hs0]. apply Hvisit, Hcand. auto. }
  apply Hvisit in Hin. pose proof Hin as Hin'.
  apply Hcand in Hin as (Hr & Hk & He).
  destruct (bandwidthEligible_declared _ _ He) as (b & Hb & _).
  exists r, p, b. split.
  { unfold selectPlaylist. rewrite Hl, Hm, Hw, Hh. unfold selectVariant.
    fold byBandwidth. fold visit. rewrite Hrun. reflexivity. }
  repeat (split; [assumption|]).
  intros r' p' b' Hr' Hk' He' Hs' Hb'.
  assert (Hle : onVariants comparePlaylistResolution (r', p') (r, p) <= 0).
  { apply Hmax; [|exact Hs']. apply Hvisit, Hcand. auto. }
  rewrite (comparePlaylistResolution_declared (r', p') (r, p) b' b Hb' Hb) in Hle.
  apply sizeIs_inv in Hsize as (res & Hres & Hrw & _).
  apply sizeIs_inv in Hs' as (res' & Hres' & Hrw' & _).
  apply declaredResolution_width in Hres, Hres'.
  unfold widthKey in Hle. cbn [snd] in Hres, Hres', Hle. rewrite Hres, Hres' in Hle.
  cbn [orMaxValue] in Hle. rewrite Hrw, Hrw', Z.eqb_refl in Hle. lia.
Qed.

(** ** What the methods leave alone *)

Lemma grows_trans (allowed : Effect -> bool) (t1 t2 t3 : list Effect) :
  grows allowed t1 t2 -> grows allowed t2 t3 -> grows allowed t1 t3.
Proof.
  intros H12 H23. induction H23 as [|e after He _ IH]; [exact H12|].
  constructor; assumption.
Qed.

Lemma grows_weaken (allowed allowed' : Effect -> bool) (t t' : list Effect) :
  (forall e, allowed e = true -> allowed' e = true) ->
  grows allowed t t' -> grows allowed' t t'.
Proof.
  intros Hsub Hg. induction Hg as [|e after He _ IH]; constructor; auto.
Qed.

Lemma grows_count (allowed f : Effect -> bool) (t t' : list Effect) :
  (forall e, allowed e = true -> f e = false) ->
  grows allowed t t' ->
  length (List.filter f t') = length (List.filter f t).
Proof.
  intros Hf Hg. induction Hg as [|e after He _ IH]; [reflexivity|].
  simpl. now rewrite (Hf e He).
Qed.

Lemma grows_timers (allowed : Effect -> bool) (t t' : list Effect) :
  (forall timer delay, allowed (SetTimeout timer delay) = false) ->
  (forall timer, allowed (ClearTimeout timer) = false) ->
  grows allowed t t' -> outstandingTimers t' = outstandingTimers t.
Proof.
  intros Hset Hclear Hg. induction Hg as [|e after He _ IH]; [reflexivity|].
  destruct e; simpl; try exact IH.
  - rewrite Hclear in He. discriminate.
  - rewrite Hset in He. discriminate.
Qed.

Lemma failoverOnly_refl (st : HlsHandler) : failoverOnly st st.
Proof. constructor; try reflexivity. constructor. Qed.

Lemma failoverOnly_trans (st1 st2 st3 : HlsHandler) :
  failoverOnly st1 st2 -> failoverOnly st2 st3 -> failoverOnly st1 st3.
Proof.
  intros [] []. constructor; try congruence.
  eapply grows_trans; eassumption.
Qed.

Lemma drainOnly_refl (st : HlsHandler) : drainOnly st st.
Proof. constructor; try reflexivity. constructor. Qed.

Lemma drainOnly_trans (st1 st2 st3 : HlsHandler) :
  drainOnly st1 st2 -> drainOnly st2 st3 -> drainOnly st1 st3.
Proof.
  intros [] []. constructor; try congruence.
  eapply grows_trans; eassumption.
Qed.

Lemma failoverOnly_drainOnly (st st' : HlsHandler) :
  failoverOnly st st' -> drainOnly st st'.
Proof.
  intros []. constructor; try congruence.
  eapply grows_weaken; [|eassumption].
  intros e He. destruct e; simpl in *; congruence.
Qed.

Lemma fillOnly_refl (st : HlsHandler) : fillOnly st st.
Proof. constructor; try reflexivity. constructor. Qed.

Lemma fillOnly_trans (st1 st2 st3 : HlsHandler) :
  fillOnly st1 st2 -> fillOnly st2 st3 -> fillOnly st1 st3.
Proof.
  intros [] []. constructor; try congruence.
  eapply grows_trans; eassumption.
Qed.

Lemma bind_keeping (R : HlsHandler -> HlsHandler -> Prop) {A B : Type}
    (m : M HlsHandler A) (f : A -> M HlsHandler B) :
  (forall st1 st2 st3, R st1 st2 -> R st2 st3 -> R st1 st3) ->
  keeping R m -> (forall a, keeping R (f a)) -> keeping R (bind m f).
Proof.
  intros Htrans Hm Hf st. unfold bind. specialize (Hm st).
  destruct (m st) as [a st'|st']; simpl in *; [|exact Hm].
  eapply Htrans; [exact Hm|apply Hf].
Qed.

(** A state built from [st] by the setters and by calls of the allowed
    kinds. *)
Ltac framed :=
  constructor; try reflexivity; unfold addsOnly; simpl; repeat constructor.

Ltac frame_cases R :=
  repeat match goal with
         | |- R _ (state_of (match ?x with _ => _ end)) => destruct x
         | |- R _ (state_of (if ?x then _ else _)) => destruct x
         | |- R _ (match ?x with _ => _ end) => destruct x
         | |- R _ (if ?x then _ else _) => destruct x
         end;
  simpl; try solve [framed].

Section Coverage.

Context `{External}.

Lemma selectPlaylist_failoverOnly : keeping failoverOnly selectPlaylist.
Proof. intros st. unfold selectPlaylist. frame_cases failoverOnly. Qed.

Lemma playlists_media_failoverOnly (next : option PlaylistRef) :
  keeping failoverOnly (playlists_media next).
Proof. intros st. unfold playlists_media. frame_cases failoverOnly. Qed.

Lemma endOfStream_failoverOnly (reason : option string) :
  keeping failoverOnly (endOfStream reason).
Proof. intros st. unfold endOfStream. frame_cases failoverOnly. Qed.

Lemma offendingPlaylist_failoverOnly (error : HlsError) :
  keeping failoverOnly (offendingPlaylist error).
Proof. intros st. unfold offendingPlaylist. frame_cases failoverOnly. Qed.

Lemma exclude_failoverOnly (r : PlaylistRef) (v : Stamp) (st : HlsHandler) :
  failoverOnly st (exclude r v st).
Proof. unfold exclude. frame_cases failoverOnly. Qed.

Lemma blacklistCurrentPlaylist_failoverOnly (error : HlsError) :
  keeping failoverOnly (blacklistCurrentPlaylist_ error).
Proof.
  assert (Hmod : forall f : HlsHandler -> HlsHandler,
             (forall st, failoverOnly st (f st)) -> keeping failoverOnly (modify f)).
  { intros f Hf st. apply Hf. }
  unfold blacklistCurrentPlaylist_.
  apply bind_keeping;
    [exact failoverOnly_trans|apply offendingPlaylist_failoverOnly|].
  intros [r|].
  - apply bind_keeping; [exact failoverOnly_trans| |].
    { apply Hmod. intros st. apply exclude_failoverOnly. }
    intros _. apply bind_keeping;
      [exact failoverOnly_trans|apply selectPlaylist_failoverOnly|].
    intros [next|].
    + apply bind_keeping; [exact failoverOnly_trans| |].
      { apply Hmod. intros st. framed. }
      intros _. apply playlists_media_failoverOnly.
    + apply bind_keeping; [exact failoverOnly_trans| |].
      { apply Hmod. intros st. framed. }
      intros _. apply bind_keeping; [exact failoverOnly_trans| |].
      { apply Hmod. intros st. framed. }
      intros _. apply endOfStream_failoverOnly.
  - apply bind_keeping; [exact failoverOnly_trans| |].
    { apply Hmod. intros st. framed. }
    intros _. apply endOfStream_failoverOnly.
Qed.

Lemma reselect_failoverOnly :
  keeping failoverOnly (bind selectPlaylist playlists_media).
Proof.
  apply bind_keeping;
    [exact failoverOnly_trans|apply selectPlaylist_failoverOnly|].
  intros next. apply playlists_media_failoverOnly.
Qed.

Lemma drainBuffer_drainOnly : keeping drainOnly drainBuffer.
Proof.
  intros st. unfold drainBuffer. cbv zeta.
  destruct (pendingSegment_ st) as [segmentInfo|] eqn:Hpending;
    [|apply drainOnly_refl].
  repeat match goal with
         | |- drainOnly _ (state_of (Normal _ (emit _ (if ?x then _ else _)))) =>
             destruct x
         | |- drainOnly _ (state_of (blacklistCurrentPlaylist_ _ _)) =>
             apply failoverOnly_drainOnly, blacklistCurrentPlaylist_failoverOnly
         | |- drainOnly _ (state_of (Normal _ _)) =>
             solve [constructor; simpl; rewrite ?Hpending; try reflexivity;
                    unfold addsOnly; simpl; repeat constructor]
         | |- drainOnly _ (state_of (TypeError _)) => apply drainOnly_refl
         | |- drainOnly _ (state_of (match ?x with _ => _ end)) => destruct x
         | |- drainOnly _ (state_of (if ?x then _ else _)) => destruct x
         end.
Qed.

Lemma fetchKey_fillOnly (segment : Segment) : keeping fillOnly (fetchKey_ segment).
Proof. intros st. unfold fetchKey_. frame_cases fillOnly. Qed.

Lemma loadSegment_fillOnly (segmentInfo : SegmentInfo) :
  keeping fillOnly (loadSegment segmentInfo).
Proof.
  intros st. unfold loadSegment.
  destruct (playlistOf segmentInfo st) as [[playlist segs]|];
    [|apply fillOnly_refl].
  cbv zeta.
  match goal with
  | |- fillOnly _ (state_of (match _ with Some _ => _ | None => TypeError ?s end)) =>
      set (st1 := s)
  end.
  assert (Hst1 : fillOnly st st1) by (subst st1; frame_cases fillOnly).
  eapply fillOnly_trans; [exact Hst1|].
  destruct (JS.index segs (si_mediaIndex segmentInfo)) as [segment|];
    [|apply fillOnly_refl].
  apply bind_keeping; [exact fillOnly_trans| |].
  - destruct (JS.defined (keyOf segment st1));
      [apply fetchKey_fillOnly|intros st2; apply fillOnly_refl].
  - intros _ st2. simpl. framed.
Qed.

Lemma fillBufferFrom_fillOnly (loader : PlaylistLoader) (playlistRef : PlaylistRef)
    (playlist : Playlist) (upcoming : list Segment) (mediaIndex : Z)
    (currentBufferedEnd : float) :
  keeping fillOnly
    (fillBufferFrom loader playlistRef playlist upcoming mediaIndex
       currentBufferedEnd).
Proof.
  revert mediaIndex currentBufferedEnd.
  induction upcoming as [|segment rest IH]; intros mediaIndex currentBufferedEnd st;
    simpl; [apply fillOnly_refl|].
  destruct (playlistUriToUrl (seg_uri segment) st) as [url|]; [|apply fillOnly_refl].
  match goal with
  | |- context [if ?c then _ else _] => destruct c
  end; [apply IH|apply loadSegment_fillOnly].
Qed.

Lemma fillBuffer_fillOnly (mediaIndex : option Z) :
  keeping fillOnly (fillBuffer mediaIndex).
Proof.
  intros st. unfold fillBuffer.
  repeat match goal with
         | |- fillOnly _ (state_of (Normal _ _)) => apply fillOnly_refl
         | |- fillOnly _ (state_of (fillBufferFrom _ _ _ _ _ _ _)) =>
             apply fillBufferFrom_fillOnly
         | |- fillOnly _ (state_of (match ?x with _ => _ end)) => destruct x
         | |- fillOnly _ (state_of (if ?x then _ else _)) => destruct x
         end.
Qed.

(** ** The callback of a segment request *)

Lemma bandwidth_one_fits_nothing (p : Playlist) :
  (forall b, declaredBandwidth p = Some b -> 0 < b) ->
  bandwidthEligible 1 p = false.
Proof.
  intros Hpos. unfold bandwidthEligible.
  destruct (declaredBandwidth p) as [b|]; [|reflexivity].
  specialize (Hpos b eq_refl).
  apply Numbers.effectiveBitrate_ge_one. exact Hpos.
Qed.

(** X4. A segment request that times out leaves the bandwidth estimate at 1
    and hands to the loader the playlist that [selectPlaylist] then returns:
    with declared bit rates above 0 nothing fits an estimate of 1, so it is
    the playlist of the lowest declared bit rate among those that are not
    excluded; when all are excluded the loader is left as it is. *)
Theorem segment_timeout_selects_lowest
    (segmentInfo : SegmentInfo) (segment : Segment) (request : XhrResponse)
    (st : HlsHandler) (loader : PlaylistLoader) (pls : list Playlist) :
  segmentXhr_ st = Some (rq_ref request) -> timedout request = true ->
  playlists st = Some loader -> master loader = Some pls ->
  (forall r p b, pls !! r = Some p -> declaredBandwidth p = Some b -> 0 < b) ->
  exists selected,
    segmentLoaded segmentInfo segment request st =
      Normal tt
        match selected with
        | Some r =>
            set_playlists (Some (media_setter loader r))
              (emit (MediaSwitch r) (set_bandwidth 1 (set_segmentXhr_ None st)))
        | None => set_bandwidth 1 (set_segmentXhr_ None st)
        end /\
    match selected with
    | Some r =>
        exists p,
          pls !! r = Some p /\ notExcluded (clock st) p = true /\
          forall r' p', pls !! r' = Some p' -> notExcluded (clock st) p' = true ->
            orMaxValue (declaredBandwidth p) <= orMaxValue (declaredBandwidth p')
    | None => forall r p, pls !! r = Some p -> notExcluded (clock st) p = false
    end.
Proof.
  intros Hx Htimeout Hl Hm Hpos.
  unfold segmentLoaded. rewrite Hx, Nat.eqb_refl, Htimeout. simpl.
  unfold bind, modify, selectPlaylist. simpl. rewrite Hl, Hm.
  rewrite (selectVariant_nothing_fits pls 1 _ _ (clock st)).
  2:{ apply bandwidthPlaylists_nil. intros r p Hr _.
      apply bandwidth_one_fits_nothing. intros b. apply (Hpos r p b Hr). }
  destruct (head (sortedPlaylists (clock st) pls)) as [[r p]|] eqn:Hhd.
  - exists (Some r). split.
    + unfold playlists_media. simpl. rewrite Hl. reflexivity.
    + destruct (head_sortedPlaylists_least _ _ _ Hhd) as (Hr & Hk & Hleast).
      exists p. split; [exact Hr|]. split; [exact Hk|].
      intros r' p' Hr' Hk'. apply (Hleast r' p' Hr' Hk').
  - exists None. split.
    + unfold playlists_media. simpl. rewrite Hl. reflexivity.
    + apply sortedPlaylists_nil_iff.
      destruct (sortedPlaylists (clock st) pls); [reflexivity|discriminate].
Qed.

Lemma drain_then_reselect_drainOnly :
  keeping drainOnly
    (bind drainBuffer (fun _ => bind selectPlaylist playlists_media)).
Proof.
  apply bind_keeping; [exact drainOnly_trans|apply drainBuffer_drainOnly|].
  intros _ st. apply failoverOnly_drainOnly, reselect_failoverOnly.
Qed.

Lemma drainOnly_segmentRequests (st st' : HlsHandler) :
  drainOnly st st' -> segmentRequests st' = segmentRequests st.
Proof.
  intros Hd. unfold segmentRequests.
  apply (grows_count isDrainCall); [|apply (dr_trace _ _ Hd)].
  intros e He. destruct e; simpl in *; congruence.
Qed.

(** The state in which the callback of a segment request leaves the handler,
    case by case. *)
Lemma segmentLoaded_cases (segmentInfo : SegmentInfo) (segment : Segment)
    (request : XhrResponse) (st : HlsHandler) :
  segmentXhr_ st = Some (rq_ref request) ->
  exists st1,
    drainOnly st1 (state_of (segmentLoaded segmentInfo segment request st)) /\
    segmentXhr_ st1 = None /\ segmentRequests st1 = segmentRequests st /\
    sameTimers st st1 /\ keys st1 = keys st /\
    (forall k, keyRequests k st1 = keyRequests k st) /\
    (timedout request = false ->
     aborted request = true \/ rq_error request = false ->
     forall body, response request = Some body ->
       lastSegmentLoaded_ st1 = Some segment /\
       bandwidth st1 = rq_bandwidth request /\
       JS.defined (pendingSegment_ st1) = true).
Proof.
  intros Hx. unfold segmentLoaded. rewrite Hx, Nat.eqb_refl. simpl.
  destruct (timedout request).
  { exists (set_bandwidth 1 (set_segmentXhr_ None st)).
    split; [|repeat split; discriminate].
    unfold bind at 1. unfold modify. simpl.
    apply failoverOnly_drainOnly, reselect_failoverOnly. }
  destruct (negb (aborted request) && rq_error request) eqn:Herr.
  { exists (set_segmentXhr_ None st).
    split; [|split; [reflexivity|split; [reflexivity|split; [split; reflexivity|
               split; [reflexivity|split; [reflexivity|]]]]]].
    - apply failoverOnly_drainOnly, blacklistCurrentPlaylist_failoverOnly.
    - intros _ [Hab|He]; [rewrite Hab in Herr|rewrite He, andb_false_r in Herr];
        discriminate. }
  destruct (response request) as [body|].
  - match goal with
    | |- context [bind drainBuffer _ ?s] => exists s
    end.
    split; [apply drain_then_reselect_drainOnly|]. repeat split.
  - exists (set_segmentXhr_ None st).
    split; [apply drainOnly_refl|]. repeat split; discriminate.
Qed.

(** X5. Whatever the response, once the callback of the outstanding segment
    request has run no segment request is outstanding any more, and the
    callback itself has made no segment request. *)
Theorem segmentLoaded_request_settled
    (segmentInfo : SegmentInfo) (segment : Segment) (request : XhrResponse)
    (st : HlsHandler) :
  segmentXhr_ st = Some (rq_ref request) ->
  let st' := state_of (segmentLoaded segmentInfo segment request st) in
  segmentXhr_ st' = None /\ segmentRequests st' = segmentRequests st.
Proof.
  intros Hx.
  destruct (segmentLoaded_cases segmentInfo segment request st Hx)
    as (st1 & Hd & Hnone & Hreqs & _).
  cbv zeta. split.
  - rewrite (dr_segmentXhr _ _ Hd). exact Hnone.
  - rewrite (drainOnly_segmentRequests _ _ Hd). exact Hreqs.
Qed.

(** X6. A response with a body, neither timed out nor failed, makes the
    segment the last one loaded, takes the bandwidth from the request and
    leaves a pending segment behind: until that one is cleared, [fillBuffer]
    does nothing, with or without an index. *)
Theorem segmentLoaded_body_is_pending
    (segmentInfo : SegmentInfo) (segment : Segment) (request : XhrResponse)
    (body : Bytes) (st : HlsHandler) :
  segmentXhr_ st = Some (rq_ref request) -> timedout request = false ->
  aborted request = true \/ rq_error request = false ->
  response request = Some body ->
  let st' := state_of (segmentLoaded segmentInfo segment request st) in
  lastSegmentLoaded_ st' = Some segment /\
  bandwidth st' = rq_bandwidth request /\
  JS.defined (pendingSegment_ st') = true /\
  forall mediaIndex, fillBuffer mediaIndex st' = Normal tt st'.
Proof.
  intros Hx Htimeout Herr Hbody.
  destruct (segmentLoaded_cases segmentInfo segment request st Hx)
    as (st1 & Hd & _ & _ & _ & _ & _ & Hok).
  destruct (Hok Htimeout Herr body Hbody) as (Hlast & Hbw & Hpending).
  cbv zeta.
  assert (Hp : JS.defined
                 (pendingSegment_
                    (state_of (segmentLoaded segmentInfo segment request st))) = true)
    by (rewrite (dr_pendingSegment _ _ Hd); exact Hpending).
  split; [rewrite (dr_lastSegmentLoaded _ _ Hd); exact Hlast|].
  split; [rewrite (dr_bandwidth _ _ Hd); exact Hbw|].
  split; [exact Hp|].
  intros mediaIndex. apply fillBuffer_busy. right. exact Hp.
Qed.

(** ** Appending *)

Lemma failoverOnly_appends (st st' : HlsHandler) :
  failoverOnly st st' -> appends st' = appends st.
Proof.
  intros Hf. unfold appends.
  apply (grows_count isNotice); [|apply (fo_trace _ _ Hf)].
  intros e He. destruct e; simpl in *; congruence.
Qed.

(** While the pending segment is being appended, [drainBuffer] waits. *)
Lemma drainBuffer_waits (st : HlsHandler) (info : SegmentInfo) :
  pendingSegment_ st = Some info -> JS.defined (si_buffered info) = true ->
  drainBuffer st = Normal tt st.
Proof.
  intros Hp Hb. unfold drainBuffer. rewrite Hp.
  destruct (sourceBuffer st); [|reflexivity]. now rewrite Hb.
Qed.

Lemma drainBuffer_cases (st : HlsHandler) :
  appends (state_of (drainBuffer st)) = appends st \/
  exists info sb,
    pendingSegment_ st = Some info /\ sourceBuffer st = Some sb /\
    updating sb = false /\ si_buffered info = None /\
    (forall playlist segment,
        segmentOf info st = Some (playlist, segment) ->
        JS.defined (keyOf segment st) = true ->
        JS.defined (si_bytes info) = true) /\
    appends (state_of (drainBuffer st)) = S (appends st) /\
    head (trace (state_of (drainBuffer st))) =
      Some (SourceBufferAppend (si_bytes info)) /\
    pendingSegment_ (state_of (drainBuffer st)) =
      Some (set_si_buffered (Some (buffered (tech_ st))) info).
Proof.
  unfold drainBuffer. cbv zeta.
  destruct (pendingSegment_ st) as [info|] eqn:Hp; [|left; reflexivity].
  destruct (sourceBuffer st) as [sb|] eqn:Hsb; [|left; reflexivity].
  destruct (si_buffered info) eqn:Hb; simpl; [left; reflexivity|].
  destruct (updating sb) eqn:Hu; [left; reflexivity|].
  destruct (segmentOf info st) as [[playlist segment]|] eqn:Hseg;
    [|left; reflexivity].
  destruct (keyOf segment st) as [[k key]|] eqn:Hkey;
    [destruct (si_bytes info) as [bytes|] eqn:Hbytes|].
  - right. exists info, sb.
    split; [reflexivity|]. split; [reflexivity|]. split; [exact Hu|].
    split; [exact Hb|]. split.
    { intros playlist0 segment0 _ _. now rewrite Hbytes. }
    rewrite Hbytes. destruct (notNull (si_timestampOffset info)); repeat split.
  - left. destruct (keyFailed key).
    { apply failoverOnly_appends, blacklistCurrentPlaylist_failoverOnly. }
    destruct (key_bytes key); [|reflexivity].
    destruct (si_decrypter info); reflexivity.
  - right. exists info, sb.
    split; [reflexivity|]. split; [reflexivity|]. split; [exact Hu|].
    split; [exact Hb|]. split.
    { intros playlist0 segment0 Heq Hk. rewrite Hseg in Heq.
      injection Heq as <- <-. rewrite Hkey in Hk. discriminate. }
    destruct (notNull (si_timestampOffset info)); repeat split.
Qed.

(** X7. A call of [drainBuffer] appends at most once. When it appends, the
    source buffer was not updating, the pending segment had not been appended
    yet and, if its segment has a key, its decrypted bytes were there; what
    is appended are the bytes of the pending segment; the pending segment
    then records the buffered ranges of that moment, and a further call of
    [drainBuffer] does nothing. *)
Theorem drainBuffer_appends_at_most_once (st : HlsHandler) :
  (appends (state_of (drainBuffer st)) = appends st \/
   appends (state_of (drainBuffer st)) = S (appends st)) /\
  (appends (state_of (drainBuffer st)) = S (appends st) ->
   exists info sb,
     pendingSegment_ st = Some info /\ sourceBuffer st = Some sb /\
     updating sb = false /\ si_buffered info = None /\
     (forall playlist segment,
         segmentOf info st = Some (playlist, segment) ->
         JS.defined (keyOf segment st) = true ->
         JS.defined (si_bytes info) = true) /\
     head (trace (state_of (drainBuffer st))) =
       Some (SourceBufferAppend (si_bytes info)) /\
     pendingSegment_ (state_of (drainBuffer st)) =
       Some (set_si_buffered (Some (buffered (tech_ st))) info) /\
     drainBuffer (state_of (drainBuffer st)) =
       Normal tt (state_of (drainBuffer st))).
Proof.
  destruct (drainBuffer_cases st)
    as [Hsame|(info & sb & Hp & Hsb & Hu & Hb & Hkey & Hone & Hhead & Hp')].
  - split; [left; exact Hsame|]. intros Hone. lia.
  - split; [right; exact Hone|]. intros _.
    exists info, sb. repeat (split; [assumption|]).
    apply (drainBuffer_waits _ _ Hp'). reflexivity.
Qed.

(** ** The periodic check *)

Lemma sameTimers_oneTimer (st st' : HlsHandler) :
  sameTimers st st' -> oneTimer st -> oneTimer st'.
Proof. intros [Hc Ht] Hone. unfold oneTimer in *. now rewrite Hc, Ht. Qed.

Lemma sameTimers_refl (st : HlsHandler) : sameTimers st st.
Proof. split; reflexivity. Qed.

Lemma sameTimers_trans (st1 st2 st3 : HlsHandler) :
  sameTimers st1 st2 -> sameTimers st2 st3 -> sameTimers st1 st3.
Proof. intros [] []. split; congruence. Qed.

Lemma failoverOnly_sameTimers (st st' : HlsHandler) :
  failoverOnly st st' -> sameTimers st st'.
Proof.
  intros Hf. split; [apply (fo_checkBufferTimeout _ _ Hf)|].
  apply (grows_timers isNotice); [reflexivity|reflexivity|apply (fo_trace _ _ Hf)].
Qed.

Lemma drainOnly_sameTimers (st st' : HlsHandler) :
  drainOnly st st' -> sameTimers st st'.
Proof.
  intros Hd. split; [apply (dr_checkBufferTimeout _ _ Hd)|].
  apply (grows_timers isDrainCall); [reflexivity|reflexivity|apply (dr_trace _ _ Hd)].
Qed.

Lemma fillOnly_sameTimers (st st' : HlsHandler) :
  fillOnly st st' -> sameTimers st st'.
Proof.
  intros Hf. split; [apply (fi_checkBufferTimeout _ _ Hf)|].
  apply (grows_timers isFillCall); [reflexivity|reflexivity|apply (fi_trace _ _ Hf)].
Qed.

Lemma stopCheckingBuffer_none (st : HlsHandler) :
  oneTimer st ->
  checkBufferTimeout_ (stopCheckingBuffer_ st) = None /\
  outstandingTimers (trace (stopCheckingBuffer_ st)) = [].
Proof.
  unfold oneTimer, stopCheckingBuffer_.
  destruct (checkBufferTimeout_ st) as [timer|] eqn:Hc; simpl; intros Hone.
  - rewrite Hone. simpl. now rewrite Nat.eqb_refl.
  - auto.
Qed.

Lemma checkBuffer_oneTimer (st : HlsHandler) :
  oneTimer st -> oneTimer (state_of (checkBuffer_ st)).
Proof.
  intros Hone. unfold checkBuffer_, bind, modify.
  fold (stopCheckingBuffer_ st).
  destruct (stopCheckingBuffer_none st Hone) as [Hc Ht].
  pose proof (fillOnly_sameTimers _ _
                (fillBuffer_fillOnly None (stopCheckingBuffer_ st))) as Hfill.
  destruct (fillBuffer None (stopCheckingBuffer_ st)) as [[] st2|st2];
    simpl in Hfill; destruct Hfill as [Hc2 Ht2].
  - pose proof (drainOnly_sameTimers _ _ (drainBuffer_drainOnly st2)) as Hdrain.
    destruct (drainBuffer st2) as [[] st3|st3]; simpl in Hdrain;
      destruct Hdrain as [Hc3 Ht3]; unfold oneTimer; simpl.
    + now rewrite Ht3, Ht2, Ht.
    + now rewrite Hc3, Ht3, Hc2, Ht2, Hc, Ht.
  - unfold oneTimer. simpl. now rewrite Hc2, Ht2, Hc, Ht.
Qed.

Lemma setCurrentTime_sameTimers (time : float) :
  keeping sameTimers (setCurrentTime time).
Proof.
  intros st. unfold setCurrentTime.
  destruct (playlists st) as [loader|]; [|apply sameTimers_refl].
  destruct (media loader) as [m|]; [|apply sameTimers_refl].
  destruct (negb (JS.defined (segments m))); [apply sameTimers_refl|].
  destruct (negb (Nat.eqb (length (findBufferedRange_ None st)) 0));
    [apply sameTimers_refl|].
  match goal with
  | |- context [if ?c then _ else _] => destruct c
  end; [apply sameTimers_refl|].
  match goal with
  | |- sameTimers _ (state_of (_ ?s)) => set (st1 := s)
  end.
  assert (Hst1 : sameTimers st st1).
  { subst st1. unfold cancelSegmentXhr, cancelKeyXhr. simpl.
    destruct (segmentXhr_ st); simpl; destruct (keyXhr_ st); simpl;
      split; reflexivity. }
  eapply sameTimers_trans; [exact Hst1|].
  unfold bind.
  pose proof (fillOnly_sameTimers _ _
                (fillBuffer_fillOnly (Some (getMediaIndexForTime_ loader time)) st1))
    as Hfill.
  destruct (fillBuffer _ st1) as [[] st2|st2]; exact Hfill.
Qed.

Lemma receiveKey_oneTimer (segment : Segment) (keyRecieved : KeyRef)
    (request : XhrResponse) (st : HlsHandler) :
  oneTimer st -> oneTimer (state_of (receiveKey segment keyRecieved request st)).
Proof.
  intros Hone. unfold receiveKey, bind, modify. simpl.
  destruct (keyBody request) as [view|]; simpl.
  - apply checkBuffer_oneTimer. exact Hone.
  - destruct (negb (aborted request)); [|exact Hone].
    eapply sameTimers_oneTimer; [apply fillOnly_sameTimers, fetchKey_fillOnly|].
    exact Hone.
Qed.

(** ** The request of [fillBuffer] *)

Lemma loadSegment_request (segmentInfo : SegmentInfo) (st st' : HlsHandler) :
  loadSegment segmentInfo st = Normal tt st' ->
  exists playlist segment request,
    segmentOf segmentInfo st = Some (playlist, segment) /\
    segmentXhr_ st' = Some request /\
    head (trace st') =
      Some (XhrSegment request (si_uri segmentInfo)
              (seg_duration segment * 1.5 * 1000)%float
              (segmentXhrHeaders_ segment) (source_withCredentials st)).
Proof.
  unfold loadSegment, segmentOf.
  destruct (playlistOf segmentInfo st) as [[playlist segs]|]; [|discriminate].
  cbv zeta.
  match goal with
  | |- match _ with Some _ => _ | None => TypeError ?s end = _ -> _ => set (st1 := s)
  end.
  assert (Hst1 : source_withCredentials st1 = source_withCredentials st).
  { subst st1. destruct (sourceBuffer st) as [sb|]; [|reflexivity].
    destruct (negb (updating sb)); [|reflexivity].
    match goal with
    | |- context [if ?c then _ else _] => destruct c; reflexivity
    end. }
  destruct (JS.index segs (si_mediaIndex segmentInfo)) as [segment|];
    [|discriminate].
  unfold bind.
  set (fetch := if JS.defined (keyOf segment st1) then fetchKey_ segment else ret tt).
  assert (Hfetch : source_withCredentials (state_of (fetch st1)) =
                   source_withCredentials st1).
  { subst fetch. destruct (JS.defined (keyOf segment st1)); [|reflexivity].
    apply (fi_source_withCredentials _ _ (fetchKey_fillOnly segment st1)). }
  destruct (fetch st1) as [[] st2|st2]; [|discriminate]. simpl in Hfetch.
  unfold modify. intros Hrun. injection Hrun as <-.
  exists playlist, segment, (fresh st2).
  split; [reflexivity|]. split; [reflexivity|].
  simpl. rewrite Hfetch, Hst1. reflexivity.
Qed.

Lemma repeated_sameAsLastLoaded (st : HlsHandler) (segment : Segment) (url : string) :
  playlistUriToUrl (seg_uri segment) st = Some url ->
  match lastSegmentLoaded_ st with
  | Some last =>
      match playlistUriToUrl (seg_uri last) st with
      | Some lastUrl =>
          String.eqb lastUrl url &&
          sameByterange (seg_byterange last) (seg_byterange segment)
      | None => false
      end
  | None => false
  end = sameAsLastLoaded st segment.
Proof.
  intros Hurl. unfold sameAsLastLoaded. rewrite Hurl.
  destruct (lastSegmentLoaded_ st); reflexivity.
Qed.

(** The walk of [fillBuffer] over the segments from an index on: it passes
    the segments that repeat the last one loaded and asks for the first one
    that does not. *)
Lemma fillBufferFrom_request (loader : PlaylistLoader) (playlistRef : PlaylistRef)
    (playlist : Playlist) (segs : list Segment) (st : HlsHandler)
    (upcoming : list Segment) (n : nat) (currentBufferedEnd : float)
    (st' : HlsHandler) :
  playlists st = Some loader -> mediaRef loader = Some playlistRef ->
  media loader = Some playlist -> segments playlist = Some segs ->
  upcoming = drop n segs ->
  fillBufferFrom loader playlistRef playlist upcoming (Z.of_nat n)
    currentBufferedEnd st = Normal tt st' ->
  st' = st \/
  exists j segment url request,
    (n <= j)%nat /\ segs !! j = Some segment /\
    (forall i s, (n <= i < j)%nat -> segs !! i = Some s ->
                 sameAsLastLoaded st s = true) /\
    sameAsLastLoaded st segment = false /\
    playlistUriToUrl (seg_uri segment) st = Some url /\
    segmentXhr_ st' = Some request /\
    head (trace st') =
      Some (XhrSegment request url (seg_duration segment * 1.5 * 1000)%float
              (segmentXhrHeaders_ segment) (source_withCredentials st)).
Proof.
  intros Hl Hr Hm Hsegs. revert n currentBufferedEnd.
  induction upcoming as [|segment rest IH]; intros n currentBufferedEnd Hup; simpl.
  - intros Hrun. injection Hrun as <-. now left.
  - assert (Hn : segs !! n = Some segment).
    { rewrite <- (Nat.add_0_r n), <- lookup_drop, <- Hup. reflexivity. }
    destruct (playlistUriToUrl (seg_uri segment) st) as [url|] eqn:Hurl;
      [|discriminate].
    rewrite (repeated_sameAsLastLoaded st segment url Hurl).
    destruct (sameAsLastLoaded st segment) eqn:Hsame.
    + replace (Z.of_nat n + 1) with (Z.of_nat (S n)) by lia. intros Hrun.
      assert (Hrest : rest = drop (S n) segs).
      { rewrite (drop_S segs segment n Hn) in Hup. now injection Hup. }
      destruct (IH (S n) 0%float Hrest Hrun)
        as [->|(j & s & u & rq & Hle & Hj & Hskip & Hrestq)]; [now left|].
      right. exists j, s, u, rq. split; [lia|]. split; [exact Hj|].
      split; [|exact Hrestq].
      intros i s' [Hlo Hhi] Hi. destruct (Nat.eq_dec i n) as [->|Hne].
      * rewrite Hn in Hi. injection Hi as <-. exact Hsame.
      * apply (Hskip i s'); [lia|exact Hi].
    + intros Hrun.
      apply loadSegment_request in Hrun
        as (playlist' & segment' & request & Hseg & Hx & Hhead).
      right. exists n, segment, url, request.
      split; [lia|]. split; [exact Hn|]. split; [intros; lia|].
      split; [exact Hsame|]. split; [exact Hurl|]. split; [exact Hx|].
      assert (Hd : deref loader playlistRef = Some playlist).
      { unfold media in Hm. now rewrite Hr in Hm. }
      unfold segmentOf, playlistOf in Hseg. simpl in Hseg.
      rewrite Hl, Hd, Hsegs in Hseg. unfold JS.index in Hseg.
      destruct (Z.ltb_spec (Z.of_nat n) 0) as [Hneg|_]; [lia|].
      rewrite Nat2Z.id, Hn in Hseg. injection Hseg as <- <-. exact Hhead.
Qed.

Lemma isState_false (expected s : LoaderState) :
  isState expected s = false -> s <> expected.
Proof. intros Hs ->. destruct expected; discriminate. Qed.

Lemma fillBuffer_made_request (mediaIndex : option Z) (st st' : HlsHandler) :
  fillBuffer mediaIndex st = Normal tt st' -> st' <> st ->
  exists loader playlistRef playlist segs currentBufferedEnd,
    loadingState_ st = LoadSegments /\ playlists st = Some loader /\
    String.eqb (currentSrc (tech_ st)) "" = false /\
    segmentXhr_ st = None /\ pendingSegment_ st = None /\
    isState HAVE_NOTHING (state loader) = false /\
    isState SWITCHING_MEDIA (state loader) = false /\
    mediaRef loader = Some playlistRef /\ media loader = Some playlist /\
    segments playlist = Some segs /\
    (mediaIndex = None ->
     JS.geb (bufferedTime st) Hls.GOAL_BUFFER_LENGTH = false) /\
    fillBufferFrom loader playlistRef playlist
      (segmentsFrom segs (startIndex mediaIndex loader st))
      (startIndex mediaIndex loader st) currentBufferedEnd st = Normal tt st'.
Proof.
  unfold fillBuffer. intros Hrun Hne.
  assert (Hstop : Normal tt st = Normal tt st' -> False)
    by (intros Heq; injection Heq as <-; congruence).
  destruct (loadingState_ st) eqn:Hload; try (destruct (Hstop Hrun)).
  destruct (playlists st) as [loader|] eqn:Hl; [|destruct (Hstop Hrun)].
  destruct (String.eqb (currentSrc (tech_ st)) "") eqn:Hsrc; [destruct (Hstop Hrun)|].
  destruct (segmentXhr_ st) eqn:Hx; [destruct (Hstop Hrun)|].
  destruct (pendingSegment_ st) eqn:Hp; [destruct (Hstop Hrun)|].
  cbn [JS.defined] in Hrun.
  destruct (isState HAVE_NOTHING (state loader)) eqn:Hnothing;
    [destruct (Hstop Hrun)|].
  destruct (mediaRef loader) as [playlistRef|] eqn:Hr; [|destruct (Hstop Hrun)].
  destruct (media loader) as [playlist|] eqn:Hm; [|destruct (Hstop Hrun)].
  destruct (segments playlist) as [segs|] eqn:Hsegs; [|destruct (Hstop Hrun)].
  destruct (isState SWITCHING_MEDIA (state loader)) eqn:Hswitch;
    [destruct (Hstop Hrun)|].
  exists loader, playlistRef, playlist, segs.
  destruct mediaIndex as [index|].
  - exists 0%float. do 10 (split; [first [reflexivity|assumption]|]).
    split; [discriminate|exact Hrun].
  - unfold startIndex, bufferedTime.
    destruct (findBufferedRange_ None st) as [|[start0 end0] found].
    + exists 0%float. do 10 (split; [first [reflexivity|assumption]|]).
      split; [reflexivity|exact Hrun].
    + match type of Hrun with
      | (if ?c then _ else _) = _ => destruct c eqn:Hgoal
      end; [destruct (Hstop Hrun)|].
      exists end0. do 10 (split; [first [reflexivity|assumption]|]).
      split; [intros _; reflexivity|exact Hrun].
Qed.

Lemma fillBuffer_request_made (mediaIndex : option Z) (st : HlsHandler) :
  segmentRequests (state_of (fillBuffer mediaIndex st)) <> segmentRequests st ->
  exists st', fillBuffer mediaIndex st = Normal tt st' /\ st' <> st.
Proof.
  intros Hne. destruct (fillBuffer_normal mediaIndex st) as [st' Hrun].
  exists st'. split; [exact Hrun|]. rewrite Hrun in Hne. simpl in Hne. congruence.
Qed.

(** X9. When [fillBuffer] makes a segment request, the request is for a
    segment of the active media playlist at or after the index it starts
    from (the index given, else the index of the end of the buffered range
    around the play head, else the index of the play head): the first one
    from there on that does not have both the URL and the byte range of the
    last segment loaded. The request carries the resolved URL of that
    segment, a timeout of one and a half times its duration, and its byte
    range. *)
Theorem fillBuffer_requests_first_new_segment
    (mediaIndex : option Z) (st : HlsHandler) :
  segmentRequests (state_of (fillBuffer mediaIndex st)) <> segmentRequests st ->
  exists loader playlist segs j segment url request,
    playlists st = Some loader /\ media loader = Some playlist /\
    segments playlist = Some segs /\
    startIndex mediaIndex loader st <= Z.of_nat j /\
    segs !! j = Some segment /\
    (forall i s,
        startIndex mediaIndex loader st <= Z.of_nat i < Z.of_nat j ->
        segs !! i = Some s -> sameAsLastLoaded st s = true) /\
    sameAsLastLoaded st segment = false /\
    playlistUriToUrl (seg_uri segment) st = Some url /\
    segmentXhr_ (state_of (fillBuffer mediaIndex st)) = Some request /\
    head (trace (state_of (fillBuffer mediaIndex st))) =
      Some (XhrSegment request url (seg_duration segment * 1.5 * 1000)%float
              (segmentXhrHeaders_ segment) (source_withCredentials st)).
Proof.
  intros Hne.
  destruct (fillBuffer_request_made mediaIndex st Hne) as (st' & Hrun & Hchanged).
  rewrite Hrun. simpl.
  destruct (fillBuffer_made_request mediaIndex st st' Hrun Hchanged)
    as (loader & playlistRef & playlist & segs & cbe & _ & Hl & _ & _ & _ & _ & _ &
        Hr & Hm & Hsegs & _ & Hfrom).
  unfold segmentsFrom in Hfrom.
  destruct (Z.ltb_spec (startIndex mediaIndex loader st) 0) as [Hneg|Hpos].
  { simpl in Hfrom. injection Hfrom as <-. congruence. }
  rewrite <- (Z2Nat.id (startIndex mediaIndex loader st)) in Hfrom at 2 by exact Hpos.
  destruct (fillBufferFrom_request loader playlistRef playlist segs st _ _ cbe st'
              Hl Hr Hm Hsegs eq_refl Hfrom)
    as [->|(j & segment & url & request & Hle & Hj & Hskip & Hrest)]; [congruence|].
  exists loader, playlist, segs, j, segment, url, request.
  split; [exact Hl|]. split; [exact Hm|]. split; [exact Hsegs|].
  split; [lia|]. split; [exact Hj|]. split; [|exact Hrest].
  intros i s Hi. apply Hskip. lia.
Qed.

(** X10. [fillBuffer] asks for a segment only when loading segments is
    allowed, the tech has a source, no segment request is outstanding, no
    segment is pending, and the loader has an active media playlist with
    segments and is neither without a playlist nor switching; and, when it is
    given no index, only while less than [GOAL_BUFFER_LENGTH] seconds are
    buffered ahead of the play head. *)
Theorem fillBuffer_requests_only_when_ready
    (mediaIndex : option Z) (st : HlsHandler) :
  segmentRequests (state_of (fillBuffer mediaIndex st)) <> segmentRequests st ->
  loadingState_ st = LoadSegments /\ currentSrc (tech_ st) <> ""%string /\
  segmentXhr_ st = None /\ pendingSegment_ st = None /\
  (exists loader playlist,
      playlists st = Some loader /\ state loader <> HAVE_NOTHING /\
      state loader <> SWITCHING_MEDIA /\ media loader = Some playlist /\
      JS.defined (segments playlist) = true) /\
  (mediaIndex = None ->
   JS.geb (bufferedTime st) Hls.GOAL_BUFFER_LENGTH = false).
Proof.
  intros Hne.
  destruct (fillBuffer_request_made mediaIndex st Hne) as (st' & Hrun & Hchanged).
  destruct (fillBuffer_made_request mediaIndex st st' Hrun Hchanged)
    as (loader & playlistRef & playlist & segs & cbe & Hload & Hl & Hsrc & Hx & Hp &
        Hnothing & Hswitch & Hr & Hm & Hsegs & Hgoal & _).
  split; [exact Hload|]. split; [now apply String.eqb_neq|].
  split; [exact Hx|]. split; [exact Hp|]. split; [|exact Hgoal].
  exists loader, playlist. split; [exact Hl|].
  split; [apply isState_false, Hnothing|].
  split; [apply isState_false, Hswitch|]. split; [exact Hm|].
  now rewrite Hsegs.
Qed.

(** ** Seeking before the metadata is there *)

Lemma grows_In (allowed : Effect -> bool) (t t' : list Effect) (e : Effect) :
  grows allowed t t' -> In e t -> In e t'.
Proof.
  intros Hg Hin. induction Hg as [|e' after _ _ IH]; [exact Hin|].
  right. exact IH.
Qed.

(** X11. [setCurrentTime] never throws, and what it returns is decided by
    the state. Without a loader, without an active media playlist or without
    its segments it returns 0 and changes nothing. Otherwise, when the play
    head lies in a buffered range or the pending segment is being appended,
    it returns the time it was given and changes nothing. Otherwise it
    returns [undefined], and the state it leaves is the one [fillBuffer]
    leaves when called with the segment index of the time after the last
    segment loaded has been forgotten and the requests cancelled: no last
    segment is remembered, no segment is pending, the segment request that
    was outstanding has been aborted, the key request that was outstanding
    has been flagged as aborted and aborted, and at most one segment request
    has been made. *)
Theorem setCurrentTime_returns (time : float) (st : HlsHandler) :
  exists v st',
    setCurrentTime time st = Normal v st' /\
    match (playlists st ≫= media) ≫= segments with
    | None => v = Some 0%float /\ st' = st
    | Some _ =>
        if negb (Nat.eqb (length (findBufferedRange_ None st)) 0) ||
           match pendingSegment_ st with
           | Some pending => JS.defined (si_buffered pending)
           | None => false
           end
        then v = Some time /\ st' = st
        else
          v = None /\
          lastSegmentLoaded_ st' = None /\ pendingSegment_ st' = None /\
          (forall x, segmentXhr_ st = Some x -> In (XhrAbort x) (trace st')) /\
          (forall x, keyXhr_ st = Some x ->
                     In (XhrSetAborted x) (trace st') /\
                     In (XhrAbort x) (trace st')) /\
          (segmentRequests st' <= S (segmentRequests st))%nat /\
          exists loader,
            playlists st = Some loader /\
            fillBuffer (Some (getMediaIndexForTime_ loader time))
              (let st1 := cancelSegmentXhr (set_lastSegmentLoaded_ None st) in
               match keyXhr_ st1 with
               | Some request => cancelKeyXhr (emit (XhrSetAborted request) st1)
               | None => st1
               end) = Normal tt st'
    end.
Proof.
  unfold setCurrentTime.
  destruct (playlists st) as [loader|] eqn:Hl; cbn [mbind option_bind];
    [|exists (Some 0%float), st; auto].
  destruct (media loader) as [m|]; cbn [mbind option_bind];
    [|exists (Some 0%float), st; auto].
  destruct (segments m) as [segs|]; cbn [JS.defined negb];
    [|exists (Some 0%float), st; auto].
  destruct (negb (Nat.eqb (length (findBufferedRange_ None st)) 0));
    cbn [orb]; [exists (Some time), st; auto|].
  destruct (match pendingSegment_ st with
            | Some pending => JS.defined (si_buffered pending)
            | None => false
            end); [exists (Some time), st; auto|].
  set (st1 := cancelSegmentXhr (set_lastSegmentLoaded_ None st)).
  set (st2 := match keyXhr_ st1 with
              | Some request => cancelKeyXhr (emit (XhrSetAborted request) st1)
              | None => st1
              end).
  assert (Hst2 : lastSegmentLoaded_ st2 = None /\ pendingSegment_ st2 = None /\
                 (forall x, segmentXhr_ st = Some x -> In (XhrAbort x) (trace st2)) /\
                 (forall x, keyXhr_ st = Some x ->
                            In (XhrSetAborted x) (trace st2) /\
                            In (XhrAbort x) (trace st2)) /\
                 segmentRequests st2 = segmentRequests st).
  { subst st2 st1. unfold cancelSegmentXhr, cancelKeyXhr. simpl.
    destruct (segmentXhr_ st) as [x|] eqn:Hx0;
      destruct (keyXhr_ st) as [y|] eqn:Hy0; simpl; rewrite ?Hx0, ?Hy0; simpl;
      (split; [reflexivity|]); (split; [reflexivity|]);
      (split; [intros x' Hx; try discriminate; injection Hx as <-; simpl; auto|]);
      (split; [intros x' Hx; try discriminate; injection Hx as <-; simpl; auto|]);
      reflexivity. }
  destruct Hst2 as (Hlast & Hpending & Hseg & Hkey & Hreqs).
  pose proof (fillBuffer_fillOnly (Some (getMediaIndexForTime_ loader time)) st2)
    as Hframe.
  pose proof (fillBuffer_outcome (Some (getMediaIndexForTime_ loader time)) st2)
    as Hout.
  unfold bind.
  destruct (fillBuffer_normal (Some (getMediaIndexForTime_ loader time)) st2)
    as [st3 Hrun].
  rewrite Hrun in *. simpl in Hframe.
  exists None, st3. split; [reflexivity|]. split; [reflexivity|].
  split; [rewrite (fi_lastSegmentLoaded _ _ Hframe); exact Hlast|].
  split; [rewrite (fi_pendingSegment _ _ Hframe); exact Hpending|].
  split; [intros x Hx; apply (grows_In _ _ _ _ (fi_trace _ _ Hframe)), Hseg, Hx|].
  split.
  { intros x Hx. destruct (Hkey x Hx) as [Ha Hb].
    split; apply (grows_In _ _ _ _ (fi_trace _ _ Hframe)); assumption. }
  split.
  { destruct Hout as [Heq|[(st4 & Heq & _ & Hone)|(st4 & Heq & _)]];
      try discriminate; injection Heq as <-; lia. }
  exists loader. split; [reflexivity|exact Hrun].
Qed.

(** ** Keys that have been downloaded *)

Lemma keyCalm_refl (k : KeyRef) (st : HlsHandler) : keyCalm k st st.
Proof. split; auto. Qed.

Lemma keyCalm_trans (k : KeyRef) (st1 st2 st3 : HlsHandler) :
  keyCalm k st1 st2 -> keyCalm k st2 st3 -> keyCalm k st1 st3.
Proof.
  intros [Hk12 Hr12] [Hk23 Hr23]. split; [congruence|].
  intros Hloaded. rewrite Hr23, Hr12; auto.
  destruct Hloaded as (key & Hkey & Hb). exists key. rewrite Hk12. auto.
Qed.

Lemma drainOnly_keyCalm (k : KeyRef) (st st' : HlsHandler) :
  drainOnly st st' -> keyCalm k st st'.
Proof.
  intros Hd. split; [apply (dr_keys _ _ Hd)|]. intros _. unfold keyRequests.
  apply (grows_count isDrainCall); [|apply (dr_trace _ _ Hd)].
  intros e He. destruct e; simpl in *; congruence.
Qed.

Lemma failoverOnly_keyCalm (k : KeyRef) (st st' : HlsHandler) :
  failoverOnly st st' -> keyCalm k st st'.
Proof. intros Hf. apply drainOnly_keyCalm, failoverOnly_drainOnly, Hf. Qed.

(** [fetchKey_] makes no request for a key that has its bytes. *)
Lemma fetchKey_keyCalm (k : KeyRef) (segment : Segment) :
  keeping (keyCalm k) (fetchKey_ segment).
Proof.
  intros st. unfold fetchKey_.
  destruct (JS.defined (keyXhr_ st)); [apply keyCalm_refl|].
  destruct (keyOf segment st) as [[k' key']|] eqn:Hkey; [|apply keyCalm_refl].
  destruct (JS.defined (key_bytes key')) eqn:Hbytes; simpl; [apply keyCalm_refl|].
  destruct (keyFailed key'); simpl; [apply keyCalm_refl|].
  destruct (playlistUriToUrl (key_uri key') st) as [url|]; [|apply keyCalm_refl].
  simpl. split; [reflexivity|].
  intros (key & Hlook & Hb). unfold keyRequests. simpl.
  destruct (Nat.eqb_spec k k') as [->|Hne]; [|reflexivity].
  apply keyOf_lookup in Hkey. congruence.
Qed.

Lemma loadSegment_keyCalm (k : KeyRef) (segmentInfo : SegmentInfo) :
  keeping (keyCalm k) (loadSegment segmentInfo).
Proof.
  intros st. unfold loadSegment.
  destruct (playlistOf segmentInfo st) as [[playlist segs]|];
    [|apply keyCalm_refl].
  cbv zeta.
  match goal with
  | |- keyCalm _ _ (state_of (match _ with Some _ => _ | None => TypeError ?s end)) =>
      set (st1 := s)
  end.
  assert (Hst1 : keyCalm k st st1).
  { subst st1. destruct (sourceBuffer st) as [sb|]; [|apply keyCalm_refl].
    destruct (negb (updating sb)); [|apply keyCalm_refl].
    match goal with
    | |- context [if ?c then _ else _] => destruct c
    end; split; auto. }
  eapply keyCalm_trans; [exact Hst1|].
  destruct (JS.index segs (si_mediaIndex segmentInfo)) as [segment|];
    [|apply keyCalm_refl].
  apply bind_keeping; [apply keyCalm_trans| |].
  - destruct (JS.defined (keyOf segment st1));
      [apply fetchKey_keyCalm|intros st2; apply keyCalm_refl].
  - intros _ st2. split; auto.
Qed.

Lemma fillBufferFrom_keyCalm (k : KeyRef) (loader : PlaylistLoader)
    (playlistRef : PlaylistRef) (playlist : Playlist) (upcoming : list Segment)
    (mediaIndex : Z) (currentBufferedEnd : float) :
  keeping (keyCalm k)
    (fillBufferFrom loader playlistRef playlist upcoming mediaIndex
       currentBufferedEnd).
Proof.
  revert mediaIndex currentBufferedEnd.
  induction upcoming as [|segment rest IH]; intros mediaIndex currentBufferedEnd st;
    simpl; [apply keyCalm_refl|].
  destruct (playlistUriToUrl (seg_uri segment) st) as [url|]; [|apply keyCalm_refl].
  match goal with
  | |- context [if ?c then _ else _] => destruct c
  end; [apply IH|apply loadSegment_keyCalm].
Qed.

Lemma fillBuffer_keyCalm (k : KeyRef) (mediaIndex : option Z) :
  keeping (keyCalm k) (fillBuffer mediaIndex).
Proof.
  intros st. unfold fillBuffer.
  repeat match goal with
         | |- keyCalm _ _ (state_of (Normal _ _)) => apply keyCalm_refl
         | |- keyCalm _ _ (state_of (fillBufferFrom _ _ _ _ _ _ _)) =>
             apply fillBufferFrom_keyCalm
         | |- keyCalm _ _ (state_of (match ?x with _ => _ end)) => destruct x
         | |- keyCalm _ _ (state_of (if ?x then _ else _)) => destruct x
         end.
Qed.

Lemma checkBuffer_keyCalm (k : KeyRef) : keeping (keyCalm k) checkBuffer_.
Proof.
  unfold checkBuffer_.
  apply bind_keeping; [apply keyCalm_trans| |].
  { intros st. simpl. destruct (checkBufferTimeout_ st); split; auto. }
  intros _. apply bind_keeping; [apply keyCalm_trans|apply fillBuffer_keyCalm|].
  intros _. apply bind_keeping; [apply keyCalm_trans| |].
  { intros st. apply drainOnly_keyCalm, drainBuffer_drainOnly. }
  intros _ st. split; auto.
Qed.

Lemma setCurrentTime_keyCalm (k : KeyRef) (time : float) :
  keeping (keyCalm k) (setCurrentTime time).
Proof.
  intros st. unfold setCurrentTime.
  destruct (playlists st) as [loader|]; [|apply keyCalm_refl].
  destruct (media loader) as [m|]; [|apply keyCalm_refl].
  destruct (negb (JS.defined (segments m))); [apply keyCalm_refl|].
  destruct (negb (Nat.eqb (length (findBufferedRange_ None st)) 0));
    [apply keyCalm_refl|].
  match goal with
  | |- context [if ?c then _ else _] => destruct c
  end; [apply keyCalm_refl|].
  match goal with
  | |- keyCalm _ _ (state_of (_ ?s)) => set (st1 := s)
  end.
  assert (Hst1 : keyCalm k st st1).
  { subst st1. unfold cancelSegmentXhr, cancelKeyXhr. simpl.
    destruct (segmentXhr_ st); simpl; destruct (keyXhr_ st); simpl; split; auto. }
  eapply keyCalm_trans; [exact Hst1|].
  apply bind_keeping; [apply keyCalm_trans|apply fillBuffer_keyCalm|].
  intros _ st2. apply keyCalm_refl.
Qed.

Lemma segmentLoaded_keyCalm (k : KeyRef) (segmentInfo : SegmentInfo)
    (segment : Segment) (request : XhrResponse) :
  keeping (keyCalm k) (segmentLoaded segmentInfo segment request).
Proof.
  intros st.
  assert (Hstale : segmentXhr_ st <> Some (rq_ref request) ->
                   segmentLoaded segmentInfo segment request st = Normal tt st).
  { intros Hne. unfold segmentLoaded.
    destruct (segmentXhr_ st) as [current|]; [|reflexivity].
    destruct (Nat.eqb_spec (rq_ref request) current) as [Heq|Hneq];
      [congruence|reflexivity]. }
  destruct (segmentXhr_ st) as [current|] eqn:Hx;
    [|rewrite Hstale by discriminate; apply keyCalm_refl].
  destruct (Nat.eq_dec current (rq_ref request)) as [->|Hne];
    [|rewrite Hstale by congruence; apply keyCalm_refl].
  destruct (segmentLoaded_cases segmentInfo segment request st Hx)
    as (st1 & Hd & _ & _ & _ & Hkeys & Hreqs & _).
  eapply keyCalm_trans; [|apply drainOnly_keyCalm, Hd].
  split; [exact Hkeys|]. intros _. apply Hreqs.
Qed.

Lemma keyLoadedIn_alter (k k' : KeyRef) (f : Key -> Key) (st st1 : HlsHandler) :
  (forall key, JS.defined (key_bytes key) = true ->
               JS.defined (key_bytes (f key)) = true) ->
  keys st1 = alter f k' (keys st) ->
  keyLoadedIn k st -> keyLoadedIn k st1.
Proof.
  intros Hf Hkeys (key & Hlook & Hb). unfold keyLoadedIn. rewrite Hkeys.
  destruct (Nat.eq_dec k' k) as [->|Hne].
  - exists (f key). rewrite list_lookup_alter_eq, Hlook. auto.
  - exists key. rewrite list_lookup_alter_ne by exact Hne. auto.
Qed.

Lemma keyCalm_loaded (k : KeyRef) (st st' : HlsHandler) :
  keyCalm k st st' -> keyLoadedIn k st ->
  keyLoadedIn k st' /\ keyRequests k st' = keyRequests k st.
Proof.
  intros [Hkeys Hreqs] Hloaded. split; [|auto].
  destruct Hloaded as (key & Hlook & Hb). exists key. rewrite Hkeys. auto.
Qed.

Lemma receiveKey_loaded_stays (k : KeyRef) (segment : Segment) (k' : KeyRef)
    (request : XhrResponse) (st : HlsHandler) :
  keyLoadedIn k st ->
  keyLoadedIn k (state_of (receiveKey segment k' request st)) /\
  keyRequests k (state_of (receiveKey segment k' request st)) = keyRequests k st.
Proof.
  intros Hloaded. unfold receiveKey, bind. simpl.
  destruct (keyBody request) as [view|]; simpl.
  - match goal with
    | |- context [checkBuffer_ ?s] => set (st1 := s)
    end.
    assert (H1 : keyLoadedIn k st1).
    { eapply (keyLoadedIn_alter k k') with (st := st); cycle 1;
        [reflexivity|exact Hloaded|].
      intros key _. reflexivity. }
    destruct (keyCalm_loaded k st1 _ (checkBuffer_keyCalm k st1) H1) as [H2 H3].
    split; [exact H2|]. rewrite H3. reflexivity.
  - match goal with
    | |- context [(if _ then _ else _) ?s] => set (st1 := s)
    end.
    assert (H1 : keyLoadedIn k st1).
    { eapply (keyLoadedIn_alter k k') with (st := st); cycle 1;
        [reflexivity|exact Hloaded|].
      intros key Hb. exact Hb. }
    destruct (negb (aborted request)).
    + destruct (keyCalm_loaded k st1 _ (fetchKey_keyCalm k segment st1) H1)
        as [H2 H3].
      split; [exact H2|]. rewrite H3. reflexivity.
    + simpl. split; [exact H1|reflexivity].
Qed.

End Coverage.

(** ** The end of the stream *)

Lemma index_last_None {A : Type} (l : list A) :
  JS.index l (Z.of_nat (length l) - 1) = None <-> l = [].
Proof.
  unfold JS.index. destruct l as [|x l]; [split; reflexivity|].
  split; [|discriminate].
  destruct (Z.ltb_spec (Z.of_nat (length (x :: l)) - 1) 0) as [Hneg|_].
  { simpl length in Hneg. lia. }
  intros Hnone. apply lookup_ge_None in Hnone. simpl length in Hnone. lia.
Qed.

(** X13. [detectEndOfStream] tells to end the stream exactly when the
    playlist is finished ([endList]), the media source is open, and either
    the segment appended is the last one of the playlist or the buffered
    range around the play head reaches the known end of the last segment. A
    live playlist and a media source that is not open never end the
    stream. *)
Theorem detectEndOfStream_true_iff
    (playlist : option Playlist) (source : option MediaSource)
    (segmentIndex : Z) (currentBuffered : TimeRanges) :
  detectEndOfStream playlist source segmentIndex currentBuffered = Some true <->
  exists pl segs ms,
    playlist = Some pl /\ segments pl = Some segs /\ endList pl = true /\
    source = Some ms /\ readyState ms = "open"%string /\
    match currentBuffered with
    | [] => segmentIndex = Z.of_nat (length segs) - 1
    | (_, end0) :: _ =>
        exists lastSegment,
          JS.index segs (Z.of_nat (length segs) - 1) = Some lastSegment /\
          (segmentIndex = Z.of_nat (length segs) - 1 \/
           exists e, seg_end lastSegment = Some e /\ PrimFloat.leb e end0 = true)
    end.
Proof.
  unfold detectEndOfStream. split.
  - destruct playlist as [pl|]; [|discriminate].
    destruct (segments pl) as [segs|] eqn:Hsegs; [|discriminate].
    intros Hrun.
    assert (Hcase :
      forall bufferedToEnd : bool,
        (if endList pl
         then match source with
              | Some ms =>
                  Some (String.eqb (readyState ms) "open" &&
                        ((segmentIndex =? Z.of_nat (length segs) - 1) ||
                         bufferedToEnd))
              | None => None
              end
         else Some false) = Some true ->
        exists ms,
          endList pl = true /\ source = Some ms /\
          readyState ms = "open"%string /\
          (segmentIndex = Z.of_nat (length segs) - 1 \/ bufferedToEnd = true)).
    { intros bufferedToEnd Hrun'.
      destruct (endList pl); [|discriminate].
      destruct source as [ms|]; [|discriminate]. exists ms.
      injection Hrun' as Hrun'. apply andb_true_iff in Hrun' as [Hopen Hend].
      apply String.eqb_eq in Hopen. do 3 (split; [auto|]).
      apply orb_true_iff in Hend as [Hlast|Hbuf]; [left; apply Z.eqb_eq, Hlast|now right]. }
    exists pl, segs.
    destruct currentBuffered as [|[start0 end0] rest].
    + apply Hcase in Hrun as (ms & Hend & Hms & Hopen & [Hlast|Hf]);
        [|discriminate].
      exists ms. auto 10.
    + destruct (JS.index segs (Z.of_nat (length segs) - 1)) as [lastSegment|];
        [|discriminate].
      destruct (seg_end lastSegment) as [e|] eqn:He;
        apply Hcase in Hrun as (ms & Hend & Hms & Hopen & Hwhy);
        exists ms; (do 5 (split; [auto|])); exists lastSegment;
        (split; [reflexivity|]).
      * destruct Hwhy as [Hlast|Hle]; [now left|right; exists e; auto].
      * destruct Hwhy as [Hlast|Hf]; [now left|discriminate].
  - intros (pl & segs & ms & -> & Hsegs & Hend & -> & Hopen & Hcase).
    rewrite Hsegs, Hend, Hopen. simpl.
    destruct currentBuffered as [|[start0 end0] rest].
    + subst segmentIndex. now rewrite Z.eqb_refl.
    + destruct Hcase as (lastSegment & -> & [->|(e & -> & Hle)]).
      * rewrite Z.eqb_refl. now destruct (seg_end lastSegment).
      * rewrite Hle. now rewrite orb_true_r.
Qed.

Lemma detectEndOfStream_source
    (playlist : option Playlist) (source : option MediaSource)
    (segmentIndex : Z) (currentBuffered : TimeRanges) :
  detectEndOfStream playlist source segmentIndex currentBuffered = Some true ->
  exists ms, source = Some ms.
Proof.
  unfold detectEndOfStream.
  destruct playlist as [pl|]; [|discriminate].
  destruct (segments pl) as [segs|]; [|discriminate].
  destruct (match currentBuffered with [] => _ | _ => _ end); [|discriminate].
  destruct (endList pl); [|discriminate].
  destruct source as [ms|]; [eauto|discriminate].
Qed.

(** X14. [detectEndOfStream] returns false for a missing playlist, and
    throws in three cases only: the playlist has no list of segments; the
    list is empty while the play head lies in a buffered range (the [end] of
    the last segment is read); or the playlist is finished and there is no
    media source. *)
Theorem detectEndOfStream_throws_iff
    (playlist : option Playlist) (source : option MediaSource)
    (segmentIndex : Z) (currentBuffered : TimeRanges) :
  (playlist = None ->
   detectEndOfStream playlist source segmentIndex currentBuffered = Some false) /\
  (detectEndOfStream playlist source segmentIndex currentBuffered = None <->
   exists pl,
     playlist = Some pl /\
     (segments pl = None \/
      segments pl = Some [] /\ currentBuffered <> [] \/
      endList pl = true /\ source = None)).
Proof.
  split; [intros ->; reflexivity|].
  unfold detectEndOfStream.
  destruct playlist as [pl|];
    [|split; [discriminate|intros (pl & Hpl & _); discriminate]].
  assert (Hsame :
    (exists pl0,
       Some pl = Some pl0 /\
       (segments pl0 = None \/
        segments pl0 = Some [] /\ currentBuffered <> [] \/
        endList pl0 = true /\ source = None)) <->
    (segments pl = None \/
     segments pl = Some [] /\ currentBuffered <> [] \/
     endList pl = true /\ source = None)).
  { split; [intros (pl0 & Hpl & Hwhy); now injection Hpl as <-|].
    intros Hwhy. exists pl. auto. }
  rewrite Hsame. clear Hsame.
  destruct (segments pl) as [segs|] eqn:Hsegs; [|split; auto].
  assert (Htail :
    forall bufferedToEnd : bool,
      (if endList pl
       then match source with
            | Some ms =>
                Some (String.eqb (readyState ms) "open" &&
                      ((segmentIndex =? Z.of_nat (length segs) - 1) ||
                       bufferedToEnd))
            | None => None
            end
       else Some false) = None <-> endList pl = true /\ source = None).
  { intros bufferedToEnd. destruct (endList pl); [|split; [discriminate|]].
    - destruct source; split; auto; try discriminate. intros [_ Hs]. discriminate.
    - intros [Hf _]. discriminate. }
  destruct currentBuffered as [|[start0 end0] rest].
  - rewrite Htail. split; [auto|].
    intros [Hs|[[_ Hb]|Hthrow]]; [discriminate|congruence|exact Hthrow].
  - destruct (JS.index segs (Z.of_nat (length segs) - 1)) as [lastSegment|] eqn:Hlast.
    + assert (Hne : segs <> []).
      { intros ->. discriminate. }
      assert (Hgoal :
        forall bufferedToEnd : bool,
          (if endList pl
           then match source with
                | Some ms =>
                    Some (String.eqb (readyState ms) "open" &&
                          ((segmentIndex =? Z.of_nat (length segs) - 1) ||
                           bufferedToEnd))
                | None => None
                end
           else Some false) = None <->
          (Some segs = None \/
           Some segs = Some [] /\ (start0, end0) :: rest <> [] \/
           endList pl = true /\ source = None)).
      { intros bufferedToEnd. rewrite Htail. split; [auto|].
        intros [Hs|[[Hs _]|Hthrow]]; [discriminate|congruence|exact Hthrow]. }
      destruct (seg_end lastSegment); apply Hgoal.
    + apply index_last_None in Hlast. subst segs.
      split; [|reflexivity]. intros _.
      right; left. split; [reflexivity|discriminate].
Qed.

(** ** The buffered ranges before and after an append *)

Lemma SFcompare_right_refl (f1 f2 : SpecFloat.spec_float) (c : comparison) :
  SpecFloat.SFcompare f1 f2 = Some c -> SpecFloat.SFcompare f2 f2 = Some Eq.
Proof.
  destruct f2 as [s|s| |s m e]; simpl.
  - reflexivity.
  - intros _. now destruct s.
  - destruct f1; discriminate.
  - intros _. destruct s; now rewrite Z.compare_refl, Pos.compare_cont_refl.
Qed.

Lemma leb_refl_right (x y : float) :
  PrimFloat.leb x y = true -> PrimFloat.leb y y = true.
Proof.
  rewrite !FloatAxioms.leb_spec. unfold SpecFloat.SFleb.
  destruct (SpecFloat.SFcompare (FloatOps.Prim2SF x) (FloatOps.Prim2SF y))
    as [c|] eqn:Hc; [|discriminate].
  intros _. now rewrite (SFcompare_right_refl _ _ c Hc).
Qed.

(** X15. When every range buffered after an append was already there before
    it (nothing was added; ranges may have gone), no end is new and
    [findSoleUncommonTimeRangesEnd_] returns [null]: the end of a range is
    covered by the range itself. The ranges are those of a [TimeRanges]
    object, each with its start at or before its end. *)
Theorem findSoleUncommonTimeRangesEnd_nothing_appended
    (original update : TimeRanges) :
  (forall span, In span update -> In span original) ->
  Forall (fun span => PrimFloat.leb (fst span) (snd span) = true) update ->
  Hls.findSoleUncommonTimeRangesEnd_ (Some original) (Some update) = None.
Proof.
  intros Hsub Hwf. unfold Hls.findSoleUncommonTimeRangesEnd_.
  rewrite edges_of_original.
  assert (Hnone : List.filter
            (fun r : float * float =>
               negb (existsb (Hls.overlapsCurrentEnd (snd r)) original)) update = []).
  { induction update as [|span update IH]; [reflexivity|].
    apply Forall_cons in Hwf as [Hspan Hwf]. simpl.
    assert (Hcovered : existsb (Hls.overlapsCurrentEnd (snd span)) original = true).
    { apply existsb_exists. exists span. split; [apply Hsub; now left|].
      unfold Hls.overlapsCurrentEnd, JS.geb. rewrite Hspan. simpl.
      apply (leb_refl_right (fst span)), Hspan. }
    rewrite Hcovered. simpl. apply IH; [|exact Hwf].
    intros s Hs. apply Hsub. now right. }
  now rewrite Hnone.
Qed.

(** ** The MIME types handled *)

Lemma matchLiteral_spec (pattern s matched rest : string) :
  matchLiteral pattern s = Some (matched, rest) <->
  s = String.append matched rest /\ canonical matched = canonical pattern.
Proof.
  revert s matched rest.
  induction pattern as [|p pattern IH]; intros s matched rest; simpl.
  - split.
    + intros Heq. injection Heq as <- <-. auto.
    + intros [-> Hc]. destruct matched; [reflexivity|discriminate].
  - destruct s as [|c s].
    + split; [discriminate|]. intros [Hs Hc].
      destruct matched; simpl in *; discriminate.
    + destruct (Ascii.eqb_spec (canonicalize p) (canonicalize c)) as [Heq|Hne].
      * split.
        -- destruct (matchLiteral pattern s) as [[m r]|] eqn:Hm; [|discriminate].
           apply IH in Hm as [-> Hc]. intros Hr. injection Hr as <- <-.
           simpl. now rewrite Hc, Heq.
        -- intros [Hs Hc]. destruct matched as [|c' m']; [discriminate|].
           simpl in Hs, Hc. injection Hs as <- Hs. injection Hc as _ Hc.
           rewrite (proj2 (IH s m' rest) (conj Hs Hc)). reflexivity.
      * split; [discriminate|]. intros [Hs Hc].
        destruct matched as [|c' m']; [discriminate|].
        simpl in Hs, Hc. injection Hs as <- _. injection Hc as Hcc _. congruence.
Qed.

Lemma matchLiteral_defined (pattern s : string) :
  JS.defined (matchLiteral pattern s) = true <->
  exists prefix rest,
    s = String.append prefix rest /\ canonical prefix = canonical pattern.
Proof.
  split.
  - destruct (matchLiteral pattern s) as [[m r]|] eqn:Hm; [|discriminate].
    intros _. apply matchLiteral_spec in Hm. eauto.
  - intros (prefix & rest & Hs & Hc).
    now rewrite (proj2 (matchLiteral_spec pattern s prefix rest) (conj Hs Hc)).
Qed.

(** X16. [HlsSourceHandler.canPlayType] accepts a type exactly when the
    browser has no native HLS support and the type begins, letter case
    ignored, with [application/x-mpegurl] or with
    [application/vnd.apple.mpegurl]; what follows the prefix, such as
    parameters, does not matter. *)
Theorem canPlayType_iff (supportsNativeHls : bool) (type : string) :
  HlsSourceHandler.canPlayType supportsNativeHls type = true <->
  supportsNativeHls = false /\
  exists prefix rest,
    type = String.append prefix rest /\
    (canonical prefix = "APPLICATION/X-MPEGURL"%string \/
     canonical prefix = "APPLICATION/VND.APPLE.MPEGURL"%string).
Proof.
  unfold HlsSourceHandler.canPlayType, HlsSourceHandler.mpegurlRE.
  destruct supportsNativeHls; [split; [discriminate|intros [Hf _]; discriminate]|].
  rewrite orb_true_iff, !matchLiteral_defined. split.
  - intros [(prefix & rest & Hs & Hc)|(prefix & rest & Hs & Hc)];
      (split; [reflexivity|]); exists prefix, rest; auto.
  - intros (_ & prefix & rest & Hs & [Hc|Hc]); [left|right];
      exists prefix, rest; auto.
Qed.

(** ** Codecs and incompatible variants *)

Lemma sameText_eq (a b : option string) : sameText a b = true <-> a = b.
Proof.
  destruct a as [x|], b as [y|]; simpl; try (split; [discriminate|congruence]).
  - rewrite String.eqb_eq. split; congruence.
  - split; reflexivity.
Qed.

Lemma incompatible_false_iff (current variantCodecs : Codecs) :
  incompatible current variantCodecs = false <->
  codecCount variantCodecs = codecCount current /\
  videoCodec variantCodecs = videoCodec current /\
  (audioProfile variantCodecs = Some "5"%string <->
   audioProfile current = Some "5"%string).
Proof.
  unfold incompatible, isFive.
  rewrite !orb_false_iff, !negb_false_iff, Nat.eqb_eq, sameText_eq.
  rewrite <- !sameText_eq.
  destruct (sameText (audioProfile variantCodecs) (Some "5"%string)),
    (sameText (audioProfile current) (Some "5"%string)); simpl;
    intuition congruence.
Qed.

Lemma incompatible_same (c : Codecs) : incompatible c c = false.
Proof. apply incompatible_false_iff. tauto. Qed.

(** X17. [excludeIncompatibleVariants_] throws without a playlist loader or
    a master playlist. Otherwise it returns, the master keeps its length,
    each variant that differs from the media playlist in the number of
    codecs, in the video codec or in being HE-AAC (audio profile 5) gets
    [excludeUntil = Infinity] and is otherwise as before, and every other
    variant, among them each one with the codecs of the media playlist, is
    left as it was. Nothing else of the handler changes and no call is
    made. *)
Theorem excludeIncompatibleVariants_marks_incompatible
    (media : Playlist) (st : HlsHandler) :
  match playlists st ≫= master with
  | None => excludeIncompatibleVariants_ media st = TypeError st
  | Some pls =>
      exists st' loader loader' pls',
        excludeIncompatibleVariants_ media st = Normal tt st' /\
        playlists st = Some loader /\
        playlists st' = Some loader' /\ master loader' = Some pls' /\
        media_ loader' = media_ loader /\ state loader' = state loader /\
        expired_ loader' = expired_ loader /\
        length pls' = length pls /\
        (forall r p, pls !! r = Some p ->
           pls' !! r =
             Some (if incompatible (codecsOf media) (codecsOf p)
                   then set_excludeUntil (Some Infinity) p else p)) /\
        (forall r p, pls !! r = Some p -> codecsOf p = codecsOf media ->
           pls' !! r = Some p) /\
        failoverOnly st st' /\ error st' = error st
  end.
Proof.
  unfold excludeIncompatibleVariants_.
  destruct (playlists st) as [loader|] eqn:Hloader; [|reflexivity].
  simpl. destruct (master loader) as [pls|] eqn:Hmaster; [|reflexivity].
  eexists _, loader, _, _. split; [reflexivity|].
  split; [reflexivity|]. split; [reflexivity|]. split; [reflexivity|].
  do 3 (split; [reflexivity|]).
  split; [apply length_map|].
  split; [|split; [|split; [constructor; try reflexivity; constructor|reflexivity]]].
  - intros r p Hp. rewrite list_lookup_fmap, Hp. reflexivity.
  - intros r p Hp Hsame. rewrite list_lookup_fmap, Hp. simpl.
    now rewrite Hsame, incompatible_same.
Qed.

Lemma marked_variant_not_selected
    (media : Playlist) (st st' later later' : HlsHandler) (r : PlaylistRef) :
  excludeIncompatibleVariants_ media st = Normal tt st' ->
  playlists later = playlists st' ->
  selectPlaylist later = Normal (Some r) later' ->
  exists loader pls p,
    playlists st = Some loader /\ master loader = Some pls /\
    pls !! r = Some p /\
    incompatible (codecsOf media) (codecsOf p) = false.
Proof.
  unfold excludeIncompatibleVariants_.
  destruct (playlists st) as [loader|] eqn:Hloader; [|discriminate].
  destruct (master loader) as [pls|] eqn:Hmaster; [|discriminate].
  intros Hrun Hsame Hselect. injection Hrun as <-. simpl in Hsame.
  apply selectPlaylist_returns_kept in Hselect as [_ Hkept].
  destruct (Hkept r eq_refl) as (loader2 & pls2 & p2 & Hl2 & Hm2 & Hp2 & Hopen).
  rewrite Hsame in Hl2. injection Hl2 as <-. simpl in Hm2. injection Hm2 as <-.
  rewrite list_lookup_fmap in Hp2.
  destruct (pls !! r) as [p|] eqn:Hp; [|discriminate].
  simpl in Hp2. injection Hp2 as <-.
  exists loader, pls, p. do 3 (split; [first [reflexivity|assumption]|]).
  destruct (incompatible (codecsOf media) (codecsOf p)); [|reflexivity].
  discriminate.
Qed.

(** X18. After [excludeIncompatibleVariants_], and for as long as the
    playlists are as it left them, [selectPlaylist] never returns a variant
    that is incompatible with the media playlist, whatever the time, the
    bandwidth and the size of the player: the variant returned has as many
    codecs as the media playlist, the same video codec, and is HE-AAC
    exactly when the media playlist is. *)
Theorem incompatible_variant_is_never_selected
    (media : Playlist) (st st' later later' : HlsHandler) (r : PlaylistRef) :
  excludeIncompatibleVariants_ media st = Normal tt st' ->
  playlists later = playlists st' ->
  selectPlaylist later = Normal (Some r) later' ->
  exists loader pls p,
    playlists st = Some loader /\ master loader = Some pls /\
    pls !! r = Some p /\
    codecCount (codecsOf p) = codecCount (codecsOf media) /\
    videoCodec (codecsOf p) = videoCodec (codecsOf media) /\
    (audioProfile (codecsOf p) = Some "5"%string <->
     audioProfile (codecsOf media) = Some "5"%string).
Proof.
  intros Hrun Hsame Hselect.
  destruct (marked_variant_not_selected media st st' later later' r
              Hrun Hsame Hselect)
    as (loader & pls & p & Hl & Hm & Hp & Hok).
  exists loader, pls, p. do 3 (split; [assumption|]).
  apply incompatible_false_iff, Hok.
Qed.

(** ** What [parseCodecs] reads *)

Lemma append_assoc (a b c : string) :
  String.append (String.append a b) c = String.append a (String.append b c).
Proof. induction a as [|x a IH]; simpl; [reflexivity|now rewrite IH]. Qed.

Lemma execAfterSeparator_found (tail : string -> option string)
    (atBoundary : bool) (s group : string) :
  execAfterSeparator tail atBoundary s = Some group ->
  exists before text,
    s = String.append before text /\ tail text = Some group /\
    (before = EmptyString /\ atBoundary = true \/
     exists b c, before = String.append b (String c EmptyString) /\
                 isSeparator c = true).
Proof.
  revert atBoundary. induction s as [|c s IH]; intros atBoundary; simpl.
  - destruct atBoundary; [|discriminate].
    destruct (tail EmptyString) as [g|] eqn:Hg; [|discriminate].
    intros Heq. injection Heq as <-. exists EmptyString, EmptyString. auto.
  - assert (Hnext :
      execAfterSeparator tail (isSeparator c) s = Some group ->
      exists before text,
        String c s = String.append before text /\ tail text = Some group /\
        (before = EmptyString /\ atBoundary = true \/
         exists b c0, before = String.append b (String c0 EmptyString) /\
                      isSeparator c0 = true)).
    { intros Hrun. apply IH in Hrun as (before & text & -> & Htail & Hwhere).
      exists (String c before), text. split; [reflexivity|]. split; [exact Htail|].
      right. destruct Hwhere as [[-> Hsep]|(b & c0 & -> & Hsep)].
      - exists EmptyString, c. auto.
      - exists (String c b), c0. auto. }
    destruct atBoundary; [|exact Hnext].
    destruct (tail (String c s)) as [g|] eqn:Hg; [|exact Hnext].
    intros Heq. injection Heq as <-. exists EmptyString, (String c s). auto.
Qed.

Lemma digits_spec (s : string) :
  s = String.append (fst (digits s)) (snd (digits s)) /\
  allDigits (fst (digits s)) = true.
Proof.
  induction s as [|c s [IHs IHd]]; simpl; [auto|].
  destruct (isDigit c) eqn:Hc; [|auto].
  destruct (digits s) as [d rest]. simpl in *. rewrite Hc, IHd. now rewrite <- IHs.
Qed.

(** X19. What [parseCodecs] returns is read off the string. A video codec
    returned is the text [avc1], in the letter case found, standing at the
    start of the string or after white space or a comma. An audio profile
    returned is a non-empty run of digits that follows, at such a place, the
    text [mp4a], one more character, a non-empty run of digits and a dot.
    The number of codecs is never zero, so the fallback to two is never
    taken. *)
Theorem parseCodecs_reads_the_string (codecs : string) :
  (1 <= codecCount (parseCodecs codecs))%nat /\
  (forall video, videoCodec (parseCodecs codecs) = Some video ->
     canonical video = "AVC1"%string /\
     exists before after,
       codecs = String.append before (String.append video after) /\
       boundary before) /\
  (forall profile, audioProfile (parseCodecs codecs) = Some profile ->
     profile <> EmptyString /\ allDigits profile = true /\
     exists before name c object after,
       codecs =
         String.append before
           (String.append name
              (String c (String.append object
                           (String "."%char (String.append profile after))))) /\
       boundary before /\ canonical name = "MP4A"%string /\
       isLineTerminator c = false /\
       object <> EmptyString /\ allDigits object = true).
Proof.
  assert (Hboundary :
    forall before,
      (before = EmptyString /\ true = true \/
       exists b c, before = String.append b (String c EmptyString) /\
                   isSeparator c = true) -> boundary before).
  { intros before [[-> _]|Hsep]; [now left|now right]. }
  split; [|split].
  - unfold parseCodecs. simpl.
    assert (Hpos : forall s, (1 <= splitLength s)%nat).
    { induction s as [|c s IH]; simpl; [lia|]. destruct (Ascii.eqb c ","); lia. }
    specialize (Hpos codecs). destruct (splitLength codecs); [lia|]. simpl. lia.
  - intros video Hvideo. unfold parseCodecs in Hvideo. simpl in Hvideo.
    apply execAfterSeparator_found in Hvideo
      as (before & text & -> & Htail & Hwhere).
    unfold videoCodecAt in Htail.
    destruct (matchLiteral "avc1" text) as [[matched rest]|] eqn:Hm;
      [|discriminate].
    simpl in Htail. injection Htail as ->.
    apply matchLiteral_spec in Hm as [-> Hc]. split; [exact Hc|].
    exists before, rest. auto.
  - intros profile Hprofile. unfold parseCodecs in Hprofile. simpl in Hprofile.
    apply execAfterSeparator_found in Hprofile
      as (before & text & -> & Htail & Hwhere).
    unfold audioProfileAt in Htail.
    destruct (matchLiteral "mp4a" text) as [[name rest]|] eqn:Hm;
      [|discriminate].
    destruct rest as [|c rest]; [discriminate|].
    destruct (isLineTerminator c) eqn:Hline; [discriminate|].
    pose proof (digits_spec rest) as [Hrest Hobject].
    destruct (digits rest) as [object rest1]. simpl in Hrest, Hobject.
    destruct object as [|o object]; [discriminate|].
    destruct rest1 as [|dot rest1]; [discriminate|].
    destruct (Ascii.eqb_spec dot "."%char) as [->|Hdot].
    2:{ destruct dot as [[] [] [] [] [] [] [] []]; try discriminate.
        now contradiction Hdot. }
    pose proof (digits_spec rest1) as [Hrest1 Hdigits].
    destruct (digits rest1) as [found after]. simpl in Hrest1, Hdigits.
    destruct found as [|f found]; [discriminate|].
    injection Htail as <-.
    apply matchLiteral_spec in Hm as [-> Hc].
    split; [discriminate|]. split; [exact Hdigits|].
    exists before, name, c, (String o object), after.
    split; [|split; [auto|split; [exact Hc|split; [exact Hline|split;
      [discriminate|exact Hobject]]]]].
    rewrite Hrest, Hrest1. reflexivity.
Qed.

Lemma noSeparator_splitLength (text rest : string) :
  noSeparator text = true ->
  splitLength (String.append text rest) = splitLength rest.
Proof.
  induction text as [|c text IH]; simpl; [reflexivity|].
  intros Hno. apply andb_true_iff in Hno as [Hc Hno].
  unfold isSeparator in Hc. apply negb_true_iff, orb_false_iff in Hc as [_ Hc].
  rewrite Hc. auto.
Qed.

Lemma allDigits_noSeparator (text : string) :
  allDigits text = true -> noSeparator text = true.
Proof.
  induction text as [|c text IH]; simpl; [reflexivity|].
  intros Hd. apply andb_true_iff in Hd as [Hc Hd]. rewrite (IH Hd), andb_true_r.
  destruct c as [[] [] [] [] [] [] [] []]; try discriminate; reflexivity.
Qed.

Lemma noSeparator_skipped (tail : string -> option string)
    (text rest : string) (c : Ascii.ascii) :
  noSeparator text = true ->
  execAfterSeparator tail false (String.append text (String c rest)) =
  execAfterSeparator tail (isSeparator c) rest.
Proof.
  induction text as [|x text IH]; simpl; [reflexivity|].
  intros Hno. apply andb_true_iff in Hno as [Hx Hno].
  apply negb_true_iff in Hx. rewrite Hx. auto.
Qed.

Lemma digits_all (text : string) :
  allDigits text = true -> digits text = (text, EmptyString).
Proof.
  induction text as [|c text IH]; simpl; [reflexivity|].
  intros Hd. apply andb_true_iff in Hd as [Hc Hd]. now rewrite Hc, (IH Hd).
Qed.

Lemma digits_until (text rest : string) (c : Ascii.ascii) :
  allDigits text = true -> isDigit c = false ->
  digits (String.append text (String c rest)) = (text, String c rest).
Proof.
  intros Hd Hc. induction text as [|x text IH]; simpl; [now rewrite Hc|].
  simpl in Hd. apply andb_true_iff in Hd as [Hx Hd]. now rewrite Hx, (IH Hd).
Qed.

(** X20. A [CODECS] attribute of the usual form, [avc1] with any version
    text free of white space and commas, a comma, and
    [mp4a.<object type>.<profile>] with both numbers written in digits, is
    parsed as two codecs, the video codec [avc1] and the audio profile
    written; [mp4a.40.5] so gives the profile [5] that
    [excludeIncompatibleVariants_] looks for. *)
Theorem parseCodecs_of_video_and_audio (version object profile : string) :
  noSeparator version = true ->
  allDigits object = true -> object <> EmptyString ->
  allDigits profile = true -> profile <> EmptyString ->
  parseCodecs
    (String.append "avc1"
       (String.append version
          (String.append ",mp4a."
             (String.append object (String "."%char profile))))) =
  {| codecCount := 2; videoCodec := Some "avc1"%string;
     audioProfile := Some profile |}.
Proof.
  intros Hversion Hobject Hobject' Hprofile Hprofile'.
  unfold parseCodecs. f_equal.
  - cbn [String.append splitLength]. simpl Ascii.eqb.
    rewrite (noSeparator_splitLength version) by exact Hversion.
    cbn [String.append splitLength]. simpl Ascii.eqb.
    rewrite (noSeparator_splitLength object)
      by (apply allDigits_noSeparator, Hobject).
    cbn [splitLength]. simpl Ascii.eqb.
    cbn iota.
    assert (Hone : forall text, noSeparator text = true -> splitLength text = 1%nat).
    { induction text as [|c text IH]; simpl; [reflexivity|].
      intros Hno. apply andb_true_iff in Hno as [Hc Hno].
      unfold isSeparator in Hc.
      apply negb_true_iff, orb_false_iff in Hc as [_ Hc]. rewrite Hc. auto. }
    now rewrite (Hone profile (allDigits_noSeparator profile Hprofile)).
  - assert (Hhere : forall tail text group,
              tail text = Some group ->
              execAfterSeparator tail true text = Some group).
    { intros tail text group Htail. destruct text; simpl; now rewrite Htail. }
    assert (Hname : forall text,
              matchLiteral "mp4a" (String.append "mp4a" text) =
              Some ("mp4a"%string, text)) by reflexivity.
    change (execAfterSeparator audioProfileAt true
              (String.append "avc1"
                 (String.append version
                    (String.append ",mp4a."
                       (String.append object (String "."%char profile))))))
      with (execAfterSeparator audioProfileAt false
              (String.append version
                 (String ","%char
                    (String.append "mp4a"
                       (String "."%char
                          (String.append object (String "."%char profile))))))).
    rewrite (noSeparator_skipped audioProfileAt version) by exact Hversion.
    apply Hhere. unfold audioProfileAt. rewrite Hname.
    change (isLineTerminator "."%char) with false. cbn iota.
    rewrite (digits_until object profile "."%char Hobject eq_refl).
    destruct object as [|o object]; [contradiction|].
    rewrite (digits_all profile Hprofile).
    destruct profile as [|p profile]; [contradiction|]. reflexivity.
Qed.

(** ** The duration, the first play and the source buffer *)

Section Playing.

Context `{External} `{Outside}.

Lemma updateDuration_frame (playlist : Playlist) (p : Playback) :
  hls (state_of (updateDuration playlist p)) = hls p /\
  (forall q, updateDuration playlist p = TypeError q -> q = p).
Proof.
  unfold updateDuration.
  destruct (mediaSource (hls p)); [|split; [reflexivity|congruence]].
  destruct (negb _); [|split; [reflexivity|discriminate]].
  destruct (negb _); [split; [reflexivity|discriminate]|].
  destruct (match sourceBuffer (hls p) with
            | Some sb => negb (updating sb)
            | None => true
            end); split; try reflexivity; discriminate.
Qed.

(** X21. [updateDuration] throws exactly when there is no media source, and
    it never touches the handler. With the media source open and the source
    buffer missing or idle: when the duration of the media source is the new
    duration already (that of the playlist, or the end of the last buffered
    range when later), nothing changes; otherwise the duration of the media
    source becomes the new duration and [durationchange] is triggered, once.
    A second call then changes nothing and does not trigger the event again,
    unless the new duration is [NaN]: [NaN] differs from itself, so each
    further call sets it and triggers [durationchange] again. *)
Theorem updateDuration_settles (playlist : Playlist) (p : Playback) :
  (updateDuration playlist p = TypeError p <-> mediaSource (hls p) = None) /\
  hls (state_of (updateDuration playlist p)) = hls p /\
  techState (state_of (updateDuration playlist p)) = techState p /\
  forall ms,
    mediaSource (hls p) = Some ms -> readyState ms = "open"%string ->
    (forall sb, sourceBuffer (hls p) = Some sb -> updating sb = false) ->
    exists p',
      updateDuration playlist p = Normal tt p' /\
      (if PrimFloat.eqb (mediaSource_duration p) (newDurationOf playlist (hls p))
       then p' = p
       else p' =
            call (TechTrigger "durationchange")
              (set_mediaSource_duration (newDurationOf playlist (hls p)) p)) /\
      (calls p' = calls p /\
       PrimFloat.eqb (mediaSource_duration p) (newDurationOf playlist (hls p)) = true \/
       calls p' = TechTrigger "durationchange" :: calls p /\
       PrimFloat.eqb (mediaSource_duration p) (newDurationOf playlist (hls p)) = false) /\
      (if JS.is_nan (newDurationOf playlist (hls p))
       then updateDuration playlist p' =
              Normal tt (call (TechTrigger "durationchange") p')
       else PrimFloat.eqb (mediaSource_duration p')
              (newDurationOf playlist (hls p)) = true /\
            updateDuration playlist p' = Normal tt p').
Proof.
  unfold updateDuration.
  destruct (mediaSource (hls p)) as [ms|] eqn:Hms.
  - split; [|split; [|split]].
    + split; [|discriminate].
      destruct (negb _); [|discriminate].
      destruct (negb _); [discriminate|]. destruct (match sourceBuffer (hls p) with
        | Some sb => negb (updating sb) | None => true end); discriminate.
    + destruct (negb _); [|reflexivity].
      destruct (negb _); [reflexivity|]. destruct (match sourceBuffer (hls p) with
        | Some sb => negb (updating sb) | None => true end); reflexivity.
    + destruct (negb _); [|reflexivity].
      destruct (negb _); [reflexivity|]. destruct (match sourceBuffer (hls p) with
        | Some sb => negb (updating sb) | None => true end); reflexivity.
    + intros ms' Hms' Hopen Hidle. injection Hms' as <-.
      rewrite Hopen. simpl.
      assert (Hready : match sourceBuffer (hls p) with
                       | Some sb => negb (updating sb)
                       | None => true
                       end = true).
      { destruct (sourceBuffer (hls p)) as [sb|]; [|reflexivity].
        now rewrite (Hidle sb eq_refl). }
      rewrite Hready.
      destruct (PrimFloat.eqb (mediaSource_duration p)
                  (newDurationOf playlist (hls p))) eqn:Hsame; simpl.
      * exists p. split; [reflexivity|]. split; [reflexivity|].
        split; [left; auto|].
        assert (Hnan : JS.is_nan (newDurationOf playlist (hls p)) = false).
        { unfold JS.is_nan. apply negb_false_iff.
          destruct (PrimFloat.eqb (newDurationOf playlist (hls p))
                      (newDurationOf playlist (hls p))) eqn:Hself; [reflexivity|].
          exfalso. revert Hsame Hself.
          rewrite !FloatAxioms.eqb_spec.
          destruct (FloatOps.Prim2SF (mediaSource_duration p)) as [[]| [] | |[] m e];
            destruct (FloatOps.Prim2SF (newDurationOf playlist (hls p)))
              as [[]| [] | |[] m' e']; simpl; try discriminate;
            unfold SpecFloat.SFeqb; simpl; try discriminate;
            try (rewrite Z.compare_refl, Pos.compare_refl; discriminate).
        }
        rewrite Hnan, Hms, Hsame, Hopen. simpl. auto.
      * eexists. split; [reflexivity|]. split; [reflexivity|].
        split; [right; auto|]. simpl.
        rewrite Hms, Hopen, Hready. simpl.
        unfold JS.is_nan.
        destruct (PrimFloat.eqb (newDurationOf playlist (hls p))
                    (newDurationOf playlist (hls p))); simpl; auto.
  - split; [split; reflexivity|]. split; [reflexivity|]. split; [reflexivity|].
    intros ms Hms'. discriminate.
Qed.

Lemma techSetCurrentTime_spec (time : float) (p : Playback) :
  exists tech state,
    techSetCurrentTime time p =
    call (TechSetCurrentTime time)
      (set_techState state (set_hls (set_tech_ tech (hls p)) p)).
Proof.
  unfold techSetCurrentTime.
  destruct (tech_setCurrentTime (tech_ (hls p)) (techState p) time) as [tech state].
  eauto.
Qed.

Lemma setupFirstPlay_cases (p : Playback) :
  setupFirstPlay p = TypeError p /\ playlists (hls p) = None \/
  setupFirstPlay p = Normal tt p \/
  exists loader,
    playlists (hls p) = Some loader /\
    PrimFloat.eqb (duration p) infinity = true /\
    setupFirstPlay p =
      Normal tt
        (let q :=
           call (LoaderTrigger "firstplay")
             (set_hls
                (set_playlists (Some (playlists_trigger loader "firstplay"))
                   (hls p)) p) in
         match seekable (hls q) with
         | (_, end0) :: _ => techSetCurrentTime end0 q
         | [] => q
         end).
Proof.
  unfold setupFirstPlay.
  destruct (playlists (hls p)) as [loader|] eqn:Hloader; [|now left].
  cbv zeta.
  destruct (PrimFloat.eqb (duration p) infinity) eqn:Hlive; simpl;
    [|right; left; reflexivity].
  destruct (_ && _); [|right; left; reflexivity].
  right; right. exists loader. split; [reflexivity|]. split; [reflexivity|].
  match goal with
  | |- context [seekable ?st] => destruct (seekable st) as [|[start0 end0] rest]
  end; reflexivity.
Qed.

Lemma playOnly_refl (p : Playback) : playOnly p p.
Proof. constructor; reflexivity. Qed.

Lemma playOnly_trans (p q r : Playback) :
  playOnly p q -> playOnly q r -> playOnly p r.
Proof. intros [] []. constructor; congruence. Qed.

Lemma techSetCurrentTime_playOnly (time : float) (p : Playback) :
  playOnly p (techSetCurrentTime time p) /\
  seeks (techSetCurrentTime time p) = S (seeks p) /\
  playlists (hls (techSetCurrentTime time p)) = playlists (hls p) /\
  loadingState_ (hls (techSetCurrentTime time p)) = loadingState_ (hls p).
Proof.
  destruct (techSetCurrentTime_spec time p) as (tech & state & ->).
  split; [constructor; reflexivity|]. auto.
Qed.

Lemma setupFirstPlay_playOnly (p : Playback) :
  let q := state_of (setupFirstPlay p) in
  playOnly p q /\ (seeks q <= S (seeks p))%nat /\
  loadingState_ (hls q) = loadingState_ (hls p).
Proof.
  destruct (setupFirstPlay_cases p) as [[-> _]|[->|(loader & _ & _ & ->)]];
    cbv zeta; simpl state_of;
    try (split; [apply playOnly_refl|split; [lia|reflexivity]]).
  match goal with
  | |- context [seekable ?st] => destruct (seekable st) as [|[start0 end0] rest]
  end.
  - split; [constructor; reflexivity|]. split; [|reflexivity].
    unfold seeks. simpl. lia.
  - match goal with
    | |- context [techSetCurrentTime ?t ?q] =>
        destruct (techSetCurrentTime_playOnly t q) as (Hframe & Hseeks & _ & Hload)
    end.
    split; [|split].
    + eapply playOnly_trans; [|exact Hframe]. constructor; reflexivity.
    + rewrite Hseeks. unfold seeks. simpl. lia.
    + rewrite Hload. reflexivity.
Qed.

Lemma play_tail (p p2 : Playback) :
  playOnly p p2 -> loadingState_ (hls p2) = LoadSegments ->
  (seeks p2 <= S (seeks p))%nat ->
  let out :=
    if Nat.eqb (played_length (techState p2)) 0 then setupFirstPlay p2
    else if PrimFloat.eqb (duration p2) infinity then
      match seekable (hls p2) with
      | [] => TypeError p2
      | (start0, _) :: _ =>
          if PrimFloat.ltb (currentTime (tech_ (hls p2))) start0
          then Normal tt (techSetCurrentTime start0 p2)
          else Normal tt p2
      end
    else Normal tt p2 in
  loadingState_ (hls (state_of out)) = LoadSegments /\
  playOnly p (state_of out) /\
  (seeks (state_of out) <= seeks p + 2)%nat /\
  (PrimFloat.eqb (duration p2) infinity = false -> state_of out = p2).
Proof.
  intros H2 Hl2 Hs2. cbv zeta.
  destruct (Nat.eqb (played_length (techState p2)) 0).
  - destruct (setupFirstPlay_playOnly p2) as (Hframe & Hseeks & Hload).
    cbv zeta in Hframe, Hseeks, Hload.
    split; [congruence|]. split; [eapply playOnly_trans; eassumption|].
    split; [lia|]. intros Hlive.
    destruct (setupFirstPlay_cases p2) as [[-> _]|[->|(loader & _ & Hl & _)]];
      [reflexivity|reflexivity|congruence].
  - destruct (PrimFloat.eqb (duration p2) infinity);
      [|split; [exact Hl2|split; [exact H2|split; [simpl; lia|reflexivity]]]].
    destruct (seekable (hls p2)) as [|[start0 end0] rest];
      [split; [exact Hl2|split; [exact H2|split; [simpl; lia|discriminate]]]|].
    destruct (PrimFloat.ltb (currentTime (tech_ (hls p2))) start0);
      [|split; [exact Hl2|split; [exact H2|split; [simpl; lia|discriminate]]]].
    destruct (techSetCurrentTime_playOnly start0 p2)
      as (Hframe & Hseeks & _ & Hload).
    simpl state_of. split; [congruence|].
    split; [eapply playOnly_trans; eassumption|]. split; [lia|discriminate].
Qed.

Lemma play_frame (p : Playback) :
  loadingState_ (hls (state_of (play p))) = LoadSegments /\
  playOnly p (state_of (play p)).
Proof.
  unfold play. cbv zeta.
  set (p1 := set_hls (set_loadingState_ LoadSegments (hls p)) p).
  assert (H1 : playOnly p p1) by (constructor; reflexivity).
  assert (Hs1 : seeks p1 = seeks p) by reflexivity.
  destruct (ended (techState p1)).
  - destruct (techSetCurrentTime_playOnly 0 p1) as (Hframe & Hseeks & _ & Hload).
    destruct (play_tail p (techSetCurrentTime 0 p1)) as (Ha & Hb & _);
      [eapply playOnly_trans; eassumption|exact Hload|lia|].
    split; assumption.
  - destruct (play_tail p p1) as (Ha & Hb & _); [assumption|reflexivity|lia|].
    split; assumption.
Qed.

(** X22. [play] allows the loading of segments, whether it returns or throws,
    and otherwise only talks to the tech and to the loader: it makes and
    cancels no request, leaves the pending segment, the source buffer, the
    media source and its duration alone, and seeks at most twice. On a
    stream that is not live (the duration is not [Infinity]) and has not
    ended it does nothing but allow the loading. *)
Theorem play_permits_loading (p : Playback) :
  loadingState_ (hls (state_of (play p))) = LoadSegments /\
  playOnly p (state_of (play p)) /\
  (seeks (state_of (play p)) <= seeks p + 2)%nat /\
  (ended (techState p) = false ->
   PrimFloat.eqb (duration p) infinity = false ->
   state_of (play p) = set_hls (set_loadingState_ LoadSegments (hls p)) p).
Proof.
  unfold play. cbv zeta.
  set (p1 := set_hls (set_loadingState_ LoadSegments (hls p)) p).
  assert (H1 : playOnly p p1) by (constructor; reflexivity).
  assert (Hs1 : seeks p1 = seeks p) by reflexivity.
  assert (Hd1 : duration p1 = duration p) by reflexivity.
  assert (He1 : ended (techState p1) = ended (techState p)) by reflexivity.
  destruct (ended (techState p1)) eqn:Hended.
  - destruct (techSetCurrentTime_playOnly 0 p1) as (Hframe & Hseeks & _ & Hload).
    destruct (play_tail p (techSetCurrentTime 0 p1)) as (Ha & Hb & Hc & _);
      [eapply playOnly_trans; eassumption|exact Hload|lia|].
    cbv zeta in Ha, Hb, Hc.
    split; [exact Ha|]. split; [exact Hb|]. split; [exact Hc|].
    intros Hnot. congruence.
  - destruct (play_tail p p1) as (Ha & Hb & Hc & Hd);
      [assumption|reflexivity|lia|].
    cbv zeta in Ha, Hb, Hc, Hd.
    split; [exact Ha|]. split; [exact Hb|]. split; [exact Hc|].
    intros _ Hlive. apply Hd. rewrite Hd1. exact Hlive.
Qed.

(** *** [resetSrc_] and [dispose] *)

Lemma cancel_both (st : HlsHandler) :
  let st' := cancelKeyXhr (cancelSegmentXhr st) in
  segmentXhr_ st' = None /\ keyXhr_ st' = None /\ pendingSegment_ st' = None /\
  checkBufferTimeout_ st' = checkBufferTimeout_ st /\
  outstandingTimers (trace st') = outstandingTimers (trace st) /\
  (forall request,
      segmentXhr_ st = Some request \/ keyXhr_ st = Some request ->
      In (XhrAbort request) (trace st')) /\
  segmentRequests st' = segmentRequests st /\
  (forall k, keyRequests k st' = keyRequests k st) /\
  sourceBuffer st' = sourceBuffer st /\ mediaSource st' = mediaSource st.
Proof.
  unfold cancelKeyXhr, cancelSegmentXhr.
  destruct (segmentXhr_ st) as [s|] eqn:Hs; destruct (keyXhr_ st) as [k|] eqn:Hk;
    simpl; rewrite ?Hs, ?Hk; simpl;
    (do 5 (split; [first [reflexivity|assumption]|]));
    (split; [|repeat split; first [reflexivity|assumption]]);
    intros request [Hr|Hr]; try discriminate; injection Hr as <-; simpl; auto.
Qed.

(** X23. After [dispose], whether it returned or threw, the handler has
    nothing outstanding: no buffer check is scheduled (the timer it
    remembered was the one outstanding), no segment request and no key
    request is remembered and each one that was has been aborted, no segment
    is pending, and no request has been made. [dispose] throws exactly when
    there is a source buffer but no media source, and only when it returns
    has the component itself been disposed of. *)
Theorem dispose_leaves_nothing_outstanding (p : Playback) :
  checkBufferTimeout_ (hls (state_of (dispose p))) = None /\
  segmentXhr_ (hls (state_of (dispose p))) = None /\
  keyXhr_ (hls (state_of (dispose p))) = None /\
  pendingSegment_ (hls (state_of (dispose p))) = None /\
  (oneTimer (hls p) ->
   outstandingTimers (trace (hls (state_of (dispose p)))) = []) /\
  (forall request,
      segmentXhr_ (hls p) = Some request \/ keyXhr_ (hls p) = Some request ->
      In (XhrAbort request) (trace (hls (state_of (dispose p))))) /\
  segmentRequests (hls (state_of (dispose p))) = segmentRequests (hls p) /\
  (forall k, keyRequests k (hls (state_of (dispose p))) = keyRequests k (hls p)) /\
  (dispose p = TypeError (state_of (dispose p)) <->
   JS.defined (sourceBuffer (hls p)) = true /\ mediaSource (hls p) = None) /\
  (dispose p = Normal tt (state_of (dispose p)) ->
   head (calls (state_of (dispose p))) = Some ComponentDispose).
Proof.
  unfold dispose, bind, modify, resetSrc_. cbv zeta.
  set (p1 := set_hls (stopCheckingBuffer_ (hls p)) p).
  set (p2 := match playlists (hls p1) with
             | Some loader =>
                 call LoaderDispose
                   (set_hls
                      (set_playlists (Some (playlists_dispose loader)) (hls p1))
                      p1)
             | None => p1
             end).
  assert (H2 : stopCheckingBuffer_ (hls p) =
               stopCheckingBuffer_ (hls p) ->
               checkBufferTimeout_ (hls p2) =
                 checkBufferTimeout_ (stopCheckingBuffer_ (hls p)) /\
               trace (hls p2) = trace (stopCheckingBuffer_ (hls p)) /\
               segmentXhr_ (hls p2) = segmentXhr_ (hls p) /\
               keyXhr_ (hls p2) = keyXhr_ (hls p) /\
               sourceBuffer (hls p2) = sourceBuffer (hls p) /\
               mediaSource (hls p2) = mediaSource (hls p)).
  { intros _. subst p2 p1. unfold stopCheckingBuffer_.
    destruct (checkBufferTimeout_ (hls p)); simpl;
      destruct (playlists (hls p)); simpl; repeat split. }
  specialize (H2 eq_refl).
  destruct H2 as (Hc2 & Ht2 & Hs2 & Hk2 & Hsb2 & Hms2).
  clearbody p2. clear p1.
  destruct (cancel_both (hls p2))
    as (Hs & Hk & Hpend & Hc & Ht & Habort & Hreqs & Hkeys & Hsb & Hms).
  cbv zeta in *.
  set (st3 := cancelKeyXhr (cancelSegmentXhr (hls p2))) in *.
  assert (Hstop : checkBufferTimeout_ (stopCheckingBuffer_ (hls p)) = None /\
                  (oneTimer (hls p) ->
                   outstandingTimers (trace (stopCheckingBuffer_ (hls p))) = []) /\
                  segmentRequests (stopCheckingBuffer_ (hls p)) =
                    segmentRequests (hls p) /\
                  (forall k, keyRequests k (stopCheckingBuffer_ (hls p)) =
                             keyRequests k (hls p))).
  { split; [|split; [intros Hone; apply stopCheckingBuffer_none, Hone|]].
    - unfold stopCheckingBuffer_.
      destruct (checkBufferTimeout_ (hls p)) eqn:Hcb; [reflexivity|exact Hcb].
    - unfold stopCheckingBuffer_.
      destruct (checkBufferTimeout_ (hls p)); split; reflexivity. }
  destruct Hstop as (Hstop & Htimers & Hstopreqs & Hstopkeys).
  assert (Hcommon :
    forall q, hls q = st3 ->
      checkBufferTimeout_ (hls q) = None /\
      segmentXhr_ (hls q) = None /\ keyXhr_ (hls q) = None /\
      pendingSegment_ (hls q) = None /\
      (oneTimer (hls p) -> outstandingTimers (trace (hls q)) = []) /\
      (forall request,
          segmentXhr_ (hls p) = Some request \/ keyXhr_ (hls p) = Some request ->
          In (XhrAbort request) (trace (hls q))) /\
      segmentRequests (hls q) = segmentRequests (hls p) /\
      (forall k, keyRequests k (hls q) = keyRequests k (hls p))).
  { intros q ->. split; [congruence|]. do 3 (split; [assumption|]).
    split; [intros Hone; rewrite Ht, Ht2; auto|].
    split; [intros request Hr; apply Habort; rewrite Hs2, Hk2; exact Hr|].
    split.
    - rewrite Hreqs. unfold segmentRequests. rewrite Ht2. exact Hstopreqs.
    - intros k. rewrite Hkeys. unfold keyRequests. rewrite Ht2. apply Hstopkeys. }
  simpl hls. fold st3. rewrite Hsb, Hms, Hsb2, Hms2.
  destruct (sourceBuffer (hls p)) as [sb|]; simpl.
  - destruct (mediaSource (hls p)) as [ms|]; simpl.
    + destruct (String.eqb (readyState ms) "open"); simpl;
        (destruct (Hcommon (set_hls st3 p2) eq_refl)
           as (? & ? & ? & ? & ? & ? & ? & ?));
        repeat (split; [assumption|]);
        (split; [split; [discriminate|intros [_ Hf]; discriminate]|]);
        reflexivity.
    + destruct (Hcommon (set_hls st3 p2) eq_refl)
        as (? & ? & ? & ? & ? & ? & ? & ?).
      repeat (split; [assumption|]).
      split; [split; auto|]. discriminate.
  - destruct (Hcommon (set_hls st3 p2) eq_refl)
      as (? & ? & ? & ? & ? & ? & ? & ?).
    repeat (split; [assumption|]).
    split; [split; [discriminate|intros [Hf _]; discriminate]|].
    reflexivity.
Qed.

(** *** The source buffer *)

(** X24. With an active media playlist and the media source open,
    [setupSourceBuffer_] asks for one source buffer, of type [video/mp2t]
    with the codecs of the media playlist when it declares some; if the
    media source gives one, it becomes the source buffer of the handler, the
    handler listens to its [updateend], and from then on, for as long as the
    playlists are as they were left, [selectPlaylist] never returns a
    variant that is incompatible with the media playlist. *)
Theorem setupSourceBuffer_excludes_incompatible
    (p : Playback) (loader : PlaylistLoader) (active : Playlist)
    (ms : MediaSource) (sb : SourceBuffer) :
  playlists (hls p) = Some loader -> media loader = Some active ->
  mediaSource (hls p) = Some ms -> readyState ms = "open"%string ->
  addSourceBuffer ms (mimeTypeOf active) = Some sb ->
  exists q,
    setupSourceBuffer_ p = Normal tt q /\
    sourceBuffer (hls q) = Some sb /\
    calls q = OnUpdateEnd :: AddSourceBuffer (mimeTypeOf active) :: calls p /\
    trace (hls q) = trace (hls p) /\
    forall later later' r,
      playlists later = playlists (hls q) ->
      selectPlaylist later = Normal (Some r) later' ->
      exists pls variant,
        master loader = Some pls /\ pls !! r = Some variant /\
        codecCount (codecsOf variant) = codecCount (codecsOf active) /\
        videoCodec (codecsOf variant) = videoCodec (codecsOf active) /\
        (audioProfile (codecsOf variant) = Some "5"%string <->
         audioProfile (codecsOf active) = Some "5"%string).
Proof.
  intros Hloader Hactive Hms Hopen Hsb. unfold setupSourceBuffer_.
  rewrite Hloader, Hactive, Hms, Hopen. simpl. rewrite Hsb.
  unfold bind, lift, modify. simpl hls.
  destruct (excludeIncompatibleVariants_ active
              (set_sourceBuffer (Some sb) (hls p))) as [[] st'|st'] eqn:Hrun.
  - eexists. split; [reflexivity|]. simpl.
    assert (Hfacts : sourceBuffer st' = Some sb /\ trace st' = trace (hls p)).
    { unfold excludeIncompatibleVariants_ in Hrun. simpl in Hrun.
      rewrite Hloader in Hrun.
      destruct (master loader); [|discriminate].
      injection Hrun as <-. auto. }
    destruct Hfacts as [Hbuffer Htrace].
    split; [exact Hbuffer|]. split; [reflexivity|]. split; [exact Htrace|].
    intros later later' r Hsame Hselect.
    destruct (marked_variant_not_selected active _ st' later later' r
                Hrun Hsame Hselect)
      as (loader' & pls & variant & Hl & Hm & Hp & Hok).
    simpl in Hl. rewrite Hloader in Hl. injection Hl as <-.
    exists pls, variant. do 2 (split; [assumption|]).
    apply incompatible_false_iff, Hok.
  - exfalso. unfold excludeIncompatibleVariants_ in Hrun. simpl in Hrun.
    rewrite Hloader in Hrun.
    unfold media, mediaRef, deref in Hactive.
    destruct (master loader); [discriminate|].
    destruct (media_ loader); discriminate.
Qed.

(** X25. Once the handler has a source buffer, [handleSourceOpen] neither
    replaces it nor asks the media source for another one, and it makes and
    cancels no request; without autoplay it does nothing at all, and with
    autoplay it plays, which allows the loading of segments. *)
Theorem handleSourceOpen_keeps_source_buffer (p : Playback) (sb : SourceBuffer) :
  sourceBuffer (hls p) = Some sb ->
  sourceBuffer (hls (state_of (handleSourceOpen p))) = Some sb /\
  addedSourceBuffers (state_of (handleSourceOpen p)) = addedSourceBuffers p /\
  trace (hls (state_of (handleSourceOpen p))) = trace (hls p) /\
  (autoplay (techState p) = false -> handleSourceOpen p = Normal tt p) /\
  (autoplay (techState p) = true ->
   loadingState_ (hls (state_of (handleSourceOpen p))) = LoadSegments).
Proof.
  intros Hsb. unfold handleSourceOpen, bind. rewrite Hsb. simpl.
  destruct (autoplay (techState p)).
  - destruct (play_frame p) as (Hload & Hframe).
    rewrite (po_sourceBuffer _ _ Hframe), (po_added _ _ Hframe),
      (po_trace _ _ Hframe).
    split; [exact Hsb|]. do 2 (split; [reflexivity|]).
    split; [discriminate|]. intros _. exact Hload.
  - simpl. split; [exact Hsb|]. do 2 (split; [reflexivity|]).
    split; [reflexivity|discriminate].
Qed.

(** *** After an append *)

Lemma seekAgain_playOnly (currentBuffered : TimeRanges) (p : Playback) :
  playOnly p (seekAgain currentBuffered p) /\
  playlists (hls (seekAgain currentBuffered p)) = playlists (hls p).
Proof.
  unfold seekAgain. cbv zeta.
  destruct (_ && _); [|split; [apply playOnly_refl|reflexivity]].
  destruct (seekable (hls p)) as [|[start0 end0] rest];
    [split; [apply playOnly_refl|reflexivity]|].
  destruct (PrimFloat.ltb _ _); [|split; [apply playOnly_refl|reflexivity]].
  destruct (findNextBufferedRange_ None (hls p)) as [|[next0 nextEnd] more];
    [split; [apply playOnly_refl|reflexivity]|].
  match goal with
  | |- context [techSetCurrentTime ?t ?q] =>
      destruct (techSetCurrentTime_playOnly t q) as (Hframe & _ & Hloader & _)
  end.
  split; [|rewrite Hloader; reflexivity].
  eapply playOnly_trans; [|exact Hframe]. constructor; reflexivity.
Qed.

Lemma lift_endOfStream (p : Playback) (ms : MediaSource) :
  mediaSource (hls p) = Some ms ->
  lift (endOfStream None) p =
  Normal tt (set_hls (emit (EndOfStream None) (hls p)) p).
Proof. intros Hms. unfold lift, endOfStream. now rewrite Hms. Qed.

Lemma lift_fillBuffer (mediaIndex : option Z) (p : Playback) :
  exists st',
    lift (fillBuffer mediaIndex) p = Normal tt (set_hls st' p) /\
    fillOnly (hls p) st' /\
    (segmentRequests st' <= S (segmentRequests (hls p)))%nat /\
    endings st' = endings (hls p).
Proof.
  unfold lift.
  pose proof (fillBuffer_fillOnly mediaIndex (hls p)) as Hframe.
  pose proof (fillBuffer_outcome mediaIndex (hls p)) as Hout.
  destruct (fillBuffer_normal mediaIndex (hls p)) as [st' Hrun].
  rewrite Hrun in *. simpl in Hframe. exists st'. split; [reflexivity|].
  split; [exact Hframe|]. split.
  - destruct Hout as [Heq|[(st2 & Heq & _ & Hreqs)|(st2 & Heq & _)]];
      try discriminate; injection Heq as <-; lia.
  - unfold endings. apply (grows_count isFillCall); [|apply (fi_trace _ _ Hframe)].
    intros e He. destruct e; simpl in *; congruence.
Qed.

Lemma store_frame (r : PlaylistRef) (playlist : Playlist) (st : HlsHandler) :
  trace (store r playlist st) = trace st /\
  pendingSegment_ (store r playlist st) = pendingSegment_ st /\
  mediaSource (store r playlist st) = mediaSource st.
Proof.
  unfold store. destruct (playlists st) as [loader|]; [|auto].
  destruct (master loader); auto.
Qed.

(** X26. When the segment pending has been appended, [updateEndHandler_]
    clears it, whether it returns or throws, and then either throws without
    having ended the stream or asked for a segment; or ends the stream,
    exactly when [detectEndOfStream] says so for the playlist of the
    segment, and asks for nothing; or calls [fillBuffer], which makes at
    most one segment request, and does not end the stream. *)
Theorem updateEndHandler_ends_or_fills
    (p : Playback) (info : SegmentInfo) (appendedOver : TimeRanges) :
  pendingSegment_ (hls p) = Some info ->
  si_buffered info = Some appendedOver ->
  pendingSegment_ (hls (state_of (updateEndHandler_ p))) = None /\
  (updateEndHandler_ p = TypeError (state_of (updateEndHandler_ p)) /\
   trace (hls (state_of (updateEndHandler_ p))) = trace (hls p) \/
   exists loader playlist isEndOfStream,
     updateEndHandler_ p = Normal tt (state_of (updateEndHandler_ p)) /\
     playlists (hls p) = Some loader /\
     deref loader (si_playlist info) = Some playlist /\
     detectEndOfStream (Some playlist) (mediaSource (hls p))
       (si_mediaIndex info + (si_mediaSequence info - mediaSequence playlist))
       (findBufferedRange_ None (hls p)) = Some isEndOfStream /\
     if isEndOfStream
     then trace (hls (state_of (updateEndHandler_ p))) =
            EndOfStream None :: trace (hls p)
     else endings (hls (state_of (updateEndHandler_ p))) = endings (hls p) /\
          (segmentRequests (hls (state_of (updateEndHandler_ p))) <=
           S (segmentRequests (hls p)))%nat).
Proof.
  intros Hpending Hbuffered. unfold updateEndHandler_.
  rewrite Hpending, Hbuffered. cbv zeta.
  set (p0 := set_hls (set_pendingSegment_ None (hls p)) p).
  assert (Hp0 : pendingSegment_ (hls p0) = None) by reflexivity.
  assert (Ht0 : trace (hls p0) = trace (hls p)) by reflexivity.
  assert (Hl0 : playlists (hls p0) = playlists (hls p)) by reflexivity.
  assert (Hm0 : mediaSource (hls p0) = mediaSource (hls p)) by reflexivity.
  assert (Hb0 : findBufferedRange_ None (hls p0) = findBufferedRange_ None (hls p))
    by reflexivity.
  clearbody p0.
  destruct (playlists (hls p0)) as [loader|] eqn:Hloader;
    cbn [mbind option_bind];
    [|split; [exact Hp0|left; auto]].
  destruct (deref loader (si_playlist info)) as [playlist|] eqn:Hplaylist;
    [|split; [exact Hp0|left; auto]].
  rewrite Hb0, Hm0.
  match goal with
  | |- context [detectEndOfStream ?a ?b ?c ?d] =>
      destruct (detectEndOfStream a b c d) as [isEndOfStream|] eqn:Hend
  end; [|split; [exact Hp0|left; auto]].
  destruct (media loader) as [active|]; [|split; [exact Hp0|left; auto]].
  assert (Hsource : isEndOfStream = true -> exists ms, mediaSource (hls p) = Some ms).
  { intros ->. apply detectEndOfStream_source in Hend. exact Hend. }
  assert (Hfinish :
    forall q,
      pendingSegment_ (hls q) = None -> trace (hls q) = trace (hls p) ->
      mediaSource (hls q) = mediaSource (hls p) ->
      forall m : M Playback unit,
        (m = lift (endOfStream None) /\ isEndOfStream = true \/
         (exists mediaIndex, m = lift (fillBuffer mediaIndex)) /\
         isEndOfStream = false) ->
        pendingSegment_ (hls (state_of (m q))) = None /\
        m q = Normal tt (state_of (m q)) /\
        if isEndOfStream
        then trace (hls (state_of (m q))) = EndOfStream None :: trace (hls p)
        else endings (hls (state_of (m q))) = endings (hls p) /\
             (segmentRequests (hls (state_of (m q))) <=
              S (segmentRequests (hls p)))%nat).
  { intros q Hq Htq Hmq m [[-> ->]|[[mediaIndex ->] ->]].
    - destruct (Hsource eq_refl) as [ms Hms]. rewrite <- Hmq in Hms.
      rewrite (lift_endOfStream q ms Hms). simpl.
      split; [exact Hq|]. split; [reflexivity|]. now rewrite Htq.
    - destruct (lift_fillBuffer mediaIndex q) as (st' & -> & Hframe & Hreqs & Hends).
      simpl. split; [rewrite (fi_pendingSegment _ _ Hframe); exact Hq|].
      split; [reflexivity|]. unfold endings, segmentRequests in *.
      rewrite Htq in *. auto. }
  assert (Hdone :
    forall q (m : M Playback unit),
      pendingSegment_ (hls q) = None -> trace (hls q) = trace (hls p) ->
      mediaSource (hls q) = mediaSource (hls p) ->
      (m = lift (endOfStream None) /\ isEndOfStream = true \/
       (exists mediaIndex, m = lift (fillBuffer mediaIndex)) /\
       isEndOfStream = false) ->
      pendingSegment_ (hls (state_of (m q))) = None /\
      (m q = TypeError (state_of (m q)) /\
       trace (hls (state_of (m q))) = trace (hls p) \/
       exists loader0 playlist0 isEndOfStream0,
         m q = Normal tt (state_of (m q)) /\
         Some loader = Some loader0 /\
         deref loader0 (si_playlist info) = Some playlist0 /\
         detectEndOfStream (Some playlist0) (mediaSource (hls p))
           (si_mediaIndex info +
            (si_mediaSequence info - mediaSequence playlist0))
           (findBufferedRange_ None (hls p)) = Some isEndOfStream0 /\
         if isEndOfStream0
         then trace (hls (state_of (m q))) = EndOfStream None :: trace (hls p)
         else endings (hls (state_of (m q))) = endings (hls p) /\
              (segmentRequests (hls (state_of (m q))) <=
               S (segmentRequests (hls p)))%nat)).
  { intros q m Hq Htq Hmq Hm.
    destruct (Hfinish q Hq Htq Hmq m Hm) as (Ha & Hb & Hc).
    split; [exact Ha|]. right. exists loader, playlist, isEndOfStream. auto. }
  rewrite <- Hl0.
  destruct (negb (sameText (pl_uri playlist) (pl_uri active))).
  - destruct isEndOfStream; apply Hdone; eauto.
  - destruct (seekAgain_playOnly (findBufferedRange_ None (hls p)) p0)
      as (Hseek & _).
    set (p1 := seekAgain (findBufferedRange_ None (hls p)) p0) in *.
    assert (Hp1 : pendingSegment_ (hls p1) = None)
      by (rewrite (po_pendingSegment _ _ Hseek); exact Hp0).
    assert (Ht1 : trace (hls p1) = trace (hls p))
      by (rewrite (po_trace _ _ Hseek); exact Ht0).
    assert (Hm1 : mediaSource (hls p1) = mediaSource (hls p))
      by (rewrite (po_mediaSource _ _ Hseek); exact Hm0).
    clearbody p1.
    destruct (updateSegmentMetadata _ _ (Some playlist)) as [[] [playlist'|]|];
      try (split; [exact Hp1|left; auto]).
    destruct (store_frame (si_playlist info) playlist' (hls p1))
      as (Hts & Hps & Hms).
    set (p2 := set_hls (store (si_playlist info) playlist' (hls p1)) p1) in *.
    assert (Hp2 : pendingSegment_ (hls p2) = None) by (simpl; congruence).
    assert (Ht2 : trace (hls p2) = trace (hls p)) by (simpl; congruence).
    assert (Hm2 : mediaSource (hls p2) = mediaSource (hls p)) by (simpl; congruence).
    clearbody p2.
    destruct isEndOfStream; [apply Hdone; eauto|].
    destruct (_ || _); [|apply Hdone; eauto].
    unfold bind.
    pose proof (updateDuration_frame playlist' p2) as [Hhls Hthrow].
    destruct (updateDuration playlist' p2) as [[] p3|p3]; simpl in Hhls.
    + apply Hdone; try (rewrite Hhls; assumption). eauto.
    + simpl. rewrite Hhls. split; [exact Hp2|]. left. auto.
Qed.

Lemma lift_frame {A : Type} (m : M HlsHandler A) (p : Playback) :
  techState (state_of (lift m p)) = techState p /\
  mediaSource_duration (state_of (lift m p)) = mediaSource_duration p /\
  calls (state_of (lift m p)) = calls p /\
  hls (state_of (lift m p)) = state_of (m (hls p)).
Proof. unfold lift. destruct (m (hls p)); simpl; auto. Qed.

(** X27. When the rendition has been switched while the segment was
    appended (the playlist of the segment does not have the URI of the
    active one), [updateEndHandler_] records no timeline information: the
    playlists stay as they are, the duration of the media source is not
    updated and no seek is tried again. *)
Theorem updateEndHandler_after_switch
    (p : Playback) (info : SegmentInfo) (appendedOver : TimeRanges)
    (loader : PlaylistLoader) (playlist active : Playlist) :
  pendingSegment_ (hls p) = Some info ->
  si_buffered info = Some appendedOver ->
  playlists (hls p) = Some loader ->
  deref loader (si_playlist info) = Some playlist ->
  media loader = Some active ->
  pl_uri playlist <> pl_uri active ->
  playlists (hls (state_of (updateEndHandler_ p))) = playlists (hls p) /\
  tech_ (hls (state_of (updateEndHandler_ p))) = tech_ (hls p) /\
  techState (state_of (updateEndHandler_ p)) = techState p /\
  mediaSource_duration (state_of (updateEndHandler_ p)) = mediaSource_duration p /\
  calls (state_of (updateEndHandler_ p)) = calls p.
Proof.
  intros Hpending Hbuffered Hloader Hplaylist Hactive Hswitched.
  unfold updateEndHandler_. rewrite Hpending, Hbuffered. cbv zeta.
  cbn [hls set_hls playlists set_pendingSegment_].
  rewrite Hloader. cbn [mbind option_bind]. rewrite Hplaylist, Hactive.
  match goal with
  | |- context [detectEndOfStream ?a ?b ?c ?d] =>
      destruct (detectEndOfStream a b c d) as [isEndOfStream|]
  end; [|simpl; auto].
  assert (Hdiffer : sameText (pl_uri playlist) (pl_uri active) = false).
  { destruct (sameText (pl_uri playlist) (pl_uri active)) eqn:Hsame;
      [|reflexivity].
    apply sameText_eq in Hsame. contradiction. }
  rewrite Hdiffer. cbn [negb].
  destruct isEndOfStream.
  - destruct (lift_frame (endOfStream None)
                (set_hls (set_pendingSegment_ None (hls p)) p))
      as (Ha & Hb & Hc & Hd).
    rewrite Ha, Hb, Hc, Hd. simpl hls. unfold endOfStream.
    destruct (mediaSource (set_pendingSegment_ None (hls p))); simpl; auto.
  - destruct (lift_frame (fillBuffer None)
                (set_hls (set_pendingSegment_ None (hls p)) p))
      as (Ha & Hb & Hc & Hd).
    rewrite Ha, Hb, Hc, Hd. simpl hls.
    pose proof (fillBuffer_fillOnly None (set_pendingSegment_ None (hls p)))
      as Hframe.
    rewrite (fi_playlists _ _ Hframe), (fi_tech _ _ Hframe). simpl. auto.
Qed.

(** X28. On the rendition the segment came from, when [updateEndHandler_]
    returns, the playlist object of the segment is what
    [updateSegmentMetadata] makes of it at the index of the segment with
    the one new end among the buffered ranges, the other playlists are as
    they were, and nothing later in the handler undoes it. *)
Theorem updateEndHandler_records_timeline
    (p q : Playback) (info : SegmentInfo) (appendedOver : TimeRanges)
    (loader : PlaylistLoader) (playlist active : Playlist) :
  pendingSegment_ (hls p) = Some info ->
  si_buffered info = Some appendedOver ->
  playlists (hls p) = Some loader ->
  deref loader (si_playlist info) = Some playlist ->
  media loader = Some active ->
  pl_uri playlist = pl_uri active ->
  updateEndHandler_ p = Normal tt q ->
  exists updated loader',
    updateSegmentMetadata
      (si_mediaIndex info + (si_mediaSequence info - mediaSequence playlist))
      (Hls.findSoleUncommonTimeRangesEnd_ (Some appendedOver)
         (Some (buffered (tech_ (hls q)))))
      (Some playlist) = Normal tt (Some updated) /\
    playlists (hls q) = Some loader' /\
    deref loader' (si_playlist info) = Some updated /\
    forall r, r <> si_playlist info -> deref loader' r = deref loader r.
Proof.
  intros Hpending Hbuffered Hloader Hplaylist Hactive Hsame.
  unfold updateEndHandler_. rewrite Hpending, Hbuffered. cbv zeta.
  cbn [hls set_hls playlists set_pendingSegment_].
  rewrite Hloader. cbn [mbind option_bind]. rewrite Hplaylist, Hactive.
  match goal with
  | |- context [detectEndOfStream ?a ?b ?c ?d] =>
      destruct (detectEndOfStream a b c d) as [isEndOfStream|]
  end; [|discriminate].
  apply sameText_eq in Hsame. rewrite Hsame. cbn [negb].
  set (p0 := set_hls (set_pendingSegment_ None (hls p)) p).
  destruct (seekAgain_playOnly
              (findBufferedRange_ None (set_pendingSegment_ None (hls p))) p0)
    as (_ & Hkept).
  set (p1 := seekAgain
               (findBufferedRange_ None (set_pendingSegment_ None (hls p))) p0)
    in *.
  assert (Hl1 : playlists (hls p1) = Some loader)
    by (rewrite Hkept; exact Hloader).
  clearbody p1. clear Hkept.
  destruct (updateSegmentMetadata _ _ (Some playlist))
    as [[] [updated|]|] eqn:Hupdate; try discriminate.
  set (p2 := set_hls (store (si_playlist info) updated (hls p1)) p1).
  assert (Hstored :
    exists loader',
      playlists (hls p2) = Some loader' /\
      deref loader' (si_playlist info) = Some updated /\
      forall r, r <> si_playlist info -> deref loader' r = deref loader r).
  { subst p2. cbn [hls set_hls]. unfold store. rewrite Hl1.
    unfold deref in *. destruct (master loader) as [pls|]; [|discriminate].
    eexists. split; [reflexivity|]. cbn [master set_master].
    split.
    - apply list_lookup_insert_eq. eapply lookup_lt_Some, Hplaylist.
    - intros r Hr. apply list_lookup_insert_ne. congruence. }
  assert (Ht2 : tech_ (hls p2) = tech_ (hls p1)).
  { subst p2. cbn [hls set_hls]. unfold store. rewrite Hl1.
    destruct (master loader); reflexivity. }
  clearbody p2.
  assert (Hgoal :
    forall m : M HlsHandler unit,
      (forall st, playlists (state_of (m st)) = playlists st /\
                  tech_ (state_of (m st)) = tech_ st) ->
      forall p3,
        hls p3 = hls p2 ->
        lift m p3 = Normal tt q ->
        exists updated0 loader',
          Normal tt (Some updated) = Normal tt (Some updated0) /\
          playlists (hls q) = Some loader' /\
          deref loader' (si_playlist info) = Some updated0 /\
          forall r, r <> si_playlist info -> deref loader' r = deref loader r).
  { intros m Hm p3 Hp3 Hrun.
    destruct (lift_frame m p3) as (_ & _ & _ & Hhls).
    rewrite Hrun in Hhls. simpl in Hhls.
    destruct (Hm (hls p3)) as [Hl Ht].
    destruct Hstored as (loader' & Hl' & Hd & Hothers).
    exists updated, loader'. split; [reflexivity|].
    rewrite Hhls, Hl, Hp3. auto. }
  assert (Hfill : forall mediaIndex st,
             playlists (state_of (fillBuffer mediaIndex st)) = playlists st /\
             tech_ (state_of (fillBuffer mediaIndex st)) = tech_ st).
  { intros mediaIndex st.
    pose proof (fillBuffer_fillOnly mediaIndex st) as Hframe.
    split; [apply (fi_playlists _ _ Hframe)|apply (fi_tech _ _ Hframe)]. }
  assert (Hend : forall st,
             playlists (state_of (endOfStream None st)) = playlists st /\
             tech_ (state_of (endOfStream None st)) = tech_ st).
  { intros st. unfold endOfStream. destruct (mediaSource st); auto. }
  assert (Htech : forall m : M HlsHandler unit,
             (forall st, playlists (state_of (m st)) = playlists st /\
                         tech_ (state_of (m st)) = tech_ st) ->
             forall p3, hls p3 = hls p2 -> lift m p3 = Normal tt q ->
             tech_ (hls q) = tech_ (hls p1)).
  { intros m Hm p3 Hp3 Hrun.
    destruct (lift_frame m p3) as (_ & _ & _ & Hhls).
    rewrite Hrun in Hhls. simpl in Hhls.
    destruct (Hm (hls p3)) as [_ Ht]. rewrite Hhls, Ht, Hp3. exact Ht2. }
  assert (Hboth :
    forall m : M HlsHandler unit,
      (forall st, playlists (state_of (m st)) = playlists st /\
                  tech_ (state_of (m st)) = tech_ st) ->
      forall p3,
        hls p3 = hls p2 ->
        lift m p3 = Normal tt q ->
        exists updated0 loader',
          updateSegmentMetadata
            (si_mediaIndex info +
             (si_mediaSequence info - mediaSequence playlist))
            (Hls.findSoleUncommonTimeRangesEnd_ (Some appendedOver)
               (Some (buffered (tech_ (hls q)))))
            (Some playlist) = Normal tt (Some updated0) /\
          playlists (hls q) = Some loader' /\
          deref loader' (si_playlist info) = Some updated0 /\
          forall r, r <> si_playlist info -> deref loader' r = deref loader r).
  { intros m Hm p3 Hp3 Hrun.
    rewrite (Htech m Hm p3 Hp3 Hrun), Hupdate.
    exact (Hgoal m Hm p3 Hp3 Hrun). }
  destruct isEndOfStream; [apply (Hboth _ Hend p2 eq_refl)|].
  destruct (_ || _); [|apply (Hboth _ (Hfill _) p2 eq_refl)].
  unfold bind.
  pose proof (updateDuration_frame updated p2) as [Hhls _].
  destruct (updateDuration updated p2) as [[] p3|p3]; [|discriminate].
  apply (Hboth _ (Hfill _) p3 Hhls).
Qed.

(** *** The first playlist *)

Lemma setupSourceBuffer_quiet (p : Playback) :
  loadingState_ (hls (state_of (setupSourceBuffer_ p))) = loadingState_ (hls p) /\
  trace (hls (state_of (setupSourceBuffer_ p))) = trace (hls p).
Proof.
  unfold setupSourceBuffer_.
  destruct (playlists (hls p)) as [loader|] eqn:Hloader; [|auto].
  destruct (media loader) as [active|]; [|auto].
  destruct (mediaSource (hls p)) as [ms|]; [|auto].
  destruct (negb _); [auto|]. cbv zeta.
  destruct (addSourceBuffer ms (mimeTypeOf active)) as [sb|]; [|auto].
  unfold bind, lift, modify, excludeIncompatibleVariants_.
  cbn [hls set_hls call playlists set_sourceBuffer]. rewrite Hloader.
  destruct (master loader); auto.
Qed.

Lemma fillBuffer_not_allowed (mediaIndex : option Z) (st : HlsHandler) :
  loadingState_ st <> LoadSegments -> fillBuffer mediaIndex st = Normal tt st.
Proof.
  intros Hnot. unfold fillBuffer.
  destruct (loadingState_ st); [reflexivity|reflexivity|contradiction].
Qed.

(** X29. The listener of [loadedmetadata] makes at most one segment request.
    It allows the loading of segments exactly when the media playlist is
    finished and [preload] is neither [metadata] nor [none]; for a live
    playlist or with such a [preload], if the loading of segments had not
    been allowed before, it is still not allowed afterwards and the
    listener has made no request. *)
Theorem loadedmetadata_respects_preload (p : Playback) :
  (segmentRequests (hls (state_of (loadedmetadata p))) <=
   S (segmentRequests (hls p)))%nat /\
  (forall active,
      playlists (hls p) ≫= media = Some active ->
      endList active = true ->
      preload (techState p) <> "metadata"%string ->
      preload (techState p) <> "none"%string ->
      loadingState_ (hls (state_of (loadedmetadata p))) = LoadSegments) /\
  (forall active,
      playlists (hls p) ≫= media = Some active ->
      endList active = false \/ preload (techState p) = "metadata"%string \/
      preload (techState p) = "none"%string ->
      loadingState_ (hls (state_of (loadedmetadata p))) = loadingState_ (hls p) /\
      (loadingState_ (hls p) <> LoadSegments ->
       trace (hls (state_of (loadedmetadata p))) = trace (hls p))).
Proof.
  assert (Hchain :
    forall p1,
      let q :=
        state_of
          ((run setupSourceBuffer_;
            run setupFirstPlay;
            run lift (fillBuffer None);
            modify (call (TechTrigger "loadedmetadata")))%js p1) in
      loadingState_ (hls q) = loadingState_ (hls p1) /\
      (segmentRequests (hls q) <= S (segmentRequests (hls p1)))%nat /\
      (loadingState_ (hls p1) <> LoadSegments -> trace (hls q) = trace (hls p1))).
  { intros p1. cbv zeta. unfold bind.
    destruct (setupSourceBuffer_quiet p1) as [Hl2 Ht2].
    destruct (setupSourceBuffer_ p1) as [[] p2|p2]; simpl in Hl2, Ht2;
      [|simpl; unfold segmentRequests; rewrite Hl2, Ht2; auto].
    destruct (setupFirstPlay_playOnly p2) as (Hframe & _ & Hl3).
    pose proof (po_trace _ _ Hframe) as Ht3. cbv zeta in Hl3, Ht3.
    destruct (setupFirstPlay p2) as [[] p3|p3]; simpl in Hl3, Ht3;
      [|simpl; unfold segmentRequests; rewrite Hl3, Ht3, Hl2, Ht2; auto].
    destruct (lift_fillBuffer None p3) as (st4 & Hrun & Hfill & Hreqs & _).
    rewrite Hrun. simpl.
    split; [rewrite (fi_loadingState _ _ Hfill); congruence|].
    split; [unfold segmentRequests in *; rewrite <- Ht2, <- Ht3; exact Hreqs|].
    intros Hnot.
    assert (Hst4 : st4 = hls p3).
    { unfold lift in Hrun.
      rewrite (fillBuffer_not_allowed None (hls p3)) in Hrun by congruence.
      injection Hrun as Hrun. now rewrite <- Hrun. }
    rewrite Hst4. congruence. }
  unfold loadedmetadata.
  destruct (playlists (hls p) ≫= media) as [oldMediaPlaylist|];
    [|simpl; split; [lia|split; intros active Ha; discriminate]].
  cbv zeta.
  destruct (endList oldMediaPlaylist) eqn:Hfinished; cbn [andb].
  - destruct (String.eqb_spec (preload (techState p)) "metadata") as [Hm|Hm];
      cbn [negb andb].
    + destruct (Hchain p) as (Hl & Hreqs & Hquiet). cbv zeta in Hl, Hreqs, Hquiet.
      split; [exact Hreqs|]. split.
      * intros active Ha _ Hnot. contradiction.
      * intros active Ha _. auto.
    + destruct (String.eqb_spec (preload (techState p)) "none") as [Hn|Hn];
        cbn [negb].
      * destruct (Hchain p) as (Hl & Hreqs & Hquiet).
        cbv zeta in Hl, Hreqs, Hquiet.
        split; [exact Hreqs|]. split.
        -- intros active Ha _ _ Hnot. contradiction.
        -- intros active Ha _. auto.
      * destruct (Hchain (set_hls (set_loadingState_ LoadSegments (hls p)) p))
          as (Hl & Hreqs & _).
        cbv zeta in Hl, Hreqs.
        split; [exact Hreqs|]. split.
        -- intros active Ha _ _ _. exact Hl.
        -- intros active Ha [Hlive|[Hpre|Hpre]]; [|contradiction|contradiction].
           injection Ha as <-. congruence.
  - destruct (Hchain p) as (Hl & Hreqs & Hquiet). cbv zeta in Hl, Hreqs, Hquiet.
    split; [exact Hreqs|]. split.
    + intros active Ha Hended. injection Ha as <-. congruence.
    + intros active Ha _. auto.
Qed.

End Playing.
(** ** Sessions *)

Section InSession.

Context `{External} `{Outside}.

Lemma settled_refl (k : KeyRef) (st : HlsHandler) : settled k st st.
Proof. split; [apply sameTimers_refl|apply keyCalm_refl]. Qed.

Lemma settled_trans (k : KeyRef) (st1 st2 st3 : HlsHandler) :
  settled k st1 st2 -> settled k st2 st3 -> settled k st1 st3.
Proof.
  intros [Ht12 Hk12] [Ht23 Hk23].
  split; [eapply sameTimers_trans|eapply keyCalm_trans]; eassumption.
Qed.

(** Setters that touch neither the timer, the keys nor the trace. *)
Lemma settled_plain (k : KeyRef) (st st' : HlsHandler) :
  checkBufferTimeout_ st' = checkBufferTimeout_ st -> keys st' = keys st ->
  trace st' = trace st -> settled k st st'.
Proof.
  intros Hc Hk Ht. split; [split; [exact Hc|now rewrite Ht]|].
  split; [exact Hk|]. intros _. unfold keyRequests. now rewrite Ht.
Qed.

Lemma settled_oneTimer (k : KeyRef) (st st' : HlsHandler) :
  settled k st st' -> oneTimer st -> oneTimer st'.
Proof. intros [Ht _]. apply sameTimers_oneTimer, Ht. Qed.

Lemma settled_loaded (k : KeyRef) (st st' : HlsHandler) :
  settled k st st' -> keyLoadedIn k st ->
  keyLoadedIn k st' /\ keyRequests k st' = keyRequests k st.
Proof. intros [_ Hk]. apply keyCalm_loaded, Hk. Qed.

Lemma failoverOnly_settled (k : KeyRef) (st st' : HlsHandler) :
  failoverOnly st st' -> settled k st st'.
Proof.
  intros Hf. split; [apply failoverOnly_sameTimers|apply failoverOnly_keyCalm];
    exact Hf.
Qed.

Lemma drainBuffer_settled (k : KeyRef) : keeping (settled k) drainBuffer.
Proof.
  intros st. split; [apply drainOnly_sameTimers|apply drainOnly_keyCalm];
    apply drainBuffer_drainOnly.
Qed.

Lemma fillBuffer_settled (k : KeyRef) (mediaIndex : option Z) :
  keeping (settled k) (fillBuffer mediaIndex).
Proof.
  intros st. split; [|apply fillBuffer_keyCalm].
  apply fillOnly_sameTimers, fillBuffer_fillOnly.
Qed.

Lemma loadSegment_settled (k : KeyRef) (segmentInfo : SegmentInfo) :
  keeping (settled k) (loadSegment segmentInfo).
Proof.
  intros st. split; [|apply loadSegment_keyCalm].
  apply fillOnly_sameTimers, loadSegment_fillOnly.
Qed.

Lemma fetchKey_settled (k : KeyRef) (segment : Segment) :
  keeping (settled k) (fetchKey_ segment).
Proof.
  intros st. split; [|apply fetchKey_keyCalm].
  apply fillOnly_sameTimers, fetchKey_fillOnly.
Qed.

Lemma setCurrentTime_settled (k : KeyRef) (time : float) :
  keeping (settled k) (setCurrentTime time).
Proof.
  intros st. split; [apply setCurrentTime_sameTimers|apply setCurrentTime_keyCalm].
Qed.

Lemma segmentLoaded_sameTimers (segmentInfo : SegmentInfo) (segment : Segment)
    (request : XhrResponse) :
  keeping sameTimers (segmentLoaded segmentInfo segment request).
Proof.
  intros st. destruct (segmentXhr_ st) as [current|] eqn:Hx.
  - destruct (Nat.eqb_spec (rq_ref request) current) as [Heq|Hne].
    + subst current.
      destruct (segmentLoaded_cases segmentInfo segment request st Hx)
        as (st1 & Hd & _ & _ & Hst1 & _).
      eapply sameTimers_trans; [exact Hst1|apply drainOnly_sameTimers, Hd].
    + unfold segmentLoaded. rewrite Hx.
      destruct (Nat.eqb_spec (rq_ref request) current); [contradiction|].
      apply sameTimers_refl.
  - unfold segmentLoaded. rewrite Hx. apply sameTimers_refl.
Qed.

Lemma segmentLoaded_settled (k : KeyRef) (segmentInfo : SegmentInfo)
    (segment : Segment) (request : XhrResponse) :
  keeping (settled k) (segmentLoaded segmentInfo segment request).
Proof.
  intros st. split; [apply segmentLoaded_sameTimers|apply segmentLoaded_keyCalm].
Qed.

Lemma setBandwidth_settled (k : KeyRef) (request : XhrResponse) (st : HlsHandler) :
  settled k st (setBandwidth request st).
Proof. repeat split. Qed.

Lemma decrypted_settled (k : KeyRef) (error : option string)
    (localBytes : option Bytes) (pending : bool) (st : HlsHandler) :
  settled k st (decrypted error localBytes pending st).
Proof.
  unfold decrypted.
  destruct error as [message|]; simpl;
    destruct (pendingSegment_ st); destruct pending; repeat split.
Qed.

Lemma cancelSegmentXhr_settled (k : KeyRef) (st : HlsHandler) :
  settled k st (cancelSegmentXhr st).
Proof.
  unfold cancelSegmentXhr. destruct (segmentXhr_ st); repeat split.
Qed.

Lemma cancelKeyXhr_settled (k : KeyRef) (st : HlsHandler) :
  settled k st (cancelKeyXhr st).
Proof.
  unfold cancelKeyXhr. destruct (keyXhr_ st); repeat split.
Qed.

Lemma excludeIncompatibleVariants_settled (k : KeyRef) (media : Playlist) :
  keeping (settled k) (excludeIncompatibleVariants_ media).
Proof.
  intros st. unfold excludeIncompatibleVariants_.
  destruct (playlists st) as [loader|]; [|apply settled_refl].
  destruct (master loader); [|apply settled_refl].
  apply settled_plain; reflexivity.
Qed.

Lemma stopCheckingBuffer_keyCalm (k : KeyRef) (st : HlsHandler) :
  keyCalm k st (stopCheckingBuffer_ st).
Proof.
  unfold stopCheckingBuffer_. destruct (checkBufferTimeout_ st); split; auto.
Qed.

Lemma stopCheckingBuffer_oneTimer (st : HlsHandler) :
  oneTimer st -> oneTimer (stopCheckingBuffer_ st).
Proof.
  intros Hone. destruct (stopCheckingBuffer_none st Hone) as [Hc Ht].
  unfold oneTimer. now rewrite Hc, Ht.
Qed.

Lemma called_oneTimer (st st' : HlsHandler) :
  called st st' -> oneTimer st -> oneTimer st'.
Proof.
  intros Hcall Hone. destruct Hcall.
  - apply checkBuffer_oneTimer, Hone.
  - apply checkBuffer_oneTimer, Hone.
  - apply stopCheckingBuffer_oneTimer, Hone.
  - eapply (settled_oneTimer 0%nat); [apply fillBuffer_settled|exact Hone].
  - eapply (settled_oneTimer 0%nat); [apply loadSegment_settled|exact Hone].
  - eapply sameTimers_oneTimer; [apply segmentLoaded_sameTimers|exact Hone].
  - eapply (settled_oneTimer 0%nat); [apply setBandwidth_settled|exact Hone].
  - eapply (settled_oneTimer 0%nat); [apply drainBuffer_settled|exact Hone].
  - eapply (settled_oneTimer 0%nat); [apply decrypted_settled|exact Hone].
  - eapply sameTimers_oneTimer; [apply setCurrentTime_sameTimers|exact Hone].
  - eapply (settled_oneTimer 0%nat); [apply cancelKeyXhr_settled|exact Hone].
  - eapply (settled_oneTimer 0%nat); [apply cancelSegmentXhr_settled|exact Hone].
  - eapply (settled_oneTimer 0%nat); [|exact Hone].
    apply failoverOnly_settled, blacklistCurrentPlaylist_failoverOnly.
  - eapply (settled_oneTimer 0%nat); [|exact Hone].
    apply failoverOnly_settled, selectPlaylist_failoverOnly.
  - eapply (settled_oneTimer 0%nat);
      [apply excludeIncompatibleVariants_settled|exact Hone].
  - eapply (settled_oneTimer 0%nat); [apply fetchKey_settled|exact Hone].
  - apply receiveKey_oneTimer, Hone.
Qed.

Lemma called_keeps_loaded (k : KeyRef) (st st' : HlsHandler) :
  called st st' -> keyLoadedIn k st ->
  keyLoadedIn k st' /\ keyRequests k st' = keyRequests k st.
Proof.
  intros Hcall Hloaded. destruct Hcall.
  - apply keyCalm_loaded; [apply checkBuffer_keyCalm|exact Hloaded].
  - apply keyCalm_loaded; [apply checkBuffer_keyCalm|exact Hloaded].
  - apply keyCalm_loaded; [apply stopCheckingBuffer_keyCalm|exact Hloaded].
  - apply (settled_loaded k); [apply fillBuffer_settled|exact Hloaded].
  - apply (settled_loaded k); [apply loadSegment_settled|exact Hloaded].
  - apply (settled_loaded k); [apply segmentLoaded_settled|exact Hloaded].
  - apply (settled_loaded k); [apply setBandwidth_settled|exact Hloaded].
  - apply (settled_loaded k); [apply drainBuffer_settled|exact Hloaded].
  - apply (settled_loaded k); [apply decrypted_settled|exact Hloaded].
  - apply (settled_loaded k); [apply setCurrentTime_settled|exact Hloaded].
  - apply (settled_loaded k); [apply cancelKeyXhr_settled|exact Hloaded].
  - apply (settled_loaded k); [apply cancelSegmentXhr_settled|exact Hloaded].
  - apply (settled_loaded k); [|exact Hloaded].
    apply failoverOnly_settled, blacklistCurrentPlaylist_failoverOnly.
  - apply (settled_loaded k); [|exact Hloaded].
    apply failoverOnly_settled, selectPlaylist_failoverOnly.
  - apply (settled_loaded k);
      [apply excludeIncompatibleVariants_settled|exact Hloaded].
  - apply (settled_loaded k); [apply fetchKey_settled|exact Hloaded].
  - apply receiveKey_loaded_stays, Hloaded.
Qed.

(** *** The methods that also touch the tech and the media source *)

Lemma bind_settled (k : KeyRef) {A B : Type} (m : M Playback A)
    (f : A -> M Playback B) :
  (forall p, settled k (hls p) (hls (state_of (m p)))) ->
  (forall a p, settled k (hls p) (hls (state_of (f a p)))) ->
  forall p, settled k (hls p) (hls (state_of (bind m f p))).
Proof.
  intros Hm Hf p. unfold bind. specialize (Hm p).
  destruct (m p) as [a q|q]; simpl in *; [|exact Hm].
  eapply settled_trans; [exact Hm|apply Hf].
Qed.

Lemma lift_settled (k : KeyRef) {A : Type} (m : M HlsHandler A) :
  keeping (settled k) m ->
  forall p, settled k (hls p) (hls (state_of (lift m p))).
Proof.
  intros Hm p. destruct (lift_frame m p) as (_ & _ & _ & ->). apply Hm.
Qed.

Lemma playOnly_settled (k : KeyRef) (p q : Playback) :
  playOnly p q -> settled k (hls p) (hls q).
Proof.
  intros Hp. apply settled_plain;
    [apply (po_checkBufferTimeout _ _ Hp)|apply (po_keys _ _ Hp)|
     apply (po_trace _ _ Hp)].
Qed.

Lemma play_settled (k : KeyRef) (p : Playback) :
  settled k (hls p) (hls (state_of (play p))).
Proof. apply playOnly_settled, play_frame. Qed.

Lemma setupFirstPlay_settled (k : KeyRef) (p : Playback) :
  settled k (hls p) (hls (state_of (setupFirstPlay p))).
Proof. apply playOnly_settled, (setupFirstPlay_playOnly p). Qed.

Lemma updateDuration_keeps_handler (k : KeyRef) (playlist : Playlist)
    (p : Playback) :
  settled k (hls p) (hls (state_of (updateDuration playlist p))).
Proof.
  rewrite (proj1 (updateDuration_frame playlist p)). apply settled_refl.
Qed.

Lemma setDuration_settled (k : KeyRef) (newDuration : float) (p : Playback) :
  settled k (hls p) (hls (state_of (setDuration newDuration p))).
Proof.
  unfold setDuration. destruct (mediaSource (hls p)); apply settled_refl.
Qed.

Lemma src_settled (k : KeyRef) (url : option string) (created : MediaSource)
    (loader : PlaylistLoader) (withCredentials el : bool) (p : Playback) :
  settled k (hls p) (hls (src url created loader withCredentials el p)).
Proof.
  unfold src. cbv zeta.
  destruct (match url with
            | Some url0 => String.eqb url0 EmptyString
            | None => true
            end); [apply settled_refl|].
  destruct el; apply settled_plain; reflexivity.
Qed.

Lemma setupSourceBuffer_settled (k : KeyRef) (p : Playback) :
  settled k (hls p) (hls (state_of (setupSourceBuffer_ p))).
Proof.
  unfold setupSourceBuffer_.
  destruct (playlists (hls p)) as [loader|]; [|apply settled_refl].
  destruct (media loader) as [active|]; [|apply settled_refl].
  destruct (mediaSource (hls p)) as [ms|]; [|apply settled_refl].
  destruct (negb _); [apply settled_refl|]. cbv zeta.
  destruct (addSourceBuffer ms (mimeTypeOf active)) as [sb|];
    [|apply settled_refl].
  match goal with
  | |- settled _ _ (hls (state_of (bind ?m ?f ?q))) =>
      apply (settled_trans k _ (hls q));
        [apply settled_plain; reflexivity|apply (bind_settled k m f)]
  end.
  - apply lift_settled, excludeIncompatibleVariants_settled.
  - intros _ q. apply settled_refl.
Qed.

Lemma handleSourceOpen_settled (k : KeyRef) (p : Playback) :
  settled k (hls p) (hls (state_of (handleSourceOpen p))).
Proof.
  unfold handleSourceOpen. apply bind_settled.
  - intros q. destruct (negb _);
      [apply setupSourceBuffer_settled|apply settled_refl].
  - intros _ q. destruct (autoplay (techState q));
      [apply play_settled|apply settled_refl].
Qed.

Lemma resetSrc_settled (k : KeyRef) (p : Playback) :
  settled k (hls p) (hls (state_of (resetSrc_ p))).
Proof.
  unfold resetSrc_. cbv zeta.
  assert (Hcancel : settled k (hls p) (cancelKeyXhr (cancelSegmentXhr (hls p)))).
  { eapply settled_trans;
      [apply cancelSegmentXhr_settled|apply cancelKeyXhr_settled]. }
  cbn [hls set_hls].
  destruct (sourceBuffer _); [|exact Hcancel].
  destruct (mediaSource _); [|exact Hcancel].
  destruct (String.eqb _ _); exact Hcancel.
Qed.

(** [dispose] after its first step, the call of [stopCheckingBuffer_]. *)
Lemma dispose_settled (k : KeyRef) (p : Playback) :
  settled k (stopCheckingBuffer_ (hls p)) (hls (state_of (dispose p))).
Proof.
  unfold dispose. unfold bind at 1. unfold modify at 1.
  match goal with
  | |- settled _ _ (hls (state_of (bind ?m ?f ?q))) =>
      change (stopCheckingBuffer_ (hls p)) with (hls q);
        apply (bind_settled k m f)
  end.
  - intros q. unfold modify. simpl.
    destruct (playlists (hls q)); [apply settled_plain; reflexivity|].
    apply settled_refl.
  - intros _. apply bind_settled; [apply resetSrc_settled|].
    intros _ q. apply settled_refl.
Qed.

Lemma store_settled (k : KeyRef) (r : PlaylistRef) (playlist : Playlist)
    (st : HlsHandler) :
  settled k st (store r playlist st).
Proof.
  unfold store. destruct (playlists st) as [loader|]; [|apply settled_refl].
  destruct (master loader); [|apply settled_refl].
  apply settled_plain; reflexivity.
Qed.

Lemma endOfStream_settled (k : KeyRef) (reason : option string) :
  keeping (settled k) (endOfStream reason).
Proof. intros st. apply failoverOnly_settled, endOfStream_failoverOnly. Qed.

Lemma updateEndHandler_settled (k : KeyRef) (p : Playback) :
  settled k (hls p) (hls (state_of (updateEndHandler_ p))).
Proof.
  unfold updateEndHandler_.
  destruct (pendingSegment_ (hls p)) as [segmentInfo|];
    [|apply settled_plain; reflexivity].
  destruct (si_buffered segmentInfo) as [appendedOver|]; [|apply settled_refl].
  cbv zeta.
  set (p1 := set_hls (set_pendingSegment_ None (hls p)) p).
  assert (H1 : settled k (hls p) (hls p1)) by (apply settled_plain; reflexivity).
  destruct (playlists (hls p1) ≫= _) as [playlist|]; [|exact H1].
  match goal with
  | |- context [detectEndOfStream ?a ?b ?c ?d] =>
      destruct (detectEndOfStream a b c d) as [isEndOfStream|]
  end; [|exact H1].
  destruct (playlists (hls p1) ≫= media) as [active|]; [|exact H1].
  destruct (negb (sameText (pl_uri playlist) (pl_uri active))).
  { eapply settled_trans; [exact H1|].
    destruct isEndOfStream;
      [apply lift_settled, endOfStream_settled
      |apply lift_settled, fillBuffer_settled]. }
  match goal with
  | |- context [seekAgain ?b p1] => set (p2 := seekAgain b p1)
  end.
  assert (H2 : settled k (hls p) (hls p2)).
  { eapply settled_trans; [exact H1|].
    apply playOnly_settled. subst p2. apply seekAgain_playOnly. }
  match goal with
  | |- context [updateSegmentMetadata ?a ?b ?c] =>
      destruct (updateSegmentMetadata a b c) as [[] [updated|]|]
  end; try exact H2.
  match goal with
  | |- context [set_hls (store ?r updated (hls p2)) p2] =>
      set (p3 := set_hls (store r updated (hls p2)) p2)
  end.
  assert (H3 : settled k (hls p) (hls p3)).
  { eapply settled_trans; [exact H2|]. subst p3. apply store_settled. }
  eapply settled_trans; [exact H3|].
  destruct isEndOfStream; [apply lift_settled, endOfStream_settled|].
  destruct (_ || _); [|apply lift_settled, fillBuffer_settled].
  apply bind_settled; [apply updateDuration_keeps_handler|].
  intros _. apply lift_settled, fillBuffer_settled.
Qed.

Lemma loadedmetadata_settled (k : KeyRef) (p : Playback) :
  settled k (hls p) (hls (state_of (loadedmetadata p))).
Proof.
  unfold loadedmetadata.
  destruct (playlists (hls p) ≫= media) as [oldMediaPlaylist|];
    [|apply settled_refl].
  cbv zeta.
  match goal with
  | |- settled _ _ (hls (state_of (bind ?m ?f ?q))) =>
      apply (settled_trans k _ (hls q));
        [destruct (_ && _); [apply settled_plain; reflexivity|apply settled_refl]
        |apply (bind_settled k m f)]
  end; [apply setupSourceBuffer_settled|].
  intros _. apply bind_settled; [apply setupFirstPlay_settled|].
  intros _. apply bind_settled; [apply lift_settled, fillBuffer_settled|].
  intros _ q. apply settled_refl.
Qed.

Lemma loadedplaylist_settled (k : KeyRef) (p : Playback) :
  settled k (hls p) (hls (state_of (loadedplaylist p))).
Proof.
  unfold loadedplaylist.
  destruct (playlists (hls p)) as [loader|]; [|apply settled_refl].
  destruct (media loader) as [updatedPlaylist|].
  - apply bind_settled; [apply updateDuration_keeps_handler|].
    intros _ q. destruct (seekable (hls q)) as [|[start0 end0] rest];
      [apply settled_refl|].
    destruct (PrimFloat.eqb _ _); apply settled_refl.
  - apply lift_settled. intros st. apply failoverOnly_settled, reselect_failoverOnly.
Qed.

Lemma event_oneTimer (p q : Playback) :
  event p q -> oneTimer (hls p) -> oneTimer (hls q).
Proof.
  intros Hevent Hone. destruct Hevent.
  - apply (called_oneTimer (hls p)); assumption.
  - apply (settled_oneTimer 0%nat (hls p)); [apply src_settled|exact Hone].
  - apply (settled_oneTimer 0%nat (hls p));
      [apply handleSourceOpen_settled|exact Hone].
  - apply (settled_oneTimer 0%nat (hls p));
      [apply setupSourceBuffer_settled|exact Hone].
  - apply (settled_oneTimer 0%nat (hls p));
      [apply setupFirstPlay_settled|exact Hone].
  - apply (settled_oneTimer 0%nat (hls p)); [apply play_settled|exact Hone].
  - apply (settled_oneTimer 0%nat (hls p));
      [apply updateDuration_keeps_handler|exact Hone].
  - apply (settled_oneTimer 0%nat (hls p)); [apply setDuration_settled|exact Hone].
  - apply (settled_oneTimer 0%nat (hls p)); [apply resetSrc_settled|exact Hone].
  - apply (settled_oneTimer 0%nat (stopCheckingBuffer_ (hls p)));
      [apply dispose_settled|apply stopCheckingBuffer_oneTimer, Hone].
  - apply (settled_oneTimer 0%nat (hls p));
      [apply updateEndHandler_settled|exact Hone].
  - apply (settled_oneTimer 0%nat (hls p));
      [apply loadedmetadata_settled|exact Hone].
  - apply (settled_oneTimer 0%nat (hls p));
      [apply loadedplaylist_settled|exact Hone].
  - exact Hone.
  - match goal with
    | Hc : checkBufferTimeout_ (hls ?q) = _, Ht : trace (hls ?q) = _ |- _ =>
        unfold oneTimer; rewrite Hc, Ht; exact Hone
    end.
Qed.

Lemma event_keeps_loaded (k : KeyRef) (p q : Playback) :
  event p q -> keyLoadedIn k (hls p) ->
  keyLoadedIn k (hls q) /\ keyRequests k (hls q) = keyRequests k (hls p).
Proof.
  intros Hevent Hloaded. destruct Hevent.
  - apply (called_keeps_loaded k (hls p)); assumption.
  - apply settled_loaded; [apply src_settled|exact Hloaded].
  - apply settled_loaded; [apply handleSourceOpen_settled|exact Hloaded].
  - apply settled_loaded; [apply setupSourceBuffer_settled|exact Hloaded].
  - apply settled_loaded; [apply setupFirstPlay_settled|exact Hloaded].
  - apply settled_loaded; [apply play_settled|exact Hloaded].
  - apply settled_loaded; [apply updateDuration_keeps_handler|exact Hloaded].
  - apply settled_loaded; [apply setDuration_settled|exact Hloaded].
  - apply settled_loaded; [apply resetSrc_settled|exact Hloaded].
  - destruct (keyCalm_loaded k (hls p) _ (stopCheckingBuffer_keyCalm k (hls p))
                Hloaded) as [H1 H2].
    destruct (settled_loaded k _ _ (dispose_settled k p) H1) as [H3 H4].
    split; [exact H3|congruence].
  - apply settled_loaded; [apply updateEndHandler_settled|exact Hloaded].
  - apply settled_loaded; [apply loadedmetadata_settled|exact Hloaded].
  - apply settled_loaded; [apply loadedplaylist_settled|exact Hloaded].
  - split; [exact Hloaded|reflexivity].
  - split.
    + destruct Hloaded as (key & Hlook & Hb). exists key. auto.
    + unfold keyRequests. congruence.
Qed.

(** X8. The handler keeps at most one check of the buffer scheduled. If the
    timer it remembers is the only one it has set and not cleared, this stays
    so through any session: any sequence of calls, from any state, of its
    methods, callbacks and listeners ([src], [handleSourceOpen], [play],
    [dispose], [updateEndHandler_], the listeners of [loadedmetadata] and
    [loadedplaylist] and the callbacks of the requests and of the decrypter
    among them) and of changes made by anything else that leave the timer
    remembered, the key objects and the record of the calls alone.
    [checkBuffer_], when it returns, has cleared the timer it found and has
    set a new one, of 500 ms, which it remembers; after
    [stopCheckingBuffer_] no timer is left. (The timers are those of
    [checkBuffer_], the only method of the handler that sets one; the timer
    the source handler sets on the tech in flash mode triggers [loadstart]
    and is no check of the buffer.) *)
Theorem one_buffer_check_scheduled :
  (forall p q, session p q -> oneTimer (hls p) -> oneTimer (hls q)) /\
  (forall st st',
      oneTimer st -> checkBuffer_ st = Normal tt st' ->
      exists timer,
        checkBufferTimeout_ st' = Some timer /\
        outstandingTimers (trace st') = [timer] /\
        head (trace st') = Some (SetTimeout timer bufferCheckInterval)) /\
  (forall st,
      oneTimer st ->
      checkBufferTimeout_ (stopCheckingBuffer_ st) = None /\
      outstandingTimers (trace (stopCheckingBuffer_ st)) = []).
Proof.
  split; [|split].
  - intros p q Hsession. induction Hsession as [p|p q r Hevent _ IH];
      intros Hone; [exact Hone|].
    apply IH. apply (event_oneTimer p q Hevent Hone).
  - intros st st' Hone Hrun.
    pose proof (checkBuffer_oneTimer st Hone) as Hone'.
    rewrite Hrun in Hone'. simpl in Hone'.
    unfold checkBuffer_, bind, modify in Hrun.
    destruct (fillBuffer None _) as [[] st2|st2]; [|discriminate].
    destruct (drainBuffer st2) as [[] st3|st3]; [|discriminate].
    injection Hrun as <-. exists (fresh st3).
    split; [reflexivity|]. split; [exact Hone'|reflexivity].
  - exact stopCheckingBuffer_none.
Qed.

(** X12. A key that has been downloaded is not asked for again: through any
    session (any sequence of calls, from any state, of the methods,
    callbacks and listeners of the handler, and of changes made by anything
    else that leave the timer remembered, the key objects and the record of
    the calls alone) the key keeps its bytes and no further request is made
    for it. *)
Theorem downloaded_key_is_not_requested_again
    (k : KeyRef) (p q : Playback) :
  session p q -> keyLoadedIn k (hls p) ->
  keyLoadedIn k (hls q) /\ keyRequests k (hls q) = keyRequests k (hls p).
Proof.
  induction 1 as [p|p q r Hevent Hsession IH]; intros Hloaded; [auto|].
  destruct (event_keeps_loaded k p q Hevent Hloaded) as [H1 H2].
  destruct (IH H1) as [H3 H4]. split; [exact H3|congruence].
Qed.

End InSession.

(** ** The properties at sample inputs *)

Lemma selectPlaylist_falls_back_to_lowest_witness :
  selectPlaylist Cases.slowLink = Normal (Some 1%nat) Cases.slowLink /\
  exists p,
    [Sample.rendition "high.m3u8" 8000000 None;
     Sample.rendition "mid.m3u8" 5000000 None] !! 1%nat = Some p /\
    notExcluded (clock Cases.slowLink) p = true /\
    forall r' p',
      [Sample.rendition "high.m3u8" 8000000 None;
       Sample.rendition "mid.m3u8" 5000000 None] !! r' = Some p' ->
      notExcluded (clock Cases.slowLink) p' = true ->
      orMaxValue (declaredBandwidth p) <= orMaxValue (declaredBandwidth p').
Proof.
  split; [reflexivity|].
  apply (selectPlaylist_falls_back_to_lowest Cases.slowLink
           (Sample.loader
              [Sample.rendition "high.m3u8" 8000000 None;
               Sample.rendition "mid.m3u8" 5000000 None] None)
           [Sample.rendition "high.m3u8" 8000000 None;
            Sample.rendition "mid.m3u8" 5000000 None] eq_refl eq_refl);
    [|reflexivity].
  intros [|[|r]] p Hp _; simpl in Hp; try discriminate;
    injection Hp as <-; reflexivity.
Defined.

Lemma selectPlaylist_prefers_exact_size_witness :
  exists r p b,
    selectPlaylist Fixture.threeSizes = Normal (Some r) Fixture.threeSizes /\
    [Fixture.sized "small.m3u8" 300000 320 180;
     Fixture.sized "fit.m3u8" 800000 640 360;
     Fixture.sized "large.m3u8" 2000000 1280 720] !! r = Some p /\
    sizeIs 640 360 p = true /\
    notExcluded (clock Fixture.threeSizes) p = true /\
    bandwidthEligible (bandwidth Fixture.threeSizes) p = true /\
    declaredBandwidth p = Some b /\
    forall r' p' b',
      [Fixture.sized "small.m3u8" 300000 320 180;
       Fixture.sized "fit.m3u8" 800000 640 360;
       Fixture.sized "large.m3u8" 2000000 1280 720] !! r' = Some p' ->
      notExcluded (clock Fixture.threeSizes) p' = true ->
      bandwidthEligible (bandwidth Fixture.threeSizes) p' = true ->
      sizeIs 640 360 p' = true -> declaredBandwidth p' = Some b' ->
      b' <= b.
Proof.
  apply (selectPlaylist_prefers_exact_size Fixture.threeSizes
           (Sample.loader
              [Fixture.sized "small.m3u8" 300000 320 180;
               Fixture.sized "fit.m3u8" 800000 640 360;
               Fixture.sized "large.m3u8" 2000000 1280 720] None)
           [Fixture.sized "small.m3u8" 300000 320 180;
            Fixture.sized "fit.m3u8" 800000 640 360;
            Fixture.sized "large.m3u8" 2000000 1280 720]
           640 360 1%nat (Fixture.sized "fit.m3u8" 800000 640 360));
    reflexivity.
Defined.

Lemma segment_timeout_selects_lowest_witness :
  exists selected,
    @segmentLoaded Sample.ext Cases.info (Sample.segment "0.ts" 10)
      (Cases.timeout 7) Cases.loading =
      Normal tt
        match selected with
        | Some r =>
            set_playlists
              (Some (@media_setter Sample.ext
                       (Sample.loader
                          [Sample.rendition "low.m3u8" 500000 None;
                           Sample.rendition "high.m3u8" 2000000 None]
                          (Some 1%nat)) r))
              (emit (MediaSwitch r)
                 (set_bandwidth 1 (set_segmentXhr_ None Cases.loading)))
        | None => set_bandwidth 1 (set_segmentXhr_ None Cases.loading)
        end /\
    match selected with
    | Some r =>
        exists p,
          [Sample.rendition "low.m3u8" 500000 None;
           Sample.rendition "high.m3u8" 2000000 None] !! r = Some p /\
          notExcluded (clock Cases.loading) p = true /\
          forall r' p',
            [Sample.rendition "low.m3u8" 500000 None;
             Sample.rendition "high.m3u8" 2000000 None] !! r' = Some p' ->
            notExcluded (clock Cases.loading) p' = true ->
            orMaxValue (declaredBandwidth p) <= orMaxValue (declaredBandwidth p')
    | None =>
        forall r p,
          [Sample.rendition "low.m3u8" 500000 None;
           Sample.rendition "high.m3u8" 2000000 None] !! r = Some p ->
          notExcluded (clock Cases.loading) p = false
    end.
Proof.
  apply (@segment_timeout_selects_lowest Sample.ext Cases.info
           (Sample.segment "0.ts" 10) (Cases.timeout 7) Cases.loading
           (Sample.loader
              [Sample.rendition "low.m3u8" 500000 None;
               Sample.rendition "high.m3u8" 2000000 None] (Some 1%nat))
           [Sample.rendition "low.m3u8" 500000 None;
            Sample.rendition "high.m3u8" 2000000 None]
           eq_refl eq_refl eq_refl eq_refl).
  intros [|[|r]] p b Hp Hb; simpl in Hp; try discriminate;
    injection Hp as <-; vm_compute in Hb; injection Hb as <-; reflexivity.
Defined.

Lemma segmentLoaded_request_settled_witness :
  segmentXhr_
    (state_of (@segmentLoaded Sample.ext Cases.info (Sample.segment "0.ts" 10)
                 (Sample.failure 7) Cases.loading)) = None /\
  segmentRequests
    (state_of (@segmentLoaded Sample.ext Cases.info (Sample.segment "0.ts" 10)
                 (Sample.failure 7) Cases.loading)) =
  segmentRequests Cases.loading.
Proof.
  exact (@segmentLoaded_request_settled Sample.ext Cases.info
           (Sample.segment "0.ts" 10) (Sample.failure 7) Cases.loading eq_refl).
Defined.

Lemma segmentLoaded_body_is_pending_witness :
  lastSegmentLoaded_
    (state_of (@segmentLoaded Sample.ext Cases.info (Sample.segment "0.ts" 10)
                 (Cases.success 7 [71; 64]) Cases.loading)) =
    Some (Sample.segment "0.ts" 10) /\
  bandwidth
    (state_of (@segmentLoaded Sample.ext Cases.info (Sample.segment "0.ts" 10)
                 (Cases.success 7 [71; 64]) Cases.loading)) = 3000000 /\
  JS.defined
    (pendingSegment_
       (state_of (@segmentLoaded Sample.ext Cases.info (Sample.segment "0.ts" 10)
                    (Cases.success 7 [71; 64]) Cases.loading))) = true /\
  forall mediaIndex,
    @fillBuffer Sample.ext mediaIndex
      (state_of (@segmentLoaded Sample.ext Cases.info (Sample.segment "0.ts" 10)
                   (Cases.success 7 [71; 64]) Cases.loading)) =
    Normal tt
      (state_of (@segmentLoaded Sample.ext Cases.info (Sample.segment "0.ts" 10)
                   (Cases.success 7 [71; 64]) Cases.loading)).
Proof.
  exact (@segmentLoaded_body_is_pending Sample.ext Cases.info
           (Sample.segment "0.ts" 10) (Cases.success 7 [71; 64]) [71; 64]
           Cases.loading eq_refl eq_refl (or_intror eq_refl) eq_refl).
Defined.

Lemma fillBuffer_requests_first_new_segment_witness :
  exists loader playlist segs j segment url request,
    playlists (Sample.handler 0 [] [Sample.media] (Some 0%nat) 0) = Some loader /\
    media loader = Some playlist /\
    segments playlist = Some segs /\
    @startIndex Sample.ext None loader
      (Sample.handler 0 [] [Sample.media] (Some 0%nat) 0) <= Z.of_nat j /\
    segs !! j = Some segment /\
    (forall i s,
        @startIndex Sample.ext None loader
          (Sample.handler 0 [] [Sample.media] (Some 0%nat) 0) <= Z.of_nat i
          < Z.of_nat j ->
        segs !! i = Some s ->
        @sameAsLastLoaded Sample.ext (Sample.handler 0 [] [Sample.media] (Some 0%nat) 0) s = true) /\
    @sameAsLastLoaded Sample.ext (Sample.handler 0 [] [Sample.media] (Some 0%nat) 0) segment = false /\
    @playlistUriToUrl Sample.ext (seg_uri segment)
      (Sample.handler 0 [] [Sample.media] (Some 0%nat) 0) = Some url /\
    segmentXhr_
      (state_of (@fillBuffer Sample.ext None
                   (Sample.handler 0 [] [Sample.media] (Some 0%nat) 0))) =
      Some request /\
    head (trace
            (state_of (@fillBuffer Sample.ext None
                         (Sample.handler 0 [] [Sample.media] (Some 0%nat) 0)))) =
      Some (XhrSegment request url (seg_duration segment * 1.5 * 1000)%float
              (segmentXhrHeaders_ segment)
              (source_withCredentials
                 (Sample.handler 0 [] [Sample.media] (Some 0%nat) 0))).
Proof.
  apply (@fillBuffer_requests_first_new_segment Sample.ext None
           (Sample.handler 0 [] [Sample.media] (Some 0%nat) 0)).
  vm_compute. discriminate.
Defined.

Lemma fillBuffer_requests_only_when_ready_witness :
  loadingState_ (Sample.handler 0 [] [Sample.media] (Some 0%nat) 0) = LoadSegments /\
  currentSrc (tech_ (Sample.handler 0 [] [Sample.media] (Some 0%nat) 0)) <>
    EmptyString /\
  segmentXhr_ (Sample.handler 0 [] [Sample.media] (Some 0%nat) 0) = None /\
  pendingSegment_ (Sample.handler 0 [] [Sample.media] (Some 0%nat) 0) = None /\
  (exists loader playlist,
      playlists (Sample.handler 0 [] [Sample.media] (Some 0%nat) 0) = Some loader /\
      state loader <> HAVE_NOTHING /\
      state loader <> SWITCHING_MEDIA /\ media loader = Some playlist /\
      JS.defined (segments playlist) = true) /\
  (@None Z = None ->
   JS.geb (bufferedTime
             (Sample.handler 0 [] [Sample.media] (Some 0%nat) 0))
     Hls.GOAL_BUFFER_LENGTH = false).
Proof.
  apply (@fillBuffer_requests_only_when_ready Sample.ext None
           (Sample.handler 0 [] [Sample.media] (Some 0%nat) 0)).
  vm_compute. discriminate.
Defined.

Lemma findSoleUncommonTimeRangesEnd_nothing_appended_witness :
  Hls.findSoleUncommonTimeRangesEnd_
    (Some [(0, 10)%float; (20, 30)%float]) (Some [(20, 30)%float]) = None.
Proof.
  apply findSoleUncommonTimeRangesEnd_nothing_appended.
  - intros span [<-|[]]. right. left. reflexivity.
  - repeat constructor.
Defined.

Lemma incompatible_variant_is_never_selected_witness :
  selectPlaylist
    (state_of (excludeIncompatibleVariants_
                 (Cases.coded "main.m3u8" 500000 "avc1.4d400d,mp4a.40.2")
                 Cases.mixed)) =
  Normal (Some 0%nat)
    (state_of (excludeIncompatibleVariants_
                 (Cases.coded "main.m3u8" 500000 "avc1.4d400d,mp4a.40.2")
                 Cases.mixed)) /\
  exists loader pls p,
    playlists Cases.mixed = Some loader /\ master loader = Some pls /\
    pls !! 0%nat = Some p /\
    codecCount (codecsOf p) =
      codecCount (codecsOf (Cases.coded "main.m3u8" 500000 "avc1.4d400d,mp4a.40.2")) /\
    videoCodec (codecsOf p) =
      videoCodec (codecsOf (Cases.coded "main.m3u8" 500000 "avc1.4d400d,mp4a.40.2")) /\
    (audioProfile (codecsOf p) = Some "5"%string <->
     audioProfile (codecsOf (Cases.coded "main.m3u8" 500000 "avc1.4d400d,mp4a.40.2")) =
       Some "5"%string).
Proof.
  split; [reflexivity|].
  apply (incompatible_variant_is_never_selected
           (Cases.coded "main.m3u8" 500000 "avc1.4d400d,mp4a.40.2")
           Cases.mixed
           (state_of (excludeIncompatibleVariants_
                        (Cases.coded "main.m3u8" 500000 "avc1.4d400d,mp4a.40.2")
                        Cases.mixed))
           (state_of (excludeIncompatibleVariants_
                        (Cases.coded "main.m3u8" 500000 "avc1.4d400d,mp4a.40.2")
                        Cases.mixed))
           (state_of (excludeIncompatibleVariants_
                        (Cases.coded "main.m3u8" 500000 "avc1.4d400d,mp4a.40.2")
                        Cases.mixed))
           0%nat);
    reflexivity.
Defined.

Lemma parseCodecs_of_video_and_audio_witness :
  parseCodecs "avc1.4d400d,mp4a.40.5" =
  {| codecCount := 2; videoCodec := Some "avc1"%string;
     audioProfile := Some "5"%string |}.
Proof.
  apply (parseCodecs_of_video_and_audio ".4d400d" "40" "5");
    first [reflexivity|discriminate].
Defined.

Lemma setupSourceBuffer_excludes_incompatible_witness :
  exists q,
    @setupSourceBuffer_ plainOutside Stage.mixed = Normal tt q /\
    sourceBuffer (hls q) = Some {| updating := false |} /\
    calls q =
      OnUpdateEnd :: AddSourceBuffer (mimeTypeOf Stage.main) :: calls Stage.mixed /\
    trace (hls q) = trace (hls Stage.mixed) /\
    forall later later' r,
      playlists later = playlists (hls q) ->
      selectPlaylist later = Normal (Some r) later' ->
      exists pls variant,
        master
          (Sample.loader
             [Stage.main; Cases.coded "he.m3u8" 300000 "avc1.4d400d,mp4a.40.5";
              Cases.coded "audio.m3u8" 64000 "mp4a.40.2"] (Some 0%nat)) =
          Some pls /\
        pls !! r = Some variant /\
        codecCount (codecsOf variant) = codecCount (codecsOf Stage.main) /\
        videoCodec (codecsOf variant) = videoCodec (codecsOf Stage.main) /\
        (audioProfile (codecsOf variant) = Some "5"%string <->
         audioProfile (codecsOf Stage.main) = Some "5"%string).
Proof.
  apply (@setupSourceBuffer_excludes_incompatible plainOutside Stage.mixed
           (Sample.loader
              [Stage.main; Cases.coded "he.m3u8" 300000 "avc1.4d400d,mp4a.40.5";
               Cases.coded "audio.m3u8" 64000 "mp4a.40.2"] (Some 0%nat))
           Stage.main
           {| readyState := "open"; nativeSourceBuffers := Some 1%nat |}
           {| updating := false |});
    reflexivity.
Defined.

Lemma handleSourceOpen_keeps_source_buffer_witness :
  sourceBuffer
    (hls (state_of (@handleSourceOpen Sample.ext plainOutside Stage.mixed))) =
    Some {| updating := false |} /\
  addedSourceBuffers
    (state_of (@handleSourceOpen Sample.ext plainOutside Stage.mixed)) =
    addedSourceBuffers Stage.mixed /\
  trace (hls (state_of (@handleSourceOpen Sample.ext plainOutside Stage.mixed))) =
    trace (hls Stage.mixed) /\
  (autoplay (techState Stage.mixed) = false ->
   @handleSourceOpen Sample.ext plainOutside Stage.mixed = Normal tt Stage.mixed) /\
  (autoplay (techState Stage.mixed) = true ->
   loadingState_
     (hls (state_of (@handleSourceOpen Sample.ext plainOutside Stage.mixed))) =
   LoadSegments).
Proof.
  exact (@handleSourceOpen_keeps_source_buffer Sample.ext plainOutside
           Stage.mixed {| updating := false |} eq_refl).
Defined.

Lemma updateEndHandler_ends_or_fills_witness :
  pendingSegment_ (hls Stage.afterAppend) = Some Stage.appended /\
  pendingSegment_
    (hls (state_of (@updateEndHandler_ Sample.ext plainOutside Stage.afterAppend))) =
    None /\
  segmentRequests
    (hls (state_of (@updateEndHandler_ Sample.ext plainOutside Stage.afterAppend))) =
    1%nat /\
  endings
    (hls (state_of (@updateEndHandler_ Sample.ext plainOutside Stage.afterAppend))) =
    0%nat.
Proof.
  split; [reflexivity|].
  split; [|split; reflexivity].
  exact (proj1 (@updateEndHandler_ends_or_fills Sample.ext plainOutside
                  Stage.afterAppend Stage.appended [] eq_refl eq_refl)).
Defined.

Lemma updateEndHandler_after_switch_witness :
  playlists
    (hls (state_of (@updateEndHandler_ Sample.ext plainOutside Stage.switched))) =
    playlists (hls Stage.switched) /\
  tech_ (hls (state_of (@updateEndHandler_ Sample.ext plainOutside Stage.switched))) =
    tech_ (hls Stage.switched) /\
  techState (state_of (@updateEndHandler_ Sample.ext plainOutside Stage.switched)) =
    techState Stage.switched /\
  mediaSource_duration
    (state_of (@updateEndHandler_ Sample.ext plainOutside Stage.switched)) =
    mediaSource_duration Stage.switched /\
  calls (state_of (@updateEndHandler_ Sample.ext plainOutside Stage.switched)) =
    calls Stage.switched.
Proof.
  apply (@updateEndHandler_after_switch Sample.ext plainOutside Stage.switched
           Stage.appended []
           (Sample.loader
              [Sample.rendition "low.m3u8" 500000 None;
               Sample.rendition "high.m3u8" 2000000 None] (Some 1%nat))
           (Sample.rendition "low.m3u8" 500000 None)
           (Sample.rendition "high.m3u8" 2000000 None));
    first [reflexivity|discriminate].
Defined.

Lemma updateEndHandler_records_timeline_witness :
  exists updated loader',
    updateSegmentMetadata
      (si_mediaIndex Stage.appended +
       (si_mediaSequence Stage.appended - mediaSequence Sample.media))
      (Hls.findSoleUncommonTimeRangesEnd_ (Some [])
         (Some (buffered
                  (tech_ (hls (state_of (@updateEndHandler_ Sample.ext plainOutside
                                           Stage.afterAppend)))))))
      (Some Sample.media) = Normal tt (Some updated) /\
    playlists
      (hls (state_of (@updateEndHandler_ Sample.ext plainOutside Stage.afterAppend))) =
      Some loader' /\
    deref loader' (si_playlist Stage.appended) = Some updated /\
    forall r, r <> si_playlist Stage.appended ->
      deref loader' r = deref (Sample.loader [Sample.media] (Some 0%nat)) r.
Proof.
  apply (@updateEndHandler_records_timeline Sample.ext plainOutside
           Stage.afterAppend
           (state_of (@updateEndHandler_ Sample.ext plainOutside Stage.afterAppend))
           Stage.appended []
           (Sample.loader [Sample.media] (Some 0%nat)) Sample.media Sample.media);
    reflexivity.
Defined.

Lemma one_buffer_check_scheduled_witness :
  oneTimer
    (hls (state_of (@dispose plainOutside
       (state_of (@updateEndHandler_ Sample.ext plainOutside
          (state_of (@play Sample.ext plainOutside
             (set_hls (state_of (@checkBuffer_ Sample.ext (hls Stage.afterAppend)))
                Stage.afterAppend)))))))) /\
  outstandingTimers
    (trace (hls (state_of (@updateEndHandler_ Sample.ext plainOutside
       (state_of (@play Sample.ext plainOutside
          (set_hls (state_of (@checkBuffer_ Sample.ext (hls Stage.afterAppend)))
             Stage.afterAppend))))))) = [0%nat].
Proof.
  split; [|reflexivity].
  apply (proj1 (@one_buffer_check_scheduled Sample.ext plainOutside)
           Stage.afterAppend).
  - eapply session_more;
      [apply (@event_called Sample.ext plainOutside), called_checkBuffer|].
    eapply session_more; [apply event_play|].
    eapply session_more; [apply event_updateEndHandler|].
    eapply session_more; [apply event_dispose|].
    apply session_none.
  - reflexivity.
Defined.

Lemma downloaded_key_is_not_requested_again_witness :
  keyLoadedIn 0%nat
    (hls (state_of (@loadedmetadata Sample.ext plainOutside
       (state_of (@play Sample.ext plainOutside
          (set_hls
             (state_of (@fetchKey_ Sample.ext Sample.encrypted
                (state_of (@fillBuffer Sample.ext None Cases.keyLoaded))))
             (fresh_playback Cases.keyLoaded 0))))))) /\
  keyRequests 0%nat
    (hls (state_of (@loadedmetadata Sample.ext plainOutside
       (state_of (@play Sample.ext plainOutside
          (set_hls
             (state_of (@fetchKey_ Sample.ext Sample.encrypted
                (state_of (@fillBuffer Sample.ext None Cases.keyLoaded))))
             (fresh_playback Cases.keyLoaded 0))))))) =
  keyRequests 0%nat Cases.keyLoaded.
Proof.
  apply (@downloaded_key_is_not_requested_again Sample.ext plainOutside 0%nat
           (fresh_playback Cases.keyLoaded 0)).
  - eapply session_more;
      [apply (@event_called Sample.ext plainOutside), called_fillBuffer|].
    eapply session_more;
      [apply (@event_called Sample.ext plainOutside), called_fetchKey|].
    eapply session_more; [apply event_play|].
    eapply session_more; [apply event_loadedmetadata|].
    apply session_none.
  - exists Cases.loadedKey. split; reflexivity.
Defined.
